(** * Reddit Data Tool: the comment-tree pipeline of [script.js]

    A shallow embedding of the core of [script.js] (the Flattener
    [buildTableData], the comparator [compareArray], the Sorter
    [sortTable], the Hierarchy Rebuilder [buildNodeDictionary] /
    [buildHierarchyFromDict] / [createSnippet] / [computeCounts] and the
    Date Formatter [formatDate]), followed by the properties of the
    specification that concern them; then the functions around that
    core (the export session of [startExport] and [fetchData] with
    [extractPostInfo], the escaping of [escapeHtml] and
    [formatBodyForHtml], the CSV file of [downloadCSV] and
    [convertToCsvRow], the collapsing of [createCollapsibleTree]) and
    the properties the code shows for them.

    Conventions of the embedding.
    - A JavaScript number that the pipeline handles is an integer or [NaN]
      ([jsnum]); Reddit's vote counts and epoch seconds are integers.
    - A member of the listing that [JSON.parse] made is absent, [null]
      or a value of its type ([member]).
    - A JavaScript string is a [string]; one [ascii] stands for one code
      unit, so the model covers the code units below 256.
    - The process-wide variables [tableData], [tableBuilt] and [sortAsc]
      are threaded explicitly; [session] adds the preferences and the
      post.
    - The built-ins the script calls ([split], [join], [parseInt], [trim],
      [slice], [toLowerCase], [padStart], [replace], [Array.prototype.sort],
      [Object.values], the UTC getters of [Date]) are modelled after
      ECMAScript in the first part of the file.
    - The document, the network and the drawing of D3 are not modelled:
      of the functions that touch them the file keeps what they do to
      the variables of the script and the text they build. *)

From Stdlib Require Import ZArith NArith Arith List String Ascii Bool Lia.
From Stdlib Require Import Permutation Sorted DecimalString DecimalNat DecimalN.
From Stdlib Require Import FinFun.
Import ListNotations.

Set Warnings "-register-all".

Open Scope string_scope.
Open Scope list_scope.

(* ================================================================== *)
(** * Part I. Definitions                                              *)
(* ================================================================== *)

(** ** JavaScript values used by the pipeline *)

(** A number: an integer or [NaN]. *)
Inductive jsnum : Type :=
| Num (z : Z)
| NaN.

(** What a call does: it returns, it throws, or (for the models that
    recurse over a store with a step budget) the budget ran out. *)
Inductive outcome (A : Type) : Type :=
| Returns (a : A)
| Throws (error : string)
| OutOfFuel.
Arguments Returns {A} a.
Arguments Throws {A} error.
Arguments OutOfFuel {A}.

(** A member of an object that [JSON.parse] made, as the script reads
    it: absent (the read gives [undefined]), [null], or a value of the
    type the Reddit listing gives the member. *)
Inductive member (A : Type) : Type :=
| Absent
| Null
| Present (a : A).
Arguments Absent {A}.
Arguments Null {A}.
Arguments Present {A} a.

(** What the tests [v || d], [v ? v : d] and [typeof v === 'number'] see
    of a member: [undefined] and [null] alike are falsy, and neither is
    a number. *)
Definition value_of {A : Type} (v : member A) : option A :=
  match v with
  | Present a => Some a
  | Absent | Null => None
  end.

(** [ToNumber] of a numeric member, as the subtraction applies it:
    [undefined] gives [NaN] and [null] gives [0]. *)
Definition ToNumber (v : member Z) : jsnum :=
  match v with
  | Present z => Num z
  | Null => Num 0
  | Absent => NaN
  end.

(** [x - y] on numbers. *)
Definition js_sub (x y : jsnum) : jsnum :=
  match x, y with
  | Num a, Num b => Num (a - b)
  | _, _ => NaN
  end.

(** [x * y] on numbers. *)
Definition js_mul (x y : jsnum) : jsnum :=
  match x, y with
  | Num a, Num b => Num (a * b)
  | _, _ => NaN
  end.

(** [v || 0] for a numeric property that may be missing ([None]): a
    missing property and [0] are falsy. *)
Definition num_or_zero (v : option Z) : Z :=
  match v with
  | Some z => if (z =? 0)%Z then 0%Z else z
  | None => 0%Z
  end.

(** [v ? v : null] for a numeric property: a missing property and [0]
    give [null] ([None]). *)
Definition num_or_null (v : option Z) : option Z :=
  match v with
  | Some z => if (z =? 0)%Z then None else Some z
  | None => None
  end.

(** [v ? v : d] for a string property: a missing property and the empty
    string are falsy. *)
Definition str_or (v : option string) (d : string) : string :=
  match v with
  | Some s => if s =? "" then d else s
  | None => d
  end.

(** ** Strings *)

(** [String(n)] for a non-negative integer. *)
Definition String_of_nat (n : nat) : string :=
  NilEmpty.string_of_uint (Nat.to_uint n).

(** [String(z)] for an integer. *)
Definition String_of_Z (z : Z) : string :=
  NilEmpty.string_of_int (Z.to_int z).

(** [arr.join(sep)] on an array of strings. *)
Definition join (sep : string) (l : list string) : string :=
  String.concat sep l.

(** [s.split(sep)] for a one-character separator; the empty string splits
    into one empty segment. *)
Fixpoint split (sep : ascii) (s : string) : list string :=
  match s with
  | EmptyString => [EmptyString]
  | String c s' =>
      if Ascii.eqb c sep then EmptyString :: split sep s'
      else match split sep s' with
           | h :: t => String c h :: t
           | [] => [String c EmptyString]
           end
  end.

(** [arr.slice(0, -1)]. *)
Definition slice_init {A : Type} (l : list A) : list A := removelast l.

(** White space and line terminators below code unit 256
    (TAB, LF, VT, FF, CR, SP, NBSP). *)
Definition is_white_space (c : ascii) : bool :=
  let n := nat_of_ascii c in
  ((n =? 9) || (n =? 10) || (n =? 11) || (n =? 12) || (n =? 13)
   || (n =? 32) || (n =? 160))%nat.

Fixpoint trimStart (s : string) : string :=
  match s with
  | EmptyString => EmptyString
  | String c s' => if is_white_space c then trimStart s' else s
  end.

(** Removes trailing white space: a character is kept when it is not
    white space or something is kept after it. *)
Fixpoint trimEnd (s : string) : string :=
  match s with
  | EmptyString => EmptyString
  | String c s' =>
      match trimEnd s' with
      | EmptyString => if is_white_space c then EmptyString
                       else String c EmptyString
      | t => String c t
      end
  end.

(** [s.trim()]. *)
Definition trim (s : string) : string := trimEnd (trimStart s).

(** [s.slice(0, n)]. *)
Definition slice0 (n : nat) (s : string) : string := String.substring 0 n s.

(** [c.toLowerCase()] on one code unit below 256: A-Z and the Latin-1
    capitals (all of U+00C0..U+00DE but the multiplication sign). *)
Definition lower_char (c : ascii) : ascii :=
  let n := nat_of_ascii c in
  if (((65 <=? n) && (n <=? 90))
      || ((192 <=? n) && (n <=? 222) && negb (n =? 215)))%nat
  then ascii_of_nat (n + 32) else c.

Fixpoint toLowerCase (s : string) : string :=
  match s with
  | EmptyString => EmptyString
  | String c s' => String (lower_char c) (toLowerCase s')
  end.

Fixpoint replicate (n : nat) (c : ascii) : string :=
  match n with
  | O => EmptyString
  | S n' => String c (replicate n' c)
  end.

(** [s.padStart(targetLength, pad)] for a one-character pad. *)
Definition padStart (targetLength : nat) (pad : ascii) (s : string) : string :=
  (replicate (targetLength - String.length s) pad ++ s)%string.

(** The value of [c] as a digit in [radix], if it is one. *)
Definition digit_value (radix : N) (c : ascii) : option N :=
  let n := N_of_ascii c in
  let v := if (48 <=? n)%N && (n <=? 57)%N then Some (n - 48)%N
           else if (97 <=? n)%N && (n <=? 122)%N then Some (n - 87)%N
           else if (65 <=? n)%N && (n <=? 90)%N then Some (n - 55)%N
           else None in
  match v with
  | Some d => if (d <? radix)%N then Some d else None
  | None => None
  end.

(** The longest prefix of digits of [s], read in [radix]; [acc] is the
    value read so far, [None] before the first digit. *)
Fixpoint parse_digits (radix : N) (s : string) (acc : option N) : option N :=
  match s with
  | EmptyString => acc
  | String c s' =>
      match digit_value radix c with
      | Some d =>
          parse_digits radix s'
            (Some (match acc with Some a => a * radix + d | None => d end)%N)
      | None => acc
      end
  end.

(** [parseInt(s)] with no radix: leading white space, an optional sign,
    an optional [0x] prefix, then digits; [NaN] when there is no digit. *)
Definition parseInt (s : string) : jsnum :=
  let s1 := trimStart s in
  let '(sign, s2) :=
    match s1 with
    | String "-" r => ((-1)%Z, r)
    | String "+" r => (1%Z, r)
    | _ => (1%Z, s1)
    end in
  let '(radix, s3) :=
    match s2 with
    | String "0" (String "x" r) => (16%N, r)
    | String "0" (String "X" r) => (16%N, r)
    | _ => (10%N, s2)
    end in
  match parse_digits radix s3 None with
  | Some n => Num (sign * Z.of_N n)
  | None => NaN
  end.

(** ** [Array.prototype.sort]

    The comparator returns a number: negative puts its first argument
    first, positive its second, and zero or [NaN] leaves the two in
    their order.  ECMAScript asks for a stable sort; the model is the
    stable insertion sort, which is what every conforming engine
    computes when the comparator is consistent.  When it is not (the
    numeric comparator on a score that is [NaN]) ECMAScript leaves the
    order to the engine, and the model says nothing of it: every
    property below that speaks of what a sort leaves is stated for a
    consistent comparator ([orderable] records). *)

Definition keeps_before (v : jsnum) : bool :=
  match v with
  | Num z => (z <=? 0)%Z
  | NaN => true
  end.

Fixpoint sort_insert {A : Type} (cmp : A -> A -> jsnum) (x : A) (l : list A)
  : list A :=
  match l with
  | [] => [x]
  | y :: l' => if keeps_before (cmp x y) then x :: y :: l'
               else y :: sort_insert cmp x l'
  end.

Fixpoint Array_sort {A : Type} (cmp : A -> A -> jsnum) (l : list A) : list A :=
  match l with
  | [] => []
  | x :: l' => sort_insert cmp x (Array_sort cmp l')
  end.

(** ** The Reddit listing (input of the Flattener) *)

(** [child.data] of a comment: each member is absent, [null], or of the
    type the listing gives it. *)
Record comment : Type := {
  c_body : member string;
  c_author : member string;
  c_ups : member Z;
  c_downs : member Z;
  c_score : member Z;
  c_created_utc : member Z
}.

(** One element of a listing's [children]: a "more" stub, or a comment
    with [c.replies.data.children] when [c.replies] leads to a listing
    ([None] when [replies] is absent or the empty string). *)
Inductive child : Type :=
| More
| T1 (c : comment) (replies : option (list child)).

(** ** Comment Records *)

Record row : Type := {
  numbering : string;
  level : nat;
  body : string;
  author : string;
  upvotes : Z;
  downvotes : Z;
  score : jsnum;
  dateUtc : option Z
}.

(** The object literal [row] of [buildTableData]. *)
Definition make_row (numberingArray : list nat) (c : comment) : row :=
  {| numbering := join "." (map String_of_nat numberingArray);
     level := List.length numberingArray;
     body := str_or (value_of (c_body c)) "[deleted]";
     author := str_or (value_of (c_author c)) "[deleted]";
     upvotes := num_or_zero (value_of (c_ups c));
     downvotes := num_or_zero (value_of (c_downs c));
     score := match value_of (c_score c) with
              | Some s => Num s
              | None => js_sub (ToNumber (c_ups c)) (ToNumber (c_downs c))
              end;
     dateUtc := num_or_null (value_of (c_created_utc c)) |}.

(** ** The Flattener *)

(** One turn of the [forEach] of [buildTableData]: the state is the
    sibling counter [count] and the global [tableData]. *)
Fixpoint visit (prefixArr : list nat) (ch : child) (st : nat * list row)
  {struct ch} : nat * list row :=
  match ch with
  | More => st
  | T1 c replies =>
      let count := S (fst st) in
      let numberingArray := prefixArr ++ [count] in
      let tableData := snd st ++ [make_row numberingArray c] in
      (count,
       match replies with
       | Some children =>
           snd (fold_left (fun st' ch' => visit numberingArray ch' st')
                          children (0, tableData))
       | None => tableData
       end)
  end.

(** [buildTableData(comments, prefixArr)], on the global [tableData]. *)
Definition buildTableData (comments : list child) (prefixArr : list nat)
  (tableData : list row) : list row :=
  snd (fold_left (fun st ch => visit prefixArr ch st) comments (0, tableData)).

(** The flat sequence of an export: [tableData] is reset to [[]] and
    [buildTableData(comments, [])] runs once. *)
Definition flat_sequence (comments : list child) : list row :=
  buildTableData comments [] [].

(** ** The Hierarchical Comparator *)

(** [a[i] || 0]: an index past the end reads [undefined]; [undefined],
    [NaN] and [0] are falsy. *)
Definition elem_or_zero (a : list jsnum) (i : nat) : Z :=
  match nth_error a i with
  | Some (Num z) => z
  | _ => 0%Z
  end.

(** The [for] loop of [compareArray], at index [i] with [steps = len - i]
    turns left. *)
Fixpoint compareArray_loop (a b : list jsnum) (i steps : nat) : Z :=
  match steps with
  | O => 0%Z
  | S steps' =>
      let valA := elem_or_zero a i in
      let valB := elem_or_zero b i in
      if (valA <? valB)%Z then (-1)%Z
      else if (valA >? valB)%Z then 1%Z
      else compareArray_loop a b (S i) steps'
  end.

Definition compareArray (a b : list jsnum) : Z :=
  let len := Nat.max (List.length a) (List.length b) in
  compareArray_loop a b 0 len.

(** [numbering.split('.').map(num => parseInt(num))]. *)
Definition numbering_array (s : string) : list jsnum :=
  map parseInt (split "." s).

(** The comparator on two numbering strings, as [sortTable] applies it
    before the direction factor. *)
Definition compareNumbering (s1 s2 : string) : Z :=
  compareArray (numbering_array s1) (numbering_array s2).

(** ** The Sorter *)

(** The process-wide variables the Sorter reads and writes. *)
Record state : Type := {
  tableData : list row;
  tableBuilt : bool;
  sortAsc : bool
}.

Definition row_keys : list string :=
  ["numbering"; "level"; "body"; "author"; "upvotes"; "downvotes"; "score";
   "dateUtc"].

(** The properties every object literal inherits from [Object.prototype]. *)
Definition Object_prototype_keys : list string :=
  ["constructor"; "__defineGetter__"; "__defineSetter__"; "hasOwnProperty";
   "__lookupGetter__"; "__lookupSetter__"; "isPrototypeOf";
   "propertyIsEnumerable"; "toString"; "valueOf"; "__proto__";
   "toLocaleString"].

Definition mem_string (k : string) (l : list string) : bool :=
  existsb (String.eqb k) l.

(** [column in tableData[0]]: own and inherited properties. *)
Definition column_in_row (column : string) : bool :=
  mem_string column row_keys || mem_string column Object_prototype_keys.

(** [sortAsc ? 1 : -1]. *)
Definition direction (asc : bool) : jsnum :=
  if asc then Num 1 else Num (-1).

(** [String(v)] of a number. *)
Definition String_of_jsnum (v : jsnum) : string :=
  match v with
  | Num z => String_of_Z z
  | NaN => "NaN"
  end.

(** [a[column]] for the columns of the numeric branch. *)
Definition num_prop (column : string) (r : row) : jsnum :=
  if column =? "upvotes" then Num (upvotes r)
  else if column =? "downvotes" then Num (downvotes r)
  else if column =? "level" then Num (Z.of_nat (level r))
  else score r.

(** [String(a[column])] for a column that passed the [in] test. *)
Definition String_of_prop (column : string) (r : row) : string :=
  if column =? "numbering" then numbering r
  else if column =? "level" then String_of_nat (level r)
  else if column =? "body" then body r
  else if column =? "author" then author r
  else if column =? "upvotes" then String_of_Z (upvotes r)
  else if column =? "downvotes" then String_of_Z (downvotes r)
  else if column =? "score" then String_of_jsnum (score r)
  else if column =? "dateUtc" then
         match dateUtc r with Some z => String_of_Z z | None => "null" end
  else if column =? "__proto__" then "[object Object]"
  else if column =? "constructor" then "function Object() { [native code] }"
  else ("function " ++ column ++ "() { [native code] }")%string.

(** The two [if]s and the [return 0] of the string comparators. *)
Definition compare_strings (asc : bool) (valA valB : string) : jsnum :=
  if (valA <? valB)%string then (if asc then Num (-1) else Num 1)
  else if (valB <? valA)%string then (if asc then Num 1 else Num (-1))
  else Num 0.

(** The comparator [sortTable] hands to [sort] for [column]. *)
Definition comparator (column : string) (asc : bool) (a b : row) : jsnum :=
  if column =? "numbering" then
    js_mul (Num (compareNumbering (numbering a) (numbering b))) (direction asc)
  else if column =? "dateUtc" then
    js_mul (js_sub (Num (num_or_zero (dateUtc a)))
                   (Num (num_or_zero (dateUtc b))))
           (direction asc)
  else if mem_string column ["upvotes"; "downvotes"; "level"; "score"] then
    js_mul (js_sub (num_prop column a) (num_prop column b)) (direction asc)
  else if column =? "body" then
    compare_strings asc (toLowerCase (body a)) (toLowerCase (body b))
  else
    compare_strings asc (toLowerCase (String_of_prop column a))
                        (toLowerCase (String_of_prop column b)).

(** [sortTable(column)]; the final [renderTable] leaves the order alone
    and sets [tableBuilt]. *)
Definition sortTable (column : string) (st : state) : state :=
  if negb (tableBuilt st) || (List.length (tableData st) =? 0)%nat then st
  else if negb (column_in_row column) && negb (column =? "body") then st
  else {| tableData := Array_sort (comparator column (sortAsc st)) (tableData st);
          tableBuilt := true;
          sortAsc := negb (sortAsc st) |}.

(** ** The Hierarchy Rebuilder *)

Definition createSnippet (text : string) : string :=
  if (text =? "") || (text =? "[deleted]") then "[deleted]"
  else
    let s := trim text in
    if (80 <? String.length s)%nat then (slice0 80 s ++ "...")%string else s.

(** A node object of the dictionary.  [children] holds references to
    node objects, written as their keys in the dictionary; [children] and
    [count] are unset until [buildHierarchyFromDict] assigns them. *)
Record node : Type := {
  node_id : string;
  parentId : option string;
  node_score : jsnum;
  bodySnippet : string;
  fullNumbering : string;
  children : list string;
  count : nat
}.

(** The own properties of an object whose values are node objects, in
    creation order. *)
Definition dict : Type := list (string * node).

(** Writing the own property [k]: a new property comes last, an existing
    one keeps its place. *)
Fixpoint dict_set (d : dict) (k : string) (v : node) : dict :=
  match d with
  | [] => [(k, v)]
  | (k', v') :: d' =>
      if k' =? k then (k, v) :: d' else (k', v') :: dict_set d' k v
  end.

Fixpoint dict_own (d : dict) (k : string) : option node :=
  match d with
  | [] => None
  | (k', v) :: d' => if k' =? k then Some v else dict_own d' k
  end.

(** The object [dict] of [buildNodeDictionary]: its own properties, and
    its prototype: [None] while that is [Object.prototype], [Some n] once
    an assignment to the name [__proto__] has made the node object [n]
    the prototype. *)
Record object : Type := {
  own : dict;
  proto : option node
}.

(** [dict[k] = v], [v] being an object.  The name [__proto__] reaches
    the setter that [Object.prototype] holds under that name: the
    prototype is replaced and no property is created.  Any other name
    writes an own property. *)
Definition dict_assign (o : object) (k : string) (v : node) : object :=
  if k =? "__proto__" then {| own := own o; proto := Some v |}
  else {| own := dict_set (own o) k v; proto := proto o |}.

(** What [dict[k]] reads: a node object that is an own property
    ([Own]); another truthy value, found along the prototype chain,
    which has no [children] ([Inherited]); or a falsy value
    ([Undefined]). *)
Inductive property : Type :=
| Own (n : node)
| Inherited
| Undefined.

(** Whether the prototype chain gives a truthy value for [k].  A node
    object that replaced the prototype comes first, with the five
    members of its object literal (it is in no [Object.values], so it
    never gets [children] or [count]); then [Object.prototype], whose
    members are functions, and whose [__proto__] reads the prototype of
    [dict] itself. *)
Definition inherited (pr : option node) (k : string) : bool :=
  match pr with
  | Some n =>
      if k =? "id" then negb (node_id n =? "")
      else if k =? "parentId" then
        match parentId n with
        | Some p => negb (p =? "")
        | None => false
        end
      else if k =? "score" then
        match node_score n with
        | Num z => negb (z =? 0)%Z
        | NaN => false
        end
      else if k =? "bodySnippet" then negb (bodySnippet n =? "")
      else if k =? "fullNumbering" then negb (fullNumbering n =? "")
      else mem_string k Object_prototype_keys
  | None => mem_string k Object_prototype_keys
  end.

Definition dict_get (d : object) (k : string) : property :=
  match dict_own (own d) k with
  | Some n => Own n
  | None => if inherited (proto d) k then Inherited else Undefined
  end.

(** The object literal of [buildNodeDictionary]. *)
Definition make_node (r : row) : node :=
  let fullNum := numbering r in
  let parts := split "." fullNum in
  {| node_id := fullNum;
     parentId := if (1 <? List.length parts)%nat
                 then Some (join "." (slice_init parts)) else None;
     node_score := score r;
     bodySnippet := createSnippet (body r);
     fullNumbering := fullNum;
     children := [];
     count := 0 |}.

Definition buildNodeDictionary (data : list row) : object :=
  fold_left (fun d r => dict_assign d (numbering r) (make_node r)) data
            {| own := []; proto := None |}.

Definition String_of_N (n : N) : string :=
  NilEmpty.string_of_uint (N.to_uint n).

(** An array index: the canonical decimal string of an integer below
    [2^32 - 1]. *)
Definition array_index (k : string) : option N :=
  match parse_digits 10 k None with
  | Some n => if (String_of_N n =? k) && (n <? 4294967295)%N
              then Some n else None
  | None => None
  end.

Definition index_order (x y : N * node) : jsnum :=
  Num (Z.of_N (fst x) - Z.of_N (fst y)).

(** [Object.values] of an object with the own properties [d]: the
    array-index keys in ascending order, then the other keys in creation
    order. *)
Definition Object_values (d : dict) : list node :=
  let indexed :=
    flat_map (fun kv => match array_index (fst kv) with
                        | Some i => [(i, snd kv)]
                        | None => []
                        end) d in
  let named :=
    filter (fun kv => match array_index (fst kv) with
                      | Some _ => false
                      | None => true
                      end) d in
  map snd (Array_sort index_order indexed) ++ map snd named.

(** The objects [buildHierarchyFromDict] mutates: the children of [root]
    and the nodes that are own properties of [dict]. *)
Record store : Type := {
  root_children : list string;
  nodes : dict
}.

Definition set_children_count (n : node) (ch : list string) (c : nat) : node :=
  {| node_id := node_id n; parentId := parentId n; node_score := node_score n;
     bodySnippet := bodySnippet n; fullNumbering := fullNumbering n;
     children := ch; count := c |}.

(** The first [forEach]: [node.children = []; node.count = 1]. *)
Definition init_nodes (d : dict) : dict :=
  map (fun kv => (fst kv, set_children_count (snd kv) [] 1)) d.

(** [dict[p].children.push(node)], [node] being the object under key [c]. *)
Definition push_child (d : dict) (p c : string) : dict :=
  map (fun kv => if fst kv =? p
                 then (fst kv,
                       set_children_count (snd kv) (children (snd kv) ++ [c])
                                          (count (snd kv)))
                 else kv) d.

(** One turn of the second [forEach], [pr] being the prototype of
    [dict].  A parent id that names no own property but a truthy member
    of the prototype chain reads a value with no [children], and [push]
    on it throws. *)
Definition link_step (pr : option node) (st : outcome store) (n : node)
  : outcome store :=
  match st with
  | Returns s =>
      match parentId n with
      | None =>
          Returns {| root_children := root_children s ++ [node_id n];
                     nodes := nodes s |}
      | Some p =>
          if p =? "" then
            Returns {| root_children := root_children s ++ [node_id n];
                       nodes := nodes s |}
          else
            match dict_get {| own := nodes s; proto := pr |} p with
            | Own _ => Returns {| root_children := root_children s;
                                  nodes := push_child (nodes s) p (node_id n) |}
            | Inherited => Throws "TypeError"
            | Undefined => Returns s
            end
      end
  | Throws e => Throws e
  | OutOfFuel => OutOfFuel
  end.

(** What a Hierarchy Node carries besides its children and count. *)
Inductive label : Type :=
| PostRoot (name : string)
| CommentNode (id : string) (parent : option string) (score : jsnum)
              (snippet : string) (fullNum : string).

(** The object graph under a node, read as a tree. *)
Inductive htree : Type :=
| HNode (l : label) (kids : list htree) (cnt : nat).

Definition tree_label (t : htree) : label :=
  match t with HNode l _ _ => l end.
Definition tree_children (t : htree) : list htree :=
  match t with HNode _ kids _ => kids end.
Definition tree_count (t : htree) : nat :=
  match t with HNode _ _ c => c end.

Fixpoint map_option {A B : Type} (f : A -> option B) (l : list A)
  : option (list B) :=
  match l with
  | [] => Some []
  | x :: l' =>
      match f x, map_option f l' with
      | Some y, Some ys => Some (y :: ys)
      | _, _ => None
      end
  end.

(** The graph reachable from the node under key [k], followed through
    the [children] references for at most [fuel] levels. *)
Fixpoint graph_of (fuel : nat) (d : dict) (k : string) : option htree :=
  match fuel with
  | O => None
  | S fuel' =>
      match dict_own d k with
      | None => None
      | Some n =>
          match map_option (graph_of fuel' d) (children n) with
          | Some kids =>
              Some (HNode (CommentNode (node_id n) (parentId n) (node_score n)
                                       (bodySnippet n) (fullNumbering n))
                          kids (count n))
          | None => None
          end
      end
  end.

(** [computeCounts(node)]: the node with every count of its graph
    assigned; the value the call returns is the new [count] of the node.
    The function reads [children] only and writes [count] only, so it is
    run on the graph as [graph_of] reads it. *)
Fixpoint computeCounts (t : htree) : htree :=
  match t with
  | HNode l kids _ =>
      match kids with
      | [] => HNode l [] 1
      | _ :: _ =>
          let kids' := map computeCounts kids in
          HNode l kids' (list_sum (map tree_count kids'))
      end
  end.

(** Levels of references below [root]: a child's key is longer than its
    parent's. *)
Definition graph_depth_bound (d : dict) : nat :=
  S (S (list_max (map (fun kv => String.length (fst kv)) d))).

Definition buildHierarchyFromDict (d : object) : outcome htree :=
  let d1 := init_nodes (own d) in
  match fold_left (link_step (proto d)) (Object_values d1)
                  (Returns {| root_children := []; nodes := d1 |}) with
  | Returns s =>
      match map_option (graph_of (graph_depth_bound (own d)) (nodes s))
                       (root_children s) with
      | Some kids => Returns (computeCounts (HNode (PostRoot "Post") kids 0))
      | None => OutOfFuel
      end
  | Throws e => Throws e
  | OutOfFuel => OutOfFuel
  end.

(** The first two steps of [initVisualization]. *)
Definition rebuild (data : list row) : outcome htree :=
  buildHierarchyFromDict (buildNodeDictionary data).

(** ** The Date Formatter *)

(** A [Date] object: its time value in milliseconds, [None] for an
    invalid date. *)
Definition Date : Type := option Z.

(** [new Date(ms)]: [TimeClip] keeps the times within 8.64e15 ms of the
    epoch. *)
Definition new_Date (ms : Z) : Date :=
  if (Z.abs ms <=? 8640000000000000)%Z then Some ms else None.

Definition msPerDay : Z := 86400000.

(** Year, month (1..12) and day of the month of a day number counted
    from 1970-01-01, in the proleptic Gregorian calendar. *)
Definition civil_from_days (days : Z) : Z * Z * Z :=
  (let z := days + 719468 in
   let era := z / 146097 in
   let doe := z - era * 146097 in
   let yoe := (doe - doe / 1460 + doe / 36524 - doe / 146096) / 365 in
   let doy := doe - (365 * yoe + yoe / 4 - yoe / 100) in
   let mp := (5 * doy + 2) / 153 in
   let d := doy - (153 * mp + 2) / 5 + 1 in
   let m := if mp <? 10 then mp + 3 else mp - 9 in
   let y := yoe + era * 400 in
   (if m <=? 2 then y + 1 else y, m, d))%Z.

Definition YearFromTime (t : Z) : Z :=
  fst (fst (civil_from_days (t / msPerDay))).
(** 0 is January. *)
Definition MonthFromTime (t : Z) : Z :=
  (snd (fst (civil_from_days (t / msPerDay))) - 1)%Z.
Definition DateFromTime (t : Z) : Z :=
  snd (civil_from_days (t / msPerDay)).
(** 0 is Sunday. *)
Definition WeekDay (t : Z) : Z := ((t / msPerDay + 4) mod 7)%Z.
Definition HourFromTime (t : Z) : Z := ((t / 3600000) mod 24)%Z.
Definition MinFromTime (t : Z) : Z := ((t / 60000) mod 60)%Z.
Definition SecFromTime (t : Z) : Z := ((t / 1000) mod 60)%Z.
Definition msFromTime (t : Z) : Z := (t mod 1000)%Z.

(** A UTC getter of [Date]: [NaN] on an invalid date. *)
Definition getUTC (field : Z -> Z) (d : Date) : jsnum :=
  match d with
  | Some t => Num (field t)
  | None => NaN
  end.

Definition getUTCFullYear : Date -> jsnum := getUTC YearFromTime.
Definition getUTCMonth : Date -> jsnum := getUTC MonthFromTime.
Definition getUTCDate : Date -> jsnum := getUTC DateFromTime.
Definition getUTCHours : Date -> jsnum := getUTC HourFromTime.
Definition getUTCMinutes : Date -> jsnum := getUTC MinFromTime.
Definition getUTCSeconds : Date -> jsnum := getUTC SecFromTime.

(** [x + y] on numbers. *)
Definition js_add (x y : jsnum) : jsnum :=
  match x, y with
  | Num a, Num b => Num (a + b)
  | _, _ => NaN
  end.

Definition formatUTCAsISO8601 (dateObj : Date) : string :=
  let year := getUTCFullYear dateObj in
  let month := padStart 2 "0" (String_of_jsnum (js_add (getUTCMonth dateObj) (Num 1))) in
  let day := padStart 2 "0" (String_of_jsnum (getUTCDate dateObj)) in
  let hours := padStart 2 "0" (String_of_jsnum (getUTCHours dateObj)) in
  let mins := padStart 2 "0" (String_of_jsnum (getUTCMinutes dateObj)) in
  let secs := padStart 2 "0" (String_of_jsnum (getUTCSeconds dateObj)) in
  (String_of_jsnum year ++ "-" ++ month ++ "-" ++ day ++ "T" ++ hours ++ ":"
   ++ mins ++ ":" ++ secs ++ "+00:00")%string.

Definition formatUTCAsSimple (dateObj : Date) : string :=
  let year := getUTCFullYear dateObj in
  let month := padStart 2 "0" (String_of_jsnum (js_add (getUTCMonth dateObj) (Num 1))) in
  let day := padStart 2 "0" (String_of_jsnum (getUTCDate dateObj)) in
  let hours := padStart 2 "0" (String_of_jsnum (getUTCHours dateObj)) in
  let mins := padStart 2 "0" (String_of_jsnum (getUTCMinutes dateObj)) in
  let secs := padStart 2 "0" (String_of_jsnum (getUTCSeconds dateObj)) in
  (String_of_jsnum year ++ "-" ++ month ++ "-" ++ day ++ "T" ++ hours ++ ":"
   ++ mins ++ ":" ++ secs ++ "Z")%string.

Definition day_name (w : Z) : string :=
  nth (Z.to_nat w) ["Sun"; "Mon"; "Tue"; "Wed"; "Thu"; "Fri"; "Sat"] "".

Definition month_name (m : Z) : string :=
  nth (Z.to_nat m)
      ["Jan"; "Feb"; "Mar"; "Apr"; "May"; "Jun"; "Jul"; "Aug"; "Sep"; "Oct";
       "Nov"; "Dec"] "".

Definition pad_Z (width : nat) (z : Z) : string :=
  padStart width "0" (String_of_Z z).

(** [d.toUTCString()]. *)
Definition toUTCString (d : Date) : string :=
  match d with
  | None => "Invalid Date"
  | Some t =>
      let y := YearFromTime t in
      (day_name (WeekDay t) ++ ", " ++ pad_Z 2 (DateFromTime t) ++ " "
       ++ month_name (MonthFromTime t) ++ " "
       ++ (if (y <? 0)%Z then "-" else "") ++ pad_Z 4 (Z.abs y) ++ " "
       ++ pad_Z 2 (HourFromTime t) ++ ":" ++ pad_Z 2 (MinFromTime t) ++ ":"
       ++ pad_Z 2 (SecFromTime t) ++ " GMT")%string
  end.

(** [d.toISOString()]: throws on an invalid date. *)
Definition toISOString (d : Date) : outcome string :=
  match d with
  | None => Throws "RangeError"
  | Some t =>
      let y := YearFromTime t in
      let year := if ((0 <=? y) && (y <=? 9999))%Z then pad_Z 4 y
                  else ((if (y <? 0)%Z then "-" else "+") ++ pad_Z 6 (Z.abs y))%string in
      Returns (year ++ "-" ++ pad_Z 2 (MonthFromTime t + 1) ++ "-"
               ++ pad_Z 2 (DateFromTime t) ++ "T" ++ pad_Z 2 (HourFromTime t)
               ++ ":" ++ pad_Z 2 (MinFromTime t) ++ ":"
               ++ pad_Z 2 (SecFromTime t) ++ "." ++ pad_Z 3 (msFromTime t)
               ++ "Z")%string
  end.

(** [formatDate(utcSeconds)] under the global [selectedDateFormat];
    [utcSeconds] is a number or [null].  [null] and [0] are falsy. *)
Definition formatDate (selectedDateFormat : string) (utcSeconds : option Z)
  : outcome string :=
  match num_or_null utcSeconds with
  | None => Returns ""
  | Some secs =>
      let d := new_Date (secs * 1000) in
      if selectedDateFormat =? "iso8601" then Returns (formatUTCAsISO8601 d)
      else if selectedDateFormat =? "rfc1123" then Returns (toUTCString d)
      else if selectedDateFormat =? "utc" then Returns (formatUTCAsSimple d)
      else toISOString d
  end.

(** ** Vocabulary of the specification *)

(** *** The Flattener *)

(** A comment tree without stubs: a comment and its replies. *)
Inductive ctree : Type :=
| CNode (c : comment) (kids : list ctree).

(** The listing with every stub dropped; absent replies are no replies. *)
Fixpoint prune_child (ch : child) : list ctree :=
  match ch with
  | More => []
  | T1 c replies =>
      [CNode c match replies with
               | Some children => flat_map prune_child children
               | None => []
               end]
  end.

Definition prune (comments : list child) : list ctree :=
  flat_map prune_child comments.

(** Pre-order numbering as the specification words it: the record of a
    node, numbered with its parent's prefix and its 1-based position
    [k] among its siblings, then the records of its replies, numbered
    from 1 under the node's own numbering. *)
Fixpoint preorder_tree (prefix : list nat) (k : nat) (t : ctree) : list row :=
  match t with
  | CNode c kids =>
      make_row (prefix ++ [k]) c ::
      (fix siblings (i : nat) (l : list ctree) : list row :=
         match l with
         | [] => []
         | t' :: l' => preorder_tree (prefix ++ [k]) i t' ++ siblings (S i) l'
         end) 1 kids
  end.

(** The siblings [l], the first at position [k]: each subtree in full
    before the next sibling. *)
Fixpoint preorder (prefix : list nat) (k : nat) (l : list ctree) : list row :=
  match l with
  | [] => []
  | t :: l' => preorder_tree prefix k t ++ preorder prefix (S k) l'
  end.

(** The number of nodes of a listing that are not stubs. *)
Fixpoint real_comments (ch : child) : nat :=
  match ch with
  | More => 0
  | T1 _ replies =>
      S match replies with
        | Some children => list_sum (map real_comments children)
        | None => 0
        end
  end.

(** The number of segments of a numbering string. *)
Definition segments (s : string) : nat := List.length (split "." s).

(** A numbering as the data model has it: positive integers, at least
    one, joined by dots. *)
Definition numbering_of (arr : list nat) : string :=
  join "." (map String_of_nat arr).

Definition well_formed_numbering (s : string) : Prop :=
  exists arr, arr <> [] /\ Forall (fun n => 0 < n) arr /\ s = numbering_of arr.

(** A string without the separator. *)
Definition no_sep (sep : ascii) (s : string) : Prop :=
  forall c, In c (list_ascii_of_string s) -> c <> sep.

(** The positions of the nodes of a forest in pre-order, each with its
    comment: a position is the list of 1-based sibling ranks from the top
    down, the first sibling of [l] having rank [k]. *)
Fixpoint paths_tree (k : nat) (t : ctree) : list (list nat * comment) :=
  match t with
  | CNode c kids =>
      ([k], c) ::
      map (fun pc => (k :: fst pc, snd pc))
          ((fix siblings (i : nat) (l : list ctree) : list (list nat * comment) :=
              match l with
              | [] => []
              | t' :: l' => paths_tree i t' ++ siblings (S i) l'
              end) 1 kids)
  end.

Fixpoint paths (k : nat) (l : list ctree) : list (list nat * comment) :=
  match l with
  | [] => []
  | t :: l' => paths_tree k t ++ paths (S k) l'
  end.

(** *** The Hierarchical Comparator *)


(** A comment with every field present, for the examples. *)
Definition sample_comment (text : string) (ups : Z) : comment :=
  {| c_body := Present text; c_author := Present "user"; c_ups := Present ups;
     c_downs := Present 0%Z; c_score := Present ups;
     c_created_utc := Present 1741703950%Z |}.

(** *** The Sorter *)

(** [x] occurs before an occurrence of [y] in [l]. *)
Definition before {A : Type} (x y : A) (l : list A) : Prop :=
  exists l1 l2 l3, l = l1 ++ x :: l2 ++ y :: l3.

(** The order a comparator induces: [a] may stay before [b]. *)
Definition cmp_le {A : Type} (cmp : A -> A -> jsnum) (a b : A) : Prop :=
  keeps_before (cmp a b) = true.

(** The comparator ties [a] and [b]: each may stay before the other. *)
Definition cmp_tie {A : Type} (cmp : A -> A -> jsnum) (a b : A) : bool :=
  keeps_before (cmp a b) && keeps_before (cmp b a).

(** Under the rule of [column] read ascending, [x] is strictly smaller
    than [y]: the two compare unequal, [x] first. *)
Definition compares_less (column : string) (x y : row) : Prop :=
  match comparator column true x y with
  | Num z => (z < 0)%Z
  | NaN => False
  end.

Definition three_way (c : comparison) : Z :=
  match c with
  | Lt => (-1)%Z
  | Eq => 0%Z
  | Gt => 1%Z
  end.

(** The ascending comparison of [column] as an integer, a score that is
    not a number read as 0. *)
Definition column_order (column : string) (a b : row) : Z :=
  if column =? "numbering" then
    compareNumbering (numbering a) (numbering b)
  else if column =? "dateUtc" then
    (num_or_zero (dateUtc a) - num_or_zero (dateUtc b))%Z
  else if mem_string column ["upvotes"; "downvotes"; "level"; "score"] then
    (match num_prop column a with Num z => z | NaN => 0 end
     - match num_prop column b with Num z => z | NaN => 0 end)%Z
  else if column =? "body" then
    three_way (String.compare (toLowerCase (body a)) (toLowerCase (body b)))
  else
    three_way (String.compare (toLowerCase (String_of_prop column a))
                              (toLowerCase (String_of_prop column b))).

(** A record the numeric rule of [column] can order: its score is a
    number when the column is [score]. *)
Definition orderable (column : string) (r : row) : Prop :=
  column = "score" -> score r <> NaN.

(** *** The snippet *)

(** The display snippet as the specification words it: the body cut to
    80 characters and an ellipsis when it is longer, the body itself
    otherwise. *)
Definition snippet_as_specified (text : string) : string :=
  if text =? "[deleted]" then "[deleted]"
  else if (80 <? String.length text)%nat then (slice0 80 text ++ "...")%string
  else text.

(** *** The hierarchy *)

Definition label_id (l : label) : option string :=
  match l with
  | PostRoot _ => None
  | CommentNode id _ _ _ _ => Some id
  end.

Definition tree_id (t : htree) : option string := label_id (tree_label t).

(** The ids of the comment nodes of a tree, a node before its children. *)
Fixpoint comment_ids (t : htree) : list string :=
  match t with
  | HNode l kids _ =>
      match label_id l with
      | Some k => [k]
      | None => []
      end ++ flat_map comment_ids kids
  end.

(** Every node of a tree, as the tree under it. *)
Fixpoint subtrees (t : htree) : list htree :=
  match t with
  | HNode _ kids _ => t :: flat_map subtrees kids
  end.

(** The number of nodes of a tree, the node itself included. *)
Fixpoint tree_size (t : htree) : nat :=
  match t with
  | HNode _ kids _ => S (list_sum (map tree_size kids))
  end.

(** The number of nodes of a tree that have no children. *)
Fixpoint tree_leaves (t : htree) : nat :=
  match t with
  | HNode _ kids _ =>
      match kids with
      | [] => 1
      | _ :: _ => list_sum (map tree_leaves kids)
      end
  end.

(** The parent id [buildNodeDictionary] derives from a numbering: the
    numbering without its last segment, when it has more than one. *)
Definition parent_of (fullNum : string) : option string :=
  if (1 <? segments fullNum)%nat
  then Some (join "." (slice_init (split "." fullNum))) else None.

(** The test [!node.parentId]. *)
Definition is_top (n : node) : bool :=
  match parentId n with
  | None => true
  | Some p => p =? ""
  end.

(** The keys of the nodes of [l] that the second [forEach] pushes under
    the node of key [k]. *)
Definition child_keys (l : list node) (k : string) : list string :=
  map node_id
      (filter (fun m => match parentId m with
                        | Some p => negb (p =? "") && (p =? k)
                        | None => false
                        end) l).

(** The store once the second [forEach] has gone through [l]. *)
Definition linked (d : dict) (l : list node) : store :=
  {| root_children := map node_id (filter is_top l);
     nodes := map (fun kv => (fst kv,
                              set_children_count (snd kv)
                                (child_keys l (fst kv)) (count (snd kv)))) d |}.

(** [c] is pushed under the node of key [k]: its parent id is [k], and
    is truthy. *)
Definition is_child_of (k c : string) : bool :=
  match parent_of c with
  | Some p => negb (p =? "") && (p =? k)
  | None => false
  end.

(** The keys of [order] pushed under the node of key [k]. *)
Definition kids_of (order : list string) (k : string) : list string :=
  filter (is_child_of k) order.

(** *** The calendar of ECMAScript *)

(** [DayFromYear(y)]: the day number of the first day of year [y]. *)
Definition DayFromYear (y : Z) : Z :=
  (365 * (y - 1970) + (y - 1969) / 4 - (y - 1901) / 100 + (y - 1601) / 400)%Z.

(** [DaysInYear(y)]. *)
Definition DaysInYear (y : Z) : Z :=
  if ((y mod 4 =? 0) && (negb (y mod 100 =? 0) || (y mod 400 =? 0)))%Z
  then 366%Z else 365%Z.

(** The days of the months of a year of [n] days. *)
Definition month_lengths (n : Z) : list Z :=
  [31; if (n =? 366)%Z then 29 else 28; 31; 30; 31; 30; 31; 31; 30; 31; 30; 31]%Z.

(** Month (from 1) and day of the month of day [d] of a year, counted
    from 0, by running through the months. *)
Fixpoint month_and_day (months : list Z) (m d : Z) : Z * Z :=
  match months with
  | [] => (m, d + 1)%Z
  | len :: rest => if (d <? len)%Z then (m, d + 1)%Z
                   else month_and_day rest (m + 1)%Z (d - len)%Z
  end.

(** The day number [day] falls in year [y] and [civil_from_days] finds
    that year, with the month and day the tables give. *)
Definition civil_agrees (y day : Z) : bool :=
  ((DayFromYear y <=? day) && (day <? DayFromYear (y + 1))
   && (DayFromYear (y + 1) - DayFromYear y =? DaysInYear y))%Z
  && let '(m, d) := month_and_day (month_lengths (DaysInYear y)) 1
                                  (day - DayFromYear y) in
     match civil_from_days day with
     | (y', m', d') => ((y' =? y) && (m' =? m) && (d' =? d))%Z
     end.

(** The array a numbering of positive integers reads as. *)
Definition nums (p : list nat) : list jsnum :=
  map (fun n => Num (Z.of_nat n)) p.

(* ================================================================== *)
(** * Part I (continued). Around the core: exports and tree view       *)
(* ================================================================== *)

(** ** Patterns of [replace] and [split] *)

(** The double quote, the carriage return and the line feed. *)
Definition dquote : ascii := "034"%char.
Definition CR : ascii := "013"%char.
Definition LF : ascii := "010"%char.

(** A pattern of the script: alternatives tried from the left, each a
    sequence of code units, one of which may be optional ([\r?]). *)
Definition pattern : Type := list (list (bool * ascii)).

(** The number of code units the sequence [p] matches at the head of
    [s]; an optional item is taken when the rest then matches. *)
Fixpoint match_seq (p : list (bool * ascii)) (s : string) : option nat :=
  match p with
  | [] => Some 0
  | (optional, c) :: p' =>
      let taken := match s with
                   | String a s' =>
                       if Ascii.eqb a c then option_map S (match_seq p' s')
                       else None
                   | EmptyString => None
                   end in
      match taken with
      | Some n => Some n
      | None => if optional then match_seq p' s else None
      end
  end.

(** The first alternative that matches at the head of [s]. *)
Fixpoint match_pattern (alts : pattern) (s : string) : option nat :=
  match alts with
  | [] => None
  | p :: rest =>
      match match_seq p s with
      | Some n => Some n
      | None => match_pattern rest s
      end
  end.

(** The scan of [s.replace(/alts/g, by)]: [skip] code units of the last
    match are still to be passed over.  The patterns of the script match
    at least one code unit. *)
Fixpoint replace_scan (alts : pattern) (by_ : string) (skip : nat) (s : string)
  : string :=
  match s with
  | EmptyString => EmptyString
  | String c s' =>
      match skip with
      | S k => replace_scan alts by_ k s'
      | O =>
          match match_pattern alts s with
          | Some (S k) => (by_ ++ replace_scan alts by_ k s')%string
          | _ => String c (replace_scan alts by_ 0 s')
          end
      end
  end.

(** [s.replace(/alts/g, by)]. *)
Definition String_replace (alts : pattern) (by_ : string) (s : string) : string :=
  replace_scan alts by_ 0 s.

(** The scan of [s.split(/alts/)]. *)
Fixpoint split_scan (alts : pattern) (skip : nat) (s : string) : list string :=
  match s with
  | EmptyString => [EmptyString]
  | String c s' =>
      match skip with
      | S k => split_scan alts k s'
      | O =>
          match match_pattern alts s with
          | Some (S k) => EmptyString :: split_scan alts k s'
          | _ => match split_scan alts 0 s' with
                 | h :: t => String c h :: t
                 | [] => [String c EmptyString]
                 end
          end
      end
  end.

(** [s.split(/alts/)]. *)
Definition String_split (alts : pattern) (s : string) : list string :=
  split_scan alts 0 s.

(** [/c/]. *)
Definition chr (c : ascii) : pattern := [[(false, c)]].

(** [/\r?\n|\n\r|\n|\r/]. *)
Definition line_break : pattern :=
  [[(true, CR); (false, LF)]; [(false, LF); (false, CR)]; [(false, LF)];
   [(false, CR)]].

(** [/\r?\n|\r/]. *)
Definition line_break_short : pattern :=
  [[(true, CR); (false, LF)]; [(false, CR)]].

(** ** HTML escaping *)

(** [escapeHtml(str)] on a string; the script calls it on strings only
    (anything else gives the empty string). *)
Definition escapeHtml (str : string) : string :=
  String_replace (chr dquote) "&quot;"
    (String_replace (chr ">") "&gt;"
       (String_replace (chr "<") "&lt;"
          (String_replace (chr "&") "&amp;" str))).

(** [formatBodyForHtml(str)] under the global [removeNewlines], in its
    later form; the earlier form has no test of [!str], which no record
    meets: the body of a record is never empty. *)
Definition formatBodyForHtml (removeNewlines : bool) (str : string) : string :=
  if str =? "" then "[deleted]"
  else if removeNewlines then escapeHtml (String_replace line_break " " str)
  else join "<br>" (map escapeHtml (String_split line_break str)).

(** ** The post *)

(** [response[0].data.children[0].data]: each member is absent, [null],
    or of the type the listing gives it. *)
Record post : Type := {
  p_title : member string;
  p_selftext : member string;
  p_author : member string;
  p_permalink : member string;
  p_ups : member Z;
  p_downs : member Z;
  p_score : member Z;
  p_created_utc : member Z
}.

(** The object [extractPostInfo] returns. *)
Record post_info : Type := {
  post_title : string;
  post_selftext : string;
  post_author : string;
  post_permalink : string;
  post_ups : Z;
  post_downs : Z;
  post_score : jsnum;
  post_dateUtc : option Z
}.

Definition extractPostInfo (p : post) : post_info :=
  {| post_title := str_or (value_of (p_title p)) "";
     post_selftext := str_or (value_of (p_selftext p)) "";
     post_author := str_or (value_of (p_author p)) "[deleted]";
     post_permalink := str_or (value_of (p_permalink p)) "";
     post_ups := num_or_zero (value_of (p_ups p));
     post_downs := num_or_zero (value_of (p_downs p));
     post_score := match value_of (p_score p) with
                   | Some s => Num s
                   | None => js_sub (ToNumber (p_ups p)) (ToNumber (p_downs p))
                   end;
     post_dateUtc := num_or_null (value_of (p_created_utc p)) |}.

(** ** The CSV export *)

(** The doubled quote of a CSV cell. *)
Definition dquote2 : string := String dquote (String dquote EmptyString).

(** One cell of [convertToCsvRow], [cell] being [String(cell)]. *)
Definition csv_cell (cell : string) : string :=
  String dquote
    (String_replace (chr dquote) dquote2 cell
     ++ String dquote EmptyString)%string.

(** [convertToCsvRow(arr)], [arr] holding [String(cell)] for each cell. *)
Definition convertToCsvRow (arr : list string) : string :=
  join "," (map csv_cell arr).

(** The two arrows of the compact cell, as the bytes of their UTF-8
    form. *)
Definition arrows : string := "↑↓".

(** What a call does after [f] returned. *)
Definition and_then {A B : Type} (x : outcome A) (f : A -> outcome B)
  : outcome B :=
  match x with
  | Returns a => f a
  | Throws e => Throws e
  | OutOfFuel => OutOfFuel
  end.

(** The text one turn of the compact [forEach] of [downloadCSV] appends
    to [csvContent]. *)
Definition csv_compact_line (selectedDateFormat : string) (removeNewlines : bool)
  (r : row) : outcome string :=
  and_then (formatDate selectedDateFormat (dateUtc r)) (fun dateString =>
    let bodyText := if removeNewlines
                    then String_replace line_break " " (body r)
                    else body r in
    let combined :=
      String_replace line_break_short " "
        (bodyText ++ " (by " ++ author r ++ ", " ++ dateString ++ ", "
         ++ arrows ++ " " ++ String_of_jsnum (score r) ++ ")")%string in
    Returns (convertToCsvRow [numbering r; combined] ++ String LF "")%string).

(** The text one turn of the seven-column [forEach] appends. *)
Definition csv_full_line (selectedDateFormat : string) (removeNewlines : bool)
  (r : row) : outcome string :=
  and_then (formatDate selectedDateFormat (dateUtc r)) (fun d =>
    let dateString := String_replace line_break_short " " d in
    let bodyText := if removeNewlines
                    then String_replace line_break " " (body r)
                    else body r in
    let rowArr := [numbering r; String_of_nat (level r); bodyText; author r;
                   dateString; String_of_Z (upvotes r);
                   String_of_Z (downvotes r)] in
    Returns (convertToCsvRow rowArr ++ String LF "")%string).

(** [csvContent] after the [forEach] over [data], from [header]. *)
Definition csv_content (line : row -> outcome string) (header : string)
  (data : list row) : outcome string :=
  fold_left (fun content r =>
               and_then content (fun sofar =>
               and_then (line r) (fun l => Returns (sofar ++ l)%string)))
            data (Returns header).

(** What [downloadCSV] does: an alert, or the download of a file. *)
Inductive download : Type :=
| Alert (message : string)
| File (name : string) (content : string).

(** *** The compact cell of the table *)

(** The second cell of a row of the compact table, [bodyHtml] in
    [renderTable]. *)
Definition compact_cell (selectedDateFormat : string) (removeNewlines : bool)
  (r : row) : outcome string :=
  and_then (formatDate selectedDateFormat (dateUtc r)) (fun dateString =>
    let meta := ("(by " ++ escapeHtml (author r) ++ ", " ++ dateString ++ ", "
                 ++ arrows ++ " " ++ String_of_jsnum (score r) ++ ")")%string in
    Returns (formatBodyForHtml removeNewlines (body r) ++ " "
             ++ escapeHtml meta)%string).

(** ** The export session *)

(** The process-wide variables of the script. *)
Record session : Type := {
  table : state;
  selectedDateFormat : string;
  isCompactMode : bool;
  removeNewlines : bool;
  postInfo : option post_info
}.

Definition downloadCSV (s : session) : outcome download :=
  if negb (tableBuilt (table s)) || (List.length (tableData (table s)) =? 0)%nat
  then Returns (Alert "No table data to download. Please export first.")
  else
    and_then
      (if isCompactMode s
       then csv_content (csv_compact_line (selectedDateFormat s) (removeNewlines s))
              ("Number,Body (Compact)" ++ String LF "")%string
              (tableData (table s))
       else csv_content (csv_full_line (selectedDateFormat s) (removeNewlines s))
              ("Number,Level,Body,Author,Date(UTC),Upvotes,Downvotes"
               ++ String LF "")%string
              (tableData (table s)))
      (fun csvContent => Returns (File "reddit_comments.csv" csvContent)).

(** [startExport()]: [field] is the value of the URL field, the next
    three arguments the controls read for the preferences.  The result
    is the session and the address [fetchData] requests, if any. *)
Definition startExport (field : string) (format : string)
  (compactMode escapeNewLine : bool) (s : session) : session * option string :=
  let url := trim field in
  if url =? "" then (s, None)
  else
    ({| table := {| tableData := []; tableBuilt := false;
                    sortAsc := sortAsc (table s) |};
        selectedDateFormat := format;
        isCompactMode := compactMode;
        removeNewlines := escapeNewLine;
        postInfo := None |},
     Some (url ++ ".json")%string).

(** What [http.response] holds when [onload] runs: nothing usable
    ([null], or an object with [error]), or the two listings. *)
Inductive response : Type :=
| Failed
| Listings (p : post) (comments : list child).

(** [renderPostInfo(post)]: the markup is not modelled, the call of
    [formatDate] is. *)
Definition renderPostInfo (format : string) (info : post_info) : outcome unit :=
  and_then (formatDate format (post_dateUtc info)) (fun _ => Returns tt).

(** [renderTable(data)]: [formatDate] is called for each record while the
    markup is built, then [tableBuilt] is set. *)
Definition renderTable (format : string) (st : state) : state * outcome unit :=
  match fold_left (fun acc r =>
                     and_then acc (fun _ =>
                     and_then (formatDate format (dateUtc r))
                              (fun _ => Returns tt)))
                  (tableData st) (Returns tt) with
  | Returns _ =>
      ({| tableData := tableData st; tableBuilt := true;
          sortAsc := sortAsc st |}, Returns tt)
  | failure => (st, failure)
  end.

(** The [onload] handler of [fetchData]: the session it leaves, and how
    it ended. *)
Definition onload (resp : response) (s : session) : session * outcome unit :=
  match resp with
  | Failed => (s, Returns tt)
  | Listings p comments =>
      let info := extractPostInfo p in
      let st := {| tableData := buildTableData comments [] (tableData (table s));
                   tableBuilt := tableBuilt (table s);
                   sortAsc := sortAsc (table s) |} in
      let with_table (t : state) :=
        {| table := t; selectedDateFormat := selectedDateFormat s;
           isCompactMode := isCompactMode s;
           removeNewlines := removeNewlines s; postInfo := Some info |} in
      match renderPostInfo (selectedDateFormat s) info with
      | Returns _ =>
          let (st', how) := renderTable (selectedDateFormat s) st in
          (with_table st', how)
      | failure => (with_table st, failure)
      end
  end.

(** A click on a column header. *)
Definition sort_click (column : string) (s : session) : session :=
  {| table := sortTable column (table s); selectedDateFormat := selectedDateFormat s;
     isCompactMode := isCompactMode s; removeNewlines := removeNewlines s;
     postInfo := postInfo s |}.

(** ** The collapsible tree *)

(** A node of [d3.hierarchy]: [data] is the node object it wraps,
    [children] the children shown and [_children] the children hidden.
    [None] is a property that is absent or [null]; the script only tests
    the two for truthiness. *)
Inductive vnode : Type :=
| VNode (data : htree) (children : option (list vnode))
        (_children : option (list vnode)).

(** [d3.hierarchy(data, d => d.children)]: a node gets [children] when
    its data has at least one child. *)
Fixpoint d3_hierarchy (data : htree) : vnode :=
  match data with
  | HNode _ kids _ =>
      VNode data
            match map d3_hierarchy kids with
            | [] => None
            | ch => Some ch
            end
            None
  end.

Fixpoint collapseDeep (d : vnode) (depth : nat) : vnode :=
  match d with
  | VNode data (Some ch) hidden =>
      match depth with
      | S _ => VNode data None
                     (Some (map (fun c => collapseDeep c (S depth)) ch))
      | O => VNode data (Some (map (fun c => collapseDeep c (S depth)) ch))
                   hidden
      end
  | VNode _ None _ => d
  end.

(** The root [createCollapsibleTree] first draws. *)
Definition initial_view (data : htree) : vnode :=
  match d3_hierarchy data with
  | VNode dt (Some ch) hidden =>
      VNode dt (Some (map (fun c => collapseDeep c 0) ch)) hidden
  | root => root
  end.

(** The click handler of a node. *)
Definition click (d : vnode) : vnode :=
  match d with
  | VNode data (Some ch) _ => VNode data None (Some ch)
  | VNode data None hidden => VNode data hidden None
  end.

(** [l] with [f] applied to its element at position [i], if any. *)
Fixpoint update_nth {A : Type} (f : A -> A) (i : nat) (l : list A) {struct l}
  : list A :=
  match l, i with
  | [], _ => []
  | x :: l', O => f x :: l'
  | x :: l', S i' => x :: update_nth f i' l'
  end.

(** A click on the node drawn at [path] (the positions to follow among
    the children shown, from the root); there is nothing to click where
    no node is drawn. *)
Fixpoint click_at (path : list nat) (v : vnode) : vnode :=
  match path with
  | [] => click v
  | i :: path' =>
      match v with
      | VNode data (Some ch) hidden =>
          VNode data (Some (update_nth (click_at path') i ch)) hidden
      | VNode _ None _ => v
      end
  end.

(** *** Vocabulary for the tree view *)

(** The tree drawn: the nodes reached through [children]. *)
Fixpoint shown (v : vnode) : htree :=
  match v with
  | VNode data ch _ =>
      HNode (tree_label data)
            match ch with
            | Some l => map shown l
            | None => []
            end
            (tree_count data)
  end.

(** The tree held: the nodes reached through [children] or [_children]. *)
Fixpoint held (v : vnode) : htree :=
  match v with
  | VNode data ch hidden =>
      HNode (tree_label data)
            (match ch with
             | Some l => map held l
             | None => []
             end
             ++ match hidden with
                | Some l => map held l
                | None => []
                end)
            (tree_count data)
  end.

(** [t] cut below depth [n] (the root has depth 0). *)
Fixpoint cut (n : nat) (t : htree) : htree :=
  match t with
  | HNode l kids c =>
      HNode l
            match n with
            | O => []
            | S n' => map (cut n') kids
            end
            c
  end.

(** The nodes a property lists, none when it is not set. *)
Definition listed (l : option (list vnode)) : list vnode :=
  match l with
  | Some ch => ch
  | None => []
  end.

(** No node has both [children] and [_children] set. *)
Fixpoint tidy (v : vnode) : bool :=
  match v with
  | VNode _ ch hidden =>
      match ch, hidden with
      | Some _, Some _ => false
      | _, _ => true
      end
      && match ch with
         | Some l => forallb tidy l
         | None => true
         end
      && match hidden with
         | Some l => forallb tidy l
         | None => true
         end
  end.

(** *** Vocabulary for the exports *)

(** The number of occurrences of [c] in [s]. *)
Fixpoint occurrences (c : ascii) (s : string) : nat :=
  match s with
  | EmptyString => 0
  | String a s' => (if Ascii.eqb a c then 1 else 0) + occurrences c s'
  end.

(** Markup that opens no tag but [<br>]: every [<] starts [<br>] and no
    other [>] occurs. *)
Fixpoint only_br_tags (s : string) : bool :=
  match s with
  | EmptyString => true
  | String c s' =>
      if Ascii.eqb c "<" then
        match s' with
        | String "b" (String "r" (String ">" s'')) => only_br_tags s''
        | _ => false
        end
      else if Ascii.eqb c ">" then false
      else only_br_tags s'
  end.

(** The entity [escapeHtml] writes for a code unit. *)
Definition entity (c : ascii) : string :=
  if Ascii.eqb c "&" then "&amp;"
  else if Ascii.eqb c "<" then "&lt;"
  else if Ascii.eqb c ">" then "&gt;"
  else if Ascii.eqb c dquote then "&quot;"
  else String c EmptyString.

(** The last record of [data] with the numbering [k]. *)
Definition last_with_numbering (k : string) (data : list row) : option row :=
  find (fun r => numbering r =? k) (rev data).

(** A string on one line: no line feed and no carriage return. *)
Definition single_line (s : string) : Prop :=
  occurrences LF s = 0 /\ occurrences CR s = 0.

(** Reading the entities back: what the text was. *)
Fixpoint unescapeHtml (s : string) : string :=
  match s with
  | EmptyString => EmptyString
  | String c s' =>
      if Ascii.eqb c "&" then
        match s' with
        | String "a" (String "m" (String "p" (String ";" r))) =>
            String "&" (unescapeHtml r)
        | String "l" (String "t" (String ";" r)) => String "<" (unescapeHtml r)
        | String "g" (String "t" (String ";" r)) => String ">" (unescapeHtml r)
        | String "q" (String "u" (String "o" (String "t" (String ";" r)))) =>
            String dquote (unescapeHtml r)
        | _ => String c (unescapeHtml s')
        end
      else String c (unescapeHtml s')
  end.

(** A line of the file: one line feed, at its end. *)
Definition one_line (l : string) : Prop :=
  occurrences LF l = 1 /\ occurrences CR l = 0.

(** *** Vocabulary for the dates *)

(** [check] holds of the [count] integers from [start] on. *)
Fixpoint all_from (check : Z -> bool) (start : Z) (count : nat) : bool :=
  match count with
  | O => true
  | S n => check start && all_from check (start + 1) n
  end.

(* ================================================================== *)
(** * Part II. Properties                                              *)
(* ================================================================== *)

(** ** Strings: [split], [join] and decimal numerals *)

Lemma split_nonempty sep s : split sep s <> [].
Proof.
  destruct s as [|c s]; simpl; [discriminate|].
  destruct (Ascii.eqb c sep); [discriminate|].
  destruct (split sep s); discriminate.
Qed.

Lemma split_no_sep sep s : no_sep sep s -> split sep s = [s].
Proof.
  induction s as [|c s IH]; intros H; simpl; [reflexivity|].
  destruct (Ascii.eqb_spec c sep) as [->|Hne].
  - exfalso. apply (H sep); simpl; auto.
  - rewrite IH; [reflexivity|]. intros c' Hc'. apply H. simpl; auto.
Qed.

Lemma split_app_sep sep s t :
  no_sep sep s ->
  split sep (s ++ String sep t)%string = s :: split sep t.
Proof.
  induction s as [|c s IH]; intros H; simpl.
  - rewrite Ascii.eqb_refl. reflexivity.
  - destruct (Ascii.eqb_spec c sep) as [->|Hne].
    + exfalso. apply (H sep); simpl; auto.
    + rewrite IH; [reflexivity|]. intros c' Hc'. apply H. simpl; auto.
Qed.

Lemma split_join sep l :
  l <> [] -> Forall (no_sep sep) l ->
  split sep (join (String sep EmptyString) l) = l.
Proof.
  induction l as [|x l IH]; intros Hne Hall; [congruence|].
  inversion Hall as [|? ? Hx Hl]; subst.
  destruct l as [|y l].
  - simpl. apply split_no_sep; assumption.
  - change (join (String sep "") (x :: y :: l))
      with (x ++ String sep (join (String sep "") (y :: l)))%string.
    rewrite split_app_sep by assumption.
    rewrite IH; [reflexivity|discriminate|assumption].
Qed.

Lemma split_all_no_sep sep s : Forall (no_sep sep) (split sep s).
Proof.
  induction s as [|c s IH]; simpl.
  - constructor; [|constructor]. intros c [].
  - destruct (Ascii.eqb_spec c sep) as [->|Hne].
    + constructor; [|assumption]. intros c [].
    + destruct (split sep s) as [|h t]; inversion IH; subst.
      * constructor; [|constructor]. intros c' [<-|[]]. assumption.
      * constructor; [|assumption]. intros c' [<-|Hc']; [assumption|auto].
Qed.

Lemma join_split sep s : join (String sep EmptyString) (split sep s) = s.
Proof.
  induction s as [|c s IH]; simpl; [reflexivity|].
  destruct (Ascii.eqb_spec c sep) as [->|Hne].
  - pose proof (split_nonempty sep s) as Hn.
    destruct (split sep s) as [|h t]; [congruence|].
    change (join (String sep "") ("" :: h :: t))
      with (String sep (join (String sep "") (h :: t))).
    rewrite IH. reflexivity.
  - pose proof (split_nonempty sep s) as Hn.
    destruct (split sep s) as [|h t]; [congruence|].
    destruct t as [|h' t].
    + simpl in *. subst. reflexivity.
    + change (join (String sep "") (String c h :: h' :: t))
        with (String c (join (String sep "") (h :: h' :: t))).
      rewrite IH. reflexivity.
Qed.

Ltac eval_digit :=
  repeat match goal with
  | |- context [digit_value ?r (Ascii ?a ?b ?c ?d ?e ?f ?g ?h)] =>
      let v := eval vm_compute in (digit_value r (Ascii a b c d e f g h)) in
      change (digit_value r (Ascii a b c d e f g h)) with v
  end.

Lemma parse_digits_uint_acc d acc :
  parse_digits 10 (NilEmpty.string_of_uint d) (Some acc)
  = Some (N.of_nat (Nat.of_uint_acc d (N.to_nat acc))).
Proof.
  revert acc. induction d; intros acc;
    cbn [NilEmpty.string_of_uint parse_digits]; eval_digit; cbv iota;
    [ cbn; f_equal; lia | .. ];
    rewrite IHd; cbn [Nat.of_uint_acc]; rewrite Nat.tail_mul_spec;
    do 3 f_equal; lia.
Qed.

Lemma parse_digits_uint d :
  d <> Decimal.Nil ->
  parse_digits 10 (NilEmpty.string_of_uint d) None = Some (N.of_nat (Nat.of_uint d)).
Proof.
  intros Hd. unfold Nat.of_uint.
  destruct d; [congruence | ..];
    cbn [NilEmpty.string_of_uint parse_digits]; eval_digit; cbv iota;
    rewrite parse_digits_uint_acc; cbn [Nat.of_uint_acc]; reflexivity.
Qed.

Lemma to_uint_not_nil n : Nat.to_uint n <> Decimal.Nil.
Proof.
  intros H. pose proof (DecimalNat.Unsigned.of_to n) as E. rewrite H in E.
  pose proof (DecimalNat.Unsigned.to_of Decimal.Nil) as E'.
  cbn in E. subst n. discriminate H.
Qed.

Lemma parse_digits_String_of_nat n :
  parse_digits 10 (String_of_nat n) None = Some (N.of_nat n).
Proof.
  unfold String_of_nat. rewrite parse_digits_uint by apply to_uint_not_nil.
  now rewrite DecimalNat.Unsigned.of_to.
Qed.

Lemma parseInt_numeral d :
  d <> Decimal.Nil ->
  parseInt (NilEmpty.string_of_uint d)
  = match parse_digits 10 (NilEmpty.string_of_uint d) None with
    | Some n => Num (1 * Z.of_N n)
    | None => NaN
    end.
Proof.
  intros Hd.
  destruct d as [|d|d|d|d|d|d|d|d|d|d]; [congruence | ..]; try reflexivity.
  destruct d; reflexivity.
Qed.

Lemma parseInt_String_of_nat n : parseInt (String_of_nat n) = Num (Z.of_nat n).
Proof.
  unfold String_of_nat.
  rewrite parseInt_numeral by apply to_uint_not_nil.
  fold (String_of_nat n). rewrite parse_digits_String_of_nat.
  f_equal. lia.
Qed.

Lemma String_of_nat_no_dot n : no_sep "." (String_of_nat n).
Proof.
  unfold String_of_nat, no_sep. generalize (Nat.to_uint n) as d.
  induction d; simpl; intros c H; try (destruct H as [<-|H]; [discriminate|auto]).
  contradiction.
Qed.

Lemma String_of_nat_inj n m : String_of_nat n = String_of_nat m -> n = m.
Proof.
  intros H. apply (f_equal parseInt) in H.
  rewrite !parseInt_String_of_nat in H. injection H. lia.
Qed.

Lemma split_numbering_of arr :
  arr <> [] -> split "." (numbering_of arr) = map String_of_nat arr.
Proof.
  intros Hne. unfold numbering_of. apply split_join.
  - destruct arr; [congruence|discriminate].
  - apply Forall_forall. intros s Hs. apply in_map_iff in Hs.
    destruct Hs as [n [<- _]]. apply String_of_nat_no_dot.
Qed.

Lemma segments_numbering_of arr :
  arr <> [] -> segments (numbering_of arr) = List.length arr.
Proof.
  intros Hne. unfold segments. rewrite split_numbering_of by assumption.
  apply length_map.
Qed.

Lemma numbering_array_numbering_of arr :
  arr <> [] ->
  numbering_array (numbering_of arr) = map (fun n => Num (Z.of_nat n)) arr.
Proof.
  intros Hne. unfold numbering_array. rewrite split_numbering_of by assumption.
  rewrite map_map. apply map_ext. intros n. apply parseInt_String_of_nat.
Qed.

Lemma numbering_of_inj a b :
  a <> [] -> b <> [] -> numbering_of a = numbering_of b -> a = b.
Proof.
  intros Ha Hb H. apply (f_equal (split ".")) in H.
  rewrite !split_numbering_of in H by assumption.
  revert b Hb H. clear Ha. induction a as [|x a IH]; intros [|y b] Hb H;
    try discriminate; try reflexivity.
  simpl in H. injection H as Hx Hr.
  apply String_of_nat_inj in Hx. subst y.
  destruct a as [|x' a], b as [|y' b]; try discriminate; try reflexivity.
  f_equal. apply IH; [discriminate|assumption].
Qed.

(** ** The Flattener *)

(** Induction over a listing element, with the property for every reply. *)
Lemma child_nested_ind (P : child -> Prop) :
  P More ->
  (forall c, P (T1 c None)) ->
  (forall c children, Forall P children -> P (T1 c (Some children))) ->
  forall ch, P ch.
Proof.
  intros P_More P_leaf P_replies. fix IH 1. intros [|c [children|]].
  - exact P_More.
  - apply P_replies. induction children as [|x l IHl]; constructor.
    + apply IH.
    + exact IHl.
  - apply P_leaf.
Qed.

Lemma preorder_tree_eq prefix k c kids :
  preorder_tree prefix k (CNode c kids)
  = make_row (prefix ++ [k]) c :: preorder (prefix ++ [k]) 1 kids.
Proof.
  simpl. f_equal. generalize 1 as i.
  induction kids as [|t l IH]; intros i; [reflexivity|].
  simpl. f_equal. apply IH.
Qed.

Lemma preorder_app prefix k l1 l2 :
  preorder prefix k (l1 ++ l2)
  = preorder prefix k l1 ++ preorder prefix (List.length l1 + k) l2.
Proof.
  revert k. induction l1 as [|t l1 IH]; intros k; simpl; [reflexivity|].
  rewrite IH, <- app_assoc. do 3 f_equal. lia.
Qed.

(** A run of the [forEach] over [l] from counter [count]. *)
Lemma forEach_preorder prefixArr l :
  Forall (fun ch => forall prefix count td,
            visit prefix ch (count, td)
            = (List.length (prune_child ch) + count,
               td ++ preorder prefix (S count) (prune_child ch))) l ->
  forall count td,
    fold_left (fun st ch => visit prefixArr ch st) l (count, td)
    = (List.length (prune l) + count, td ++ preorder prefixArr (S count) (prune l)).
Proof.
  induction 1 as [|ch l Hch _ IH]; intros count td; simpl.
  - now rewrite app_nil_r.
  - rewrite Hch, IH. unfold prune at 2 3. simpl.
    fold (prune l). rewrite preorder_app, length_app, <- app_assoc.
    f_equal; [lia|]. do 3 f_equal. lia.
Qed.

Lemma visit_preorder ch :
  forall prefix count td,
    visit prefix ch (count, td)
    = (List.length (prune_child ch) + count,
       td ++ preorder prefix (S count) (prune_child ch)).
Proof.
  induction ch as [|c|c children IH] using child_nested_ind;
    intros prefix count td.
  - simpl. now rewrite app_nil_r.
  - reflexivity.
  - cbn [visit prune_child fst snd List.length preorder Nat.add].
    rewrite (forEach_preorder _ _ IH). cbn [snd].
    rewrite preorder_tree_eq, app_nil_r. fold (prune children).
    now rewrite <- app_assoc.
Qed.

Lemma buildTableData_eq comments prefixArr td :
  buildTableData comments prefixArr td
  = td ++ preorder prefixArr 1 (prune comments).
Proof.
  unfold buildTableData. rewrite forEach_preorder; [reflexivity|].
  apply Forall_forall. intros ch _. apply visit_preorder.
Qed.

Lemma preorder_length prefix k l :
  Forall (fun ch => forall prefix k,
            List.length (preorder prefix k (prune_child ch)) = real_comments ch) l ->
  List.length (preorder prefix k (prune l)) = list_sum (map real_comments l).
Proof.
  intros H. revert k. induction H as [|ch l Hch _ IH]; intros k; [reflexivity|].
  unfold prune. simpl. fold (prune l).
  rewrite preorder_app, length_app, Hch, IH. reflexivity.
Qed.

Lemma preorder_child_length ch :
  forall prefix k, List.length (preorder prefix k (prune_child ch)) = real_comments ch.
Proof.
  induction ch as [|c|c children IH] using child_nested_ind; intros prefix k.
  - reflexivity.
  - reflexivity.
  - cbn [prune_child preorder real_comments]. rewrite app_nil_r, preorder_tree_eq.
    cbn [List.length]. fold (prune children). now rewrite preorder_length.
Qed.

Lemma ctree_nested_ind (P : ctree -> Prop) :
  (forall c kids, Forall P kids -> P (CNode c kids)) -> forall t, P t.
Proof.
  intros P_node. fix IH 1. intros [c kids]. apply P_node.
  induction kids as [|x l IHl]; constructor.
  - apply IH.
  - exact IHl.
Qed.

Lemma paths_tree_eq k c kids :
  paths_tree k (CNode c kids)
  = ([k], c) :: map (fun pc => (k :: fst pc, snd pc)) (paths 1 kids).
Proof.
  reflexivity.
Qed.

(** The records of a run are the rows of the positions, in order. *)
Lemma preorder_paths prefix k l :
  preorder prefix k l
  = map (fun pc => make_row (prefix ++ fst pc) (snd pc)) (paths k l).
Proof.
  revert prefix k. induction l as [|t l IHl]; intros prefix k; [reflexivity|].
  cbn [preorder paths]. rewrite map_app, IHl. f_equal. clear IHl l.
  revert prefix k.
  induction t as [c kids IH] using ctree_nested_ind; intros prefix k.
  rewrite preorder_tree_eq, paths_tree_eq. cbn [map fst snd]. f_equal.
  rewrite map_map. cbn [fst snd].
  generalize 1 as i. induction IH as [|t l Ht _ IHl]; intros i; [reflexivity|].
  cbn [preorder paths]. rewrite map_app, IHl, Ht. f_equal.
  apply map_ext. intros pc. now rewrite <- app_assoc.
Qed.

(** Induction over a forest: the replies of the first tree, then the
    rest of the siblings. *)
Lemma forest_ind (P : list ctree -> Prop) :
  P [] ->
  (forall c kids rest, P kids -> P rest -> P (CNode c kids :: rest)) ->
  forall l, P l.
Proof.
  intros Hnil Hcons.
  assert (Hstep : forall t rest, P rest -> P (t :: rest)).
  { induction t as [c kids IH] using ctree_nested_ind. intros rest Hrest.
    apply Hcons; [|assumption].
    induction IH as [|t l Ht _ IHl]; [assumption|]. now apply Ht. }
  induction l as [|t l IH]; [assumption|]. now apply Hstep.
Qed.

Lemma paths_cons k c kids rest :
  paths k (CNode c kids :: rest)
  = ([k], c) :: map (fun pc => (k :: fst pc, snd pc)) (paths 1 kids)
    ++ paths (S k) rest.
Proof. reflexivity. Qed.

Lemma paths_shape l :
  forall k p c, In (p, c) (paths k l) ->
    p <> [] /\ k <= hd 0 p /\ (0 < k -> Forall (fun n => 0 < n) p).
Proof.
  induction l as [|c0 kids rest IHk IHr] using forest_ind; intros k p c H.
  - contradiction.
  - rewrite paths_cons in H. destruct H as [H|H].
    + injection H as <- _. repeat split; [discriminate|simpl; lia|].
      intros Hk. repeat constructor. assumption.
    + apply in_app_or in H. destruct H as [H|H].
      * apply in_map_iff in H. destruct H as [[q c'] [E Hq]].
        injection E as <- _. cbn [fst]. apply IHk in Hq.
        destruct Hq as (_ & _ & Hq).
        repeat split; [discriminate|simpl; lia|].
        intros Hk. constructor; [assumption|]. apply Hq. lia.
      * apply IHr in H. destruct H as (H1 & H2 & H3).
        repeat split; [assumption|lia|]. intros Hk. apply H3. lia.
Qed.

Lemma paths_NoDup l : forall k, NoDup (map fst (paths k l)).
Proof.
  induction l as [|c0 kids rest IHk IHr] using forest_ind; intros k.
  - constructor.
  - rewrite paths_cons. cbn [map fst]. rewrite map_app, map_map. cbn [fst].
    constructor.
    + intros H. apply in_app_or in H. destruct H as [H|H].
      * apply in_map_iff in H. destruct H as [[q c'] [E Hq]].
        apply paths_shape in Hq. cbn [fst] in E. destruct Hq as [Hq _].
        destruct q; [congruence|discriminate].
      * apply in_map_iff in H. destruct H as [[q c'] [E Hq]].
        cbn [fst] in E. subst q. apply paths_shape in Hq. simpl in Hq. lia.
    + apply NoDup_app.
      * rewrite <- (map_map fst (cons k)).
        apply Finite.Injective_map_NoDup; [|apply IHk].
        intros x y E. now injection E.
      * apply IHr.
      * intros p H1 H2.
        apply in_map_iff in H1. destruct H1 as [[q c'] [E Hq]].
        apply in_map_iff in H2. destruct H2 as [[q2 c2] [E2 Hq2]].
        cbn [fst] in *. subst. apply paths_shape in Hq2. simpl in Hq2. lia.
Qed.

Lemma paths_closed l :
  forall k p c, In (p, c) (paths k l) -> 1 < List.length p ->
    exists c', In (removelast p, c') (paths k l).
Proof.
  induction l as [|c0 kids rest IHk IHr] using forest_ind; intros k p c H Hlen.
  - contradiction.
  - rewrite paths_cons in *. destruct H as [H|H].
    + injection H as <- _. simpl in Hlen. lia.
    + apply in_app_or in H. destruct H as [H|H].
      * apply in_map_iff in H. destruct H as [[q c'] [E Hq]].
        injection E as <- <-. cbn [fst snd] in *.
        destruct q as [|a [|b q]].
        -- simpl in Hlen. lia.
        -- exists c0. left. reflexivity.
        -- destruct (IHk 1 (a :: b :: q) c' Hq) as [c2 Hc2]; [simpl; lia|].
           exists c2. right. apply in_or_app. left.
           apply in_map_iff. exists (removelast (a :: b :: q), c2).
           split; [reflexivity|assumption].
      * destruct (IHr _ _ _ H Hlen) as [c2 Hc2]. exists c2.
        right. apply in_or_app. now right.
Qed.

Lemma preorder_cons prefix k c kids rest :
  preorder prefix k (CNode c kids :: rest)
  = make_row (prefix ++ [k]) c
    :: preorder (prefix ++ [k]) 1 kids ++ preorder prefix (S k) rest.
Proof. cbn [preorder]. now rewrite preorder_tree_eq. Qed.

Lemma preorder_total_length prefix k comments :
  List.length (preorder prefix k (prune comments))
  = list_sum (map real_comments comments).
Proof.
  apply preorder_length. apply Forall_forall. intros ch _.
  apply preorder_child_length.
Qed.

(** A record of a run: the row of an array that extends the prefix by
    positive ranks. *)
Lemma preorder_row prefix l r :
  In r (preorder prefix 1 l) ->
  exists arr c, r = make_row (prefix ++ arr) c /\ arr <> []
                /\ Forall (fun n => 0 < n) arr.
Proof.
  rewrite preorder_paths. intros H. apply in_map_iff in H.
  destruct H as [[p c] [<- Hp]]. apply paths_shape in Hp.
  destruct Hp as (H1 & _ & H3). exists p, c. cbn [fst snd].
  repeat split; [assumption|]. apply H3. lia.
Qed.

Lemma make_row_level arr c :
  arr <> [] -> level (make_row arr c) = segments (numbering (make_row arr c)).
Proof.
  intros Hne. cbn [level numbering make_row].
  fold (numbering_of arr). now rewrite segments_numbering_of.
Qed.

(** C1.  [buildTableData] appends to [tableData] one record for each
    node of the listing that is not a stub, in pre-order: the record of
    a node, then the records of its replies, then those of its next
    sibling.  With [positions] the pre-order list of the nodes, each
    with its position (the 1-based ranks among the siblings that are not
    stubs, from the top down), the record of a node is the object
    literal of its comment; its numbering is the decimal numbers of the
    prefix and of the position joined by dots, that is the numbering of
    its parent followed by its own rank; and its level is the number of
    these numbers, which is the number of segments of the numbering. *)
Theorem buildTableData_preorder
  (comments : list child) (prefixArr : list nat) (tableData : list row) :
  let positions := paths 1 (prune comments) in
  let new := preorder prefixArr 1 (prune comments) in
  buildTableData comments prefixArr tableData = tableData ++ new
  /\ new = map (fun pc => make_row (prefixArr ++ fst pc) (snd pc)) positions
  /\ map numbering new
     = map (fun pc => numbering_of (prefixArr ++ fst pc)) positions
  /\ map (fun r => split "." (numbering r)) new
     = map (fun pc => map String_of_nat (prefixArr ++ fst pc)) positions
  /\ map level new
     = map (fun pc => List.length prefixArr + List.length (fst pc)) positions
  /\ (forall r, In r new -> level r = segments (numbering r))
  /\ (forall k c kids rest,
        paths k (CNode c kids :: rest)
        = ([k], c) :: map (fun pc => (k :: fst pc, snd pc)) (paths 1 kids)
          ++ paths (S k) rest)
  /\ (forall k, paths k [] = [])
  /\ (forall prefix k c kids rest,
        preorder prefix k (CNode c kids :: rest)
        = make_row (prefix ++ [k]) c
          :: preorder (prefix ++ [k]) 1 kids ++ preorder prefix (S k) rest)
  /\ (forall prefix k, preorder prefix k [] = [])
  /\ prune (More :: comments) = prune comments
  /\ (forall c replies,
        prune (T1 c replies :: comments)
        = CNode c match replies with
                  | Some children => prune children
                  | None => []
                  end :: prune comments)
  /\ List.length (buildTableData comments prefixArr tableData)
     = List.length tableData + list_sum (map real_comments comments)
  /\ List.length positions = list_sum (map real_comments comments).
Proof.
  cbv zeta.
  assert (Hnew : preorder prefixArr 1 (prune comments)
                 = map (fun pc => make_row (prefixArr ++ fst pc) (snd pc))
                       (paths 1 (prune comments))) by apply preorder_paths.
  assert (Hne : forall pc, In pc (paths 1 (prune comments)) ->
                           prefixArr ++ fst pc <> []).
  { intros [q c] Hq. apply paths_shape in Hq. destruct Hq as [Hq _].
    cbn [fst]. destruct prefixArr; [assumption|discriminate]. }
  split; [apply buildTableData_eq|].
  split; [exact Hnew|].
  split; [rewrite Hnew, map_map; reflexivity|].
  split.
  { rewrite Hnew, map_map. apply map_ext_in. intros pc Hpc.
    cbn [make_row numbering]. fold (numbering_of (prefixArr ++ fst pc)).
    apply split_numbering_of. now apply Hne. }
  split.
  { rewrite Hnew, map_map. apply map_ext. intros pc.
    cbn [make_row level]. apply length_app. }
  split.
  { intros r Hr. rewrite Hnew in Hr. apply in_map_iff in Hr.
    destruct Hr as (pc & <- & Hpc). apply make_row_level. now apply Hne. }
  split; [intros; apply paths_cons|].
  split; [reflexivity|].
  split; [intros; apply preorder_cons|].
  split; [reflexivity|].
  split; [reflexivity|].
  split; [reflexivity|].
  split.
  { rewrite buildTableData_eq, length_app. f_equal. apply preorder_total_length. }
  rewrite <- (preorder_total_length prefixArr 1 comments), Hnew.
  now rewrite length_map.
Qed.

(** The end-to-end scenario of the specification: a comment with two
    replies, the second with one reply, and a stub as last sibling. *)
Example flat_sequence_scenario (c1 c2 c3 c4 : comment) :
  map (fun r => (numbering r, level r))
      (flat_sequence
         [T1 c1 (Some [T1 c2 None; T1 c3 (Some [T1 c4 None])]); More])
  = [("1", 1); ("1.1", 2); ("1.2", 2); ("1.2.1", 3)].
Proof. reflexivity. Qed.

(** A stub between two comments takes no number. *)
Example flat_sequence_skips_stub (c1 c2 : comment) :
  map numbering (flat_sequence [T1 c1 None; More; T1 c2 None]) = ["1"; "2"].
Proof. reflexivity. Qed.

(** ** Defaults of a Comment Record *)

(** What holds of every record: the sentinels, the vote defaults and an
    explicit score. *)
Lemma make_row_defaults arr c :
  (value_of (c_body c) = None -> body (make_row arr c) = "[deleted]")
  /\ (value_of (c_author c) = None -> author (make_row arr c) = "[deleted]")
  /\ (value_of (c_ups c) = None -> upvotes (make_row arr c) = 0%Z)
  /\ (value_of (c_downs c) = None -> downvotes (make_row arr c) = 0%Z)
  /\ (forall s, c_score c = Present s -> score (make_row arr c) = Num s)
  /\ (value_of (c_score c) = None -> c_ups c <> Absent -> c_downs c <> Absent ->
        score (make_row arr c)
        = Num (upvotes (make_row arr c) - downvotes (make_row arr c))).
Proof.
  cbn [make_row body author upvotes downvotes score].
  repeat split.
  - intros ->. reflexivity.
  - intros ->. reflexivity.
  - intros ->. reflexivity.
  - intros ->. reflexivity.
  - intros s ->. reflexivity.
  - intros -> Hu Hd.
    destruct (c_ups c) as [| |u]; [contradiction| |];
      destruct (c_downs c) as [| |d]; try contradiction; cbn; f_equal;
      try destruct (Z.eqb_spec u 0); try destruct (Z.eqb_spec d 0);
      subst; reflexivity.
Qed.

(** C6.  A comment that carries neither [score] nor [ups]: the record's
    [upvotes] is the default 0 and its [downvotes] is 3, but its [score]
    is [NaN], not [upvotes - downvotes]. *)
Theorem score_fallback_ignores_defaults :
  let c := {| c_body := Present "text"; c_author := Present "user";
              c_ups := Absent; c_downs := Present 3%Z; c_score := Absent;
              c_created_utc := Present 1741703950%Z |} in
  exists r, flat_sequence [T1 c None] = [r]
            /\ upvotes r = 0%Z /\ downvotes r = 3%Z
            /\ score r = NaN
            /\ score r <> Num (upvotes r - downvotes r).
Proof.
  eexists. repeat split. discriminate.
Qed.

(** ** The Hierarchical Comparator *)

Lemma elem_or_zero_beyond a i : List.length a <= i -> elem_or_zero a i = 0%Z.
Proof.
  intros H. unfold elem_or_zero.
  now rewrite (proj2 (nth_error_None a i) H).
Qed.

Lemma compareArray_loop_range a b n : forall i,
  compareArray_loop a b i n = (-1)%Z \/ compareArray_loop a b i n = 0%Z
  \/ compareArray_loop a b i n = 1%Z.
Proof.
  induction n as [|n IH]; intros i; cbn [compareArray_loop]; [auto|].
  destruct (_ <? _)%Z; [auto|]. destruct (_ >? _)%Z; [auto|]. apply IH.
Qed.

Lemma compareArray_loop_antisym a b n : forall i,
  compareArray_loop a b i n = (- compareArray_loop b a i n)%Z.
Proof.
  induction n as [|n IH]; intros i; cbn [compareArray_loop]; [reflexivity|].
  rewrite (IH (S i)).
  destruct (Z.ltb_spec (elem_or_zero a i) (elem_or_zero b i)),
           (Z.ltb_spec (elem_or_zero b i) (elem_or_zero a i));
    rewrite ?Z.gtb_ltb;
    destruct (Z.ltb_spec (elem_or_zero a i) (elem_or_zero b i)),
             (Z.ltb_spec (elem_or_zero b i) (elem_or_zero a i));
    try lia; reflexivity.
Qed.

Lemma compareArray_loop_beyond a b n : forall i,
  Nat.max (List.length a) (List.length b) <= i -> compareArray_loop a b i n = 0%Z.
Proof.
  induction n as [|n IH]; intros i Hi; cbn [compareArray_loop]; [reflexivity|].
  rewrite !elem_or_zero_beyond by lia. cbn. apply IH. lia.
Qed.

(** More turns than the arrays are long change nothing. *)
Lemma compareArray_loop_extend a b n m : forall i,
  Nat.max (List.length a) (List.length b) <= i + n ->
  compareArray_loop a b i (n + m) = compareArray_loop a b i n.
Proof.
  induction n as [|n IH]; intros i Hi.
  - cbn [Nat.add compareArray_loop]. apply compareArray_loop_beyond. lia.
  - cbn [Nat.add compareArray_loop].
    destruct (_ <? _)%Z; [reflexivity|]. destruct (_ >? _)%Z; [reflexivity|].
    apply IH. lia.
Qed.

Lemma compareArray_fuel a b n :
  Nat.max (List.length a) (List.length b) <= n ->
  compareArray a b = compareArray_loop a b 0 n.
Proof.
  intros H. unfold compareArray.
  replace n with (Nat.max (List.length a) (List.length b)
                  + (n - Nat.max (List.length a) (List.length b))) by lia.
  symmetry. apply compareArray_loop_extend. lia.
Qed.

Lemma compareArray_loop_trans a b c n : forall i,
  (compareArray_loop a b i n <= 0)%Z -> (compareArray_loop b c i n <= 0)%Z ->
  (compareArray_loop a c i n <= 0)%Z.
Proof.
  induction n as [|n IH]; intros i; cbn [compareArray_loop]; [lia|].
  rewrite !Z.gtb_ltb. specialize (IH (S i)).
  destruct (Z.ltb_spec (elem_or_zero a i) (elem_or_zero b i)),
           (Z.ltb_spec (elem_or_zero b i) (elem_or_zero a i)),
           (Z.ltb_spec (elem_or_zero b i) (elem_or_zero c i)),
           (Z.ltb_spec (elem_or_zero c i) (elem_or_zero b i)),
           (Z.ltb_spec (elem_or_zero a i) (elem_or_zero c i)),
           (Z.ltb_spec (elem_or_zero c i) (elem_or_zero a i));
    try lia; auto.
Qed.

Lemma compareArray_range a b :
  compareArray a b = (-1)%Z \/ compareArray a b = 0%Z \/ compareArray a b = 1%Z.
Proof. apply compareArray_loop_range. Qed.

Lemma compareArray_antisym a b : compareArray a b = (- compareArray b a)%Z.
Proof.
  unfold compareArray. rewrite Nat.max_comm. apply compareArray_loop_antisym.
Qed.

Lemma compareArray_trans a b c :
  (compareArray a b <= 0)%Z -> (compareArray b c <= 0)%Z ->
  (compareArray a c <= 0)%Z.
Proof.
  set (n := Nat.max (List.length a) (Nat.max (List.length b) (List.length c))).
  rewrite (compareArray_fuel a b n), (compareArray_fuel b c n),
    (compareArray_fuel a c n) by lia.
  apply compareArray_loop_trans.
Qed.

Lemma compareArray_refl a : compareArray a a = 0%Z.
Proof. pose proof (compareArray_antisym a a). lia. Qed.


Lemma compareArray_loop_first_diff a b n : forall i k,
  i <= k -> k < i + n ->
  (forall j, i <= j -> j < k -> elem_or_zero a j = elem_or_zero b j) ->
  elem_or_zero a k <> elem_or_zero b k ->
  compareArray_loop a b i n
  = if (elem_or_zero a k <? elem_or_zero b k)%Z then (-1)%Z else 1%Z.
Proof.
  induction n as [|n IH]; intros i k Hik Hkn Heq Hne; [lia|].
  cbn [compareArray_loop]. rewrite Z.gtb_ltb.
  destruct (Nat.eq_dec i k) as [->|Hik'].
  - destruct (Z.ltb_spec (elem_or_zero a k) (elem_or_zero b k)); [reflexivity|].
    destruct (Z.ltb_spec (elem_or_zero b k) (elem_or_zero a k)); [reflexivity|lia].
  - rewrite (Heq i) by lia. rewrite Z.ltb_irrefl.
    apply IH; try lia. intros j H1 H2. apply Heq; lia.
Qed.

Lemma compareArray_loop_zero a b n : forall i,
  compareArray_loop a b i n = 0%Z ->
  forall j, i <= j -> j < i + n -> elem_or_zero a j = elem_or_zero b j.
Proof.
  induction n as [|n IH]; intros i H j H1 H2; [lia|].
  cbn [compareArray_loop] in H. rewrite Z.gtb_ltb in H.
  destruct (Z.ltb_spec (elem_or_zero a i) (elem_or_zero b i)); [discriminate|].
  destruct (Z.ltb_spec (elem_or_zero b i) (elem_or_zero a i)); [discriminate|].
  destruct (Nat.eq_dec i j) as [->|Hij]; [lia|].
  apply (IH (S i)); [assumption|lia|lia].
Qed.

Lemma compareArray_zero a b :
  compareArray a b = 0%Z -> forall j, elem_or_zero a j = elem_or_zero b j.
Proof.
  intros H j.
  destruct (Nat.lt_ge_cases j (Nat.max (List.length a) (List.length b))).
  - apply (compareArray_loop_zero _ _ _ _ H); lia.
  - rewrite !elem_or_zero_beyond by lia. reflexivity.
Qed.

Lemma compareArray_first_diff a b k :
  (forall j, j < k -> elem_or_zero a j = elem_or_zero b j) ->
  elem_or_zero a k <> elem_or_zero b k ->
  compareArray a b
  = if (elem_or_zero a k <? elem_or_zero b k)%Z then (-1)%Z else 1%Z.
Proof.
  intros Heq Hne.
  assert (k < Nat.max (List.length a) (List.length b)).
  { destruct (Nat.lt_ge_cases k (Nat.max (List.length a) (List.length b)));
      [assumption|].
    rewrite !elem_or_zero_beyond in Hne by lia. congruence. }
  apply compareArray_loop_first_diff; try lia. intros j _. apply Heq.
Qed.

(** Arrays of positive integers that compare equal are equal. *)
Lemma elem_or_zero_Num l i :
  elem_or_zero (map (fun n => Num (Z.of_nat n)) l) i = Z.of_nat (nth i l 0).
Proof.
  unfold elem_or_zero. rewrite nth_error_map.
  destruct (nth_error l i) eqn:E.
  - now rewrite (nth_error_nth _ _ _ E).
  - apply nth_error_None in E. now rewrite nth_overflow.
Qed.

Lemma positive_arrays_equal a b :
  Forall (fun n => 0 < n) a -> Forall (fun n => 0 < n) b ->
  (forall i, nth i a 0 = nth i b 0) -> a = b.
Proof.
  intros Ha. revert b. induction Ha as [|x a Hx Ha IH]; intros b Hb H.
  - destruct Hb as [|y b Hy Hb]; [reflexivity|]. specialize (H 0). simpl in H. lia.
  - destruct Hb as [|y b Hy Hb].
    + specialize (H 0). simpl in H. lia.
    + f_equal; [apply (H 0)|]. apply IH; [assumption|].
      intros i. apply (H (S i)).
Qed.

Lemma flat_sequence_numbering comments r :
  In r (flat_sequence comments) ->
  exists arr, arr <> [] /\ Forall (fun n => 0 < n) arr
              /\ numbering r = numbering_of arr
              /\ level r = List.length arr.
Proof.
  unfold flat_sequence. rewrite buildTableData_eq. cbn [app]. intros H.
  destruct (preorder_row _ _ _ H) as (arr & c & -> & Hne & Hpos).
  exists arr. repeat split; assumption.
Qed.

Lemma flat_sequence_well_formed comments r :
  In r (flat_sequence comments) -> well_formed_numbering (numbering r).
Proof.
  intros H. destruct (flat_sequence_numbering _ _ H) as (arr & ? & ? & ? & _).
  exists arr. auto.
Qed.

Lemma compareNumbering_zero_eq a b :
  a <> [] -> b <> [] ->
  Forall (fun n => 0 < n) a -> Forall (fun n => 0 < n) b ->
  compareNumbering (numbering_of a) (numbering_of b) = 0%Z -> a = b.
Proof.
  intros Ha Hb Pa Pb H. unfold compareNumbering in H.
  rewrite !numbering_array_numbering_of in H by assumption.
  apply positive_arrays_equal; try assumption.
  intros i. pose proof (compareArray_zero _ _ H i) as E.
  rewrite !elem_or_zero_Num in E. lia.
Qed.



(** ** [Array.prototype.sort] *)

Lemma sort_insert_perm {A} (cmp : A -> A -> jsnum) x l :
  Permutation (x :: l) (sort_insert cmp x l).
Proof.
  induction l as [|y l IH]; cbn [sort_insert]; [reflexivity|].
  destruct (keeps_before (cmp x y)); [reflexivity|].
  rewrite perm_swap. now constructor.
Qed.

Lemma Array_sort_perm {A} (cmp : A -> A -> jsnum) l :
  Permutation l (Array_sort cmp l).
Proof.
  induction l as [|x l IH]; cbn [Array_sort]; [constructor|].
  rewrite <- sort_insert_perm. now constructor.
Qed.

Lemma Array_sort_In {A} (cmp : A -> A -> jsnum) l x :
  In x (Array_sort cmp l) <-> In x l.
Proof.
  split; apply Permutation_in;
    [symmetry|]; apply Array_sort_perm.
Qed.

Lemma Array_sort_length {A} (cmp : A -> A -> jsnum) l :
  List.length (Array_sort cmp l) = List.length l.
Proof. symmetry. apply Permutation_length, Array_sort_perm. Qed.

Section consistent_comparator.
Context {A : Type} (cmp : A -> A -> jsnum) (D : A -> Prop).
Hypothesis cmp_total :
  forall a b, D a -> D b -> cmp_le cmp a b \/ cmp_le cmp b a.
Hypothesis cmp_trans :
  forall a b c, D a -> D b -> D c ->
                cmp_le cmp a b -> cmp_le cmp b c -> cmp_le cmp a c.

Lemma sort_insert_sorted x l :
  D x -> Forall D l -> StronglySorted (cmp_le cmp) l ->
  StronglySorted (cmp_le cmp) (sort_insert cmp x l).
Proof.
  intros Dx Dl Hs. induction Hs as [|y l Hs IH Hy]; cbn [sort_insert].
  - repeat constructor.
  - inversion Dl as [|? ? Dy Dl']; subst.
    destruct (keeps_before (cmp x y)) eqn:E.
    + constructor; [now constructor|].
      constructor; [exact E|].
      rewrite Forall_forall in *. intros z Hz.
      apply (cmp_trans x y z); auto.
    + constructor; [now apply IH|].
      assert (Hyx : cmp_le cmp y x).
      { destruct (cmp_total x y Dx Dy) as [H|H]; [|exact H].
        unfold cmp_le in H. congruence. }
      rewrite Forall_forall in *. intros z Hz.
      apply (Permutation_in _ (Permutation_sym (sort_insert_perm cmp x l))) in Hz.
      destruct Hz as [<-|Hz]; auto.
Qed.

Lemma Array_sort_sorted l :
  Forall D l -> StronglySorted (cmp_le cmp) (Array_sort cmp l).
Proof.
  induction 1 as [|x l Dx Dl IH]; cbn [Array_sort]; [constructor|].
  apply sort_insert_sorted; [assumption| |assumption].
  rewrite Forall_forall in *. intros y Hy. apply Dl.
  now apply Array_sort_In in Hy.
Qed.
End consistent_comparator.

(** Sorting a list the comparator finds in order changes nothing. *)
Lemma Array_sort_sorted_id {A} (cmp : A -> A -> jsnum) l :
  StronglySorted (cmp_le cmp) l -> Array_sort cmp l = l.
Proof.
  induction 1 as [|x l Hs IH Hx]; cbn [Array_sort]; [reflexivity|].
  rewrite IH. destruct l as [|y l]; [reflexivity|].
  cbn [sort_insert]. inversion Hx as [|? ? Hxy _]; subst.
  unfold cmp_le in Hxy. now rewrite Hxy.
Qed.

(** *** The model of [sort] is the only conforming result

    For a consistent comparator ECMAScript fixes the result of [sort]:
    the elements in order, ties in their original order.  The insertion
    sort computes it, and nothing else satisfies the two conditions. *)

Section stable_sort.
Context {A : Type} (cmp : A -> A -> jsnum) (D : A -> Prop).
Hypothesis cmp_total :
  forall a b, D a -> D b -> cmp_le cmp a b \/ cmp_le cmp b a.
Hypothesis cmp_trans :
  forall a b c, D a -> D b -> D c ->
                cmp_le cmp a b -> cmp_le cmp b c -> cmp_le cmp a c.

Lemma cmp_tie_iff a b :
  cmp_tie cmp a b = true <-> cmp_le cmp a b /\ cmp_le cmp b a.
Proof. unfold cmp_tie, cmp_le. apply andb_true_iff. Qed.

Lemma cmp_tie_refl a : D a -> cmp_tie cmp a a = true.
Proof.
  intros Da. apply cmp_tie_iff. destruct (cmp_total a a Da Da); auto.
Qed.

Lemma sort_insert_stable x s k :
  D x -> Forall D s -> D k ->
  filter (cmp_tie cmp k) (sort_insert cmp x s)
  = filter (cmp_tie cmp k) (x :: s).
Proof.
  intros Dx Ds Dk. induction Ds as [|y s Dy Ds IH]; [reflexivity|].
  cbn [sort_insert]. destruct (keeps_before (cmp x y)) eqn:E; [reflexivity|].
  cbn [filter] in *. rewrite IH.
  destruct (cmp_tie cmp k x) eqn:Tx, (cmp_tie cmp k y) eqn:Ty; try reflexivity.
  exfalso. apply cmp_tie_iff in Tx, Ty.
  assert (H : cmp_le cmp x y) by (apply (cmp_trans x k y); tauto).
  unfold cmp_le in H. congruence.
Qed.

(** The sort is stable. *)
Lemma Array_sort_stable l k :
  Forall D l -> D k ->
  filter (cmp_tie cmp k) (Array_sort cmp l) = filter (cmp_tie cmp k) l.
Proof.
  intros Dl Dk. induction Dl as [|x l Dx Dl IH]; [reflexivity|].
  cbn [Array_sort]. rewrite sort_insert_stable; try assumption.
  - cbn [filter]. now rewrite IH.
  - rewrite Forall_forall in *. intros y Hy. apply Dl.
    now apply Array_sort_In in Hy.
Qed.

Lemma sorted_stable_unique l1 : forall l2,
  Forall D l1 -> Forall D l2 ->
  StronglySorted (cmp_le cmp) l1 -> StronglySorted (cmp_le cmp) l2 ->
  (forall k, D k -> filter (cmp_tie cmp k) l1 = filter (cmp_tie cmp k) l2) ->
  l1 = l2.
Proof.
  induction l1 as [|a l1 IH]; intros l2 D1 D2 S1 S2 H.
  - destruct l2 as [|b l2]; [reflexivity|].
    inversion D2 as [|? ? Db _]; subst.
    specialize (H b Db). cbn [filter] in H.
    rewrite (cmp_tie_refl b Db) in H. discriminate H.
  - inversion D1 as [|? ? Da D1']; subst.
    destruct l2 as [|b l2].
    { specialize (H a Da). cbn [filter] in H.
      rewrite (cmp_tie_refl a Da) in H. discriminate H. }
    inversion D2 as [|? ? Db D2']; subst.
    inversion S1 as [|? ? S1' A1]; subst. inversion S2 as [|? ? S2' A2]; subst.
    rewrite Forall_forall in A1, A2.
    assert (Hab : cmp_tie cmp a b = true).
    { apply cmp_tie_iff. split.
      - assert (In b (filter (cmp_tie cmp b) (a :: l1))) as Hb.
        { rewrite (H b Db). cbn [filter]. rewrite (cmp_tie_refl b Db). now left. }
        apply filter_In in Hb. destruct Hb as [[->|Hb] Tb].
        + now apply cmp_tie_iff in Tb.
        + now apply A1.
      - assert (In a (filter (cmp_tie cmp a) (b :: l2))) as Ha.
        { rewrite <- (H a Da). cbn [filter]. rewrite (cmp_tie_refl a Da). now left. }
        apply filter_In in Ha. destruct Ha as [[->|Ha] Ta].
        + now apply cmp_tie_iff in Ta.
        + now apply A2. }
    assert (a = b).
    { pose proof (H a Da) as Ha. cbn [filter] in Ha.
      rewrite (cmp_tie_refl a Da), Hab in Ha. now injection Ha. }
    subst b. f_equal. apply IH; try assumption.
    intros k Dk. specialize (H k Dk). cbn [filter] in H.
    destruct (cmp_tie cmp k a); [now injection H|assumption].
Qed.

(** Any rearrangement of [l] that is in order under the comparator and
    keeps ties in their order is the result of the model. *)
Lemma Array_sort_unique l l' :
  Forall D l -> Forall D l' ->
  StronglySorted (cmp_le cmp) l' ->
  (forall k, D k -> filter (cmp_tie cmp k) l' = filter (cmp_tie cmp k) l) ->
  l' = Array_sort cmp l.
Proof.
  intros Dl Dl' S H. apply sorted_stable_unique; try assumption.
  - rewrite Forall_forall in *. intros y Hy. apply Dl.
    now apply Array_sort_In in Hy.
  - now apply (Array_sort_sorted cmp D).
  - intros k Dk. rewrite H by assumption. symmetry.
    now apply Array_sort_stable.
Qed.
End stable_sort.

Lemma before_sorted {A} (le : A -> A -> Prop) x y l :
  StronglySorted le l -> before x y l -> le x y.
Proof.
  intros Hs (l1 & l2 & l3 & ->).
  induction l1 as [|z l1 IH].
  - cbn [app] in Hs. inversion Hs as [|? ? _ Hall]; subst.
    rewrite Forall_forall in Hall. apply Hall.
    apply in_or_app. right. now left.
  - apply IH. now inversion Hs.
Qed.

Lemma before_or {A} (x y : A) l :
  In x l -> In y l -> x <> y -> before x y l \/ before y x l.
Proof.
  intros Hx Hy Hne. apply in_split in Hx. destruct Hx as (l1 & l2 & ->).
  apply in_app_or in Hy. destruct Hy as [Hy|[Hy|Hy]]; [| congruence |].
  - right. apply in_split in Hy. destruct Hy as (l3 & l4 & ->).
    exists l3, l4, l2. now rewrite <- app_assoc.
  - left. apply in_split in Hy. destruct Hy as (l3 & l4 & ->).
    now exists l1, l3, l4.
Qed.

(** In a sorted list a strictly smaller element comes first, and only
    first. *)
Lemma sorted_strict_before {A} (le : A -> A -> Prop) x y l :
  StronglySorted le l -> In x l -> In y l -> ~ le y x ->
  (x = y -> False) -> before x y l /\ ~ before y x l.
Proof.
  intros Hs Hx Hy Hnle Hne.
  assert (Hnb : ~ before y x l).
  { intros Hb. apply Hnle. exact (before_sorted le y x l Hs Hb). }
  split; [|assumption].
  destruct (before_or x y l Hx Hy Hne) as [H|H]; [assumption|contradiction].
Qed.

(** ** The order of each column *)

Lemma String_compare_refl s : String.compare s s = Eq.
Proof.
  induction s as [|c s IH]; cbn; [reflexivity|].
  unfold Ascii.compare. now rewrite N.compare_refl.
Qed.

Lemma String_compare_trans_Lt a : forall b c,
  String.compare a b = Lt -> String.compare b c = Lt -> String.compare a c = Lt.
Proof.
  induction a as [|x a IH]; intros [|y b] [|z c]; cbn; try discriminate; auto.
  unfold Ascii.compare.
  destruct (N.compare_spec (N_of_ascii x) (N_of_ascii y)) as [E1|L1|G1];
    destruct (N.compare_spec (N_of_ascii y) (N_of_ascii z)) as [E2|L2|G2];
    try discriminate; intros H1 H2.
  - rewrite E1, E2, N.compare_refl. eauto.
  - rewrite E1. now apply N.compare_lt_iff in L2 as ->.
  - rewrite <- E2. now apply N.compare_lt_iff in L1 as ->.
  - assert (L : (N_of_ascii x < N_of_ascii z)%N) by lia.
    now apply N.compare_lt_iff in L as ->.
Qed.

Lemma three_way_antisym a b :
  three_way (String.compare a b) = (- three_way (String.compare b a))%Z.
Proof.
  rewrite String.compare_antisym. now destruct (String.compare b a).
Qed.

Lemma three_way_trans a b c :
  (three_way (String.compare a b) <= 0)%Z ->
  (three_way (String.compare b c) <= 0)%Z ->
  (three_way (String.compare a c) <= 0)%Z.
Proof.
  destruct (String.compare a b) eqn:E1; cbn; try lia;
    destruct (String.compare b c) eqn:E2; cbn; try lia; intros _ _.
  - apply String.compare_eq_iff in E1, E2. subst.
    now rewrite String_compare_refl.
  - apply String.compare_eq_iff in E1. subst. now rewrite E2.
  - apply String.compare_eq_iff in E2. subst. now rewrite E1.
  - now rewrite (String_compare_trans_Lt _ _ _ E1 E2).
Qed.

Lemma column_order_antisym column a b :
  Z.sgn (column_order column a b) = (- Z.sgn (column_order column b a))%Z.
Proof.
  unfold column_order.
  destruct (column =? "numbering").
  { unfold compareNumbering. rewrite compareArray_antisym. lia. }
  destruct (column =? "dateUtc"); [lia|].
  destruct (mem_string column _); [lia|].
  destruct (column =? "body"); rewrite three_way_antisym; lia.
Qed.

Lemma column_order_trans column a b c :
  (column_order column a b <= 0)%Z -> (column_order column b c <= 0)%Z ->
  (column_order column a c <= 0)%Z.
Proof.
  unfold column_order.
  destruct (column =? "numbering"); [apply compareArray_trans|].
  destruct (column =? "dateUtc"); [lia|].
  destruct (mem_string column _); [lia|].
  destruct (column =? "body"); apply three_way_trans.
Qed.

Lemma compare_strings_three_way asc a b :
  compare_strings asc a b
  = Num (if asc then three_way (String.compare a b)
         else - three_way (String.compare a b)).
Proof.
  unfold compare_strings, String.ltb. rewrite (String.compare_antisym b a).
  destruct (String.compare a b), asc; reflexivity.
Qed.

Lemma num_prop_orderable column r :
  mem_string column ["upvotes"; "downvotes"; "level"; "score"] = true ->
  orderable column r -> exists z, num_prop column r = Num z.
Proof.
  intros Hm Ho. unfold num_prop.
  destruct (column =? "upvotes") eqn:E1; [eauto|].
  destruct (column =? "downvotes") eqn:E2; [eauto|].
  destruct (column =? "level") eqn:E3; [eauto|].
  assert (E : column = "score").
  { cbn in Hm. rewrite E1, E2, E3 in Hm. cbn in Hm.
    rewrite orb_false_r in Hm. now apply String.eqb_eq. }
  destruct (score r) eqn:Es; [eauto|]. now apply Ho in E.
Qed.

(** What the comparator returns on records it can order. *)
Lemma comparator_column_order column asc a b :
  orderable column a -> orderable column b ->
  comparator column asc a b
  = Num (if asc then column_order column a b else - column_order column a b).
Proof.
  intros Ha Hb. unfold comparator, column_order.
  destruct (column =? "numbering").
  { destruct asc; cbn; f_equal; lia. }
  destruct (column =? "dateUtc").
  { destruct asc; cbn [js_mul js_sub direction]; f_equal; lia. }
  destruct (mem_string column _) eqn:Hm.
  { destruct (num_prop_orderable column a Hm Ha) as [x ->].
    destruct (num_prop_orderable column b Hm Hb) as [y ->].
    destruct asc; cbn [js_mul js_sub direction]; f_equal; lia. }
  destruct (column =? "body"); apply compare_strings_three_way.
Qed.

Lemma cmp_le_column_order column asc a b :
  orderable column a -> orderable column b ->
  cmp_le (comparator column asc) a b
  <-> (if asc then column_order column a b <= 0
       else column_order column b a <= 0)%Z.
Proof.
  intros Ha Hb. unfold cmp_le. rewrite comparator_column_order by assumption.
  cbn [keeps_before]. pose proof (column_order_antisym column a b).
  destruct asc; rewrite Z.leb_le; lia.
Qed.

Lemma comparator_total column asc a b :
  orderable column a -> orderable column b ->
  cmp_le (comparator column asc) a b \/ cmp_le (comparator column asc) b a.
Proof.
  intros Ha Hb. rewrite !cmp_le_column_order by assumption.
  pose proof (column_order_antisym column a b). destruct asc; lia.
Qed.

Lemma comparator_trans column asc a b c :
  orderable column a -> orderable column b -> orderable column c ->
  cmp_le (comparator column asc) a b -> cmp_le (comparator column asc) b c ->
  cmp_le (comparator column asc) a c.
Proof.
  intros Ha Hb Hc. rewrite !cmp_le_column_order by assumption.
  destruct asc; [apply column_order_trans|].
  intros H1 H2. exact (column_order_trans column c b a H2 H1).
Qed.

Lemma sort_by_column_sorted column asc l :
  Forall (orderable column) l ->
  StronglySorted (cmp_le (comparator column asc))
                 (Array_sort (comparator column asc) l).
Proof.
  apply Array_sort_sorted.
  - apply comparator_total.
  - apply comparator_trans.
Qed.

(** On records it can order, the comparator of a column leaves [sort]
    one possible result. *)
Lemma sort_by_column_unique column asc l l' :
  Forall (orderable column) l -> Forall (orderable column) l' ->
  StronglySorted (cmp_le (comparator column asc)) l' ->
  (forall k, orderable column k ->
     filter (cmp_tie (comparator column asc) k) l'
     = filter (cmp_tie (comparator column asc) k) l) ->
  l' = Array_sort (comparator column asc) l.
Proof.
  apply Array_sort_unique.
  - apply comparator_total.
  - apply comparator_trans.
Qed.

(** ** The Sorter *)

Lemma mem_string_In k l : mem_string k l = true <-> In k l.
Proof.
  unfold mem_string. rewrite existsb_exists. split.
  - intros (x & Hx & E). apply String.eqb_eq in E. now subst.
  - intros H. exists k. split; [assumption|apply String.eqb_refl].
Qed.

Lemma sortTable_guard column st :
  tableBuilt st = false \/ tableData st = []
  \/ (column_in_row column = false /\ column <> "body") ->
  sortTable column st = st.
Proof.
  unfold sortTable. intros [H|[H|[H1 H2]]].
  - now rewrite H.
  - rewrite H. cbn. now rewrite orb_true_r.
  - rewrite H1. apply String.eqb_neq in H2. rewrite H2. cbn.
    now destruct (negb (tableBuilt st) || _).
Qed.

Lemma sortTable_sorts column st :
  tableBuilt st = true -> tableData st <> [] ->
  column_in_row column = true \/ column = "body" ->
  sortTable column st
  = {| tableData := Array_sort (comparator column (sortAsc st)) (tableData st);
       tableBuilt := true;
       sortAsc := negb (sortAsc st) |}.
Proof.
  intros Hb Hd Hc. unfold sortTable. rewrite Hb.
  destruct (tableData st) as [|r l] eqn:E; [congruence|]. cbn [negb orb List.length Nat.eqb].
  destruct Hc as [Hc|Hc].
  - now rewrite Hc.
  - subst column. reflexivity.
Qed.

(** C7, as stated, fails: [toString] is no column of a Comment Record
    and is not [body], yet on a built table that is not empty
    [sortTable] does not return at once for it: the name is inherited
    from [Object.prototype], so it passes the test [column in
    tableData[0]], and the flag is negated. *)
Lemma sortTable_toString_negates_the_flag :
  let rows := flat_sequence [T1 (sample_comment "b" 2) None;
                             T1 (sample_comment "a" 1) None] in
  let st := {| tableData := rows; tableBuilt := true; sortAsc := true |} in
  ~ In "toString" row_keys
  /\ "toString" <> "body"
  /\ sortTable "toString" st
     = {| tableData := rows; tableBuilt := true; sortAsc := false |}
  /\ sortTable "toString" st <> st.
Proof.
  intros rows st. split; [|split; [discriminate|split; [reflexivity|]]].
  - intros H. repeat (destruct H as [H|H]; [discriminate H|]). exact H.
  - intros H. apply (f_equal sortAsc) in H. discriminate H.
Qed.

(** C7, amended.  [sortTable] returns at once, with the sequence and the
    flag as they were, when the table was not built for the export, when
    the sequence is empty, or when the column is not [body] and is
    neither a column of a record nor a name that a record inherits from
    [Object.prototype]; otherwise it sorts, and the flag is negated
    whatever the column.  What the sort leaves is stated for the records
    the comparator can order: for the column [score], those whose score
    is a number. *)
Theorem sortTable_noop_or_toggle (column : string) (st : state) :
  (tableBuilt st = false \/ tableData st = []
   \/ (~ In column row_keys /\ ~ In column Object_prototype_keys
       /\ column <> "body") ->
   sortTable column st = st)
  /\ (tableBuilt st = true -> tableData st <> [] ->
      In column row_keys \/ In column Object_prototype_keys \/ column = "body" ->
      sortAsc (sortTable column st) = negb (sortAsc st)
      /\ tableBuilt (sortTable column st) = true
      /\ (Forall (orderable column) (tableData st) ->
          tableData (sortTable column st)
          = Array_sort (comparator column (sortAsc st)) (tableData st)
          /\ Permutation (tableData st) (tableData (sortTable column st)))).
Proof.
  assert (Hin : column_in_row column = true
                <-> In column row_keys \/ In column Object_prototype_keys).
  { unfold column_in_row. now rewrite orb_true_iff, !mem_string_In. }
  split.
  - intros [H|[H|(H1 & H2 & H3)]]; apply sortTable_guard; auto.
    right; right. split; [|assumption].
    destruct (column_in_row column) eqn:E; [|reflexivity].
    exfalso. destruct (proj1 Hin eq_refl); tauto.
  - intros Hb Hd Hc.
    assert (Hc' : column_in_row column = true \/ column = "body").
    { destruct Hc as [Hc|[Hc|Hc]]; [left; apply Hin; now left
                                   |left; apply Hin; now right|now right]. }
    rewrite (sortTable_sorts column st Hb Hd Hc').
    cbn [sortAsc tableBuilt tableData]. repeat split. apply Array_sort_perm.
Qed.

Lemma sortTable_noop_or_toggle_witness :
  let rows := flat_sequence [T1 (sample_comment "a" 1) None;
                             T1 (sample_comment "b" 2) None] in
  let st := {| tableData := rows; tableBuilt := true; sortAsc := true |} in
  sortTable "nothing" st = st
  /\ sortTable "author" {| tableData := rows; tableBuilt := false; sortAsc := true |}
     = {| tableData := rows; tableBuilt := false; sortAsc := true |}
  /\ sortAsc (sortTable "author" st) = false
  /\ sortAsc (sortTable "valueOf" st) = false
  /\ sortAsc (sortTable "upvotes" (sortTable "author" st)) = true.
Proof.
  intros rows st.
  split; [|split; [|split; [|split]]].
  - apply (proj1 (sortTable_noop_or_toggle "nothing" st)).
    right; right. split; [|split; [|discriminate]];
      intros H; repeat (destruct H as [H|H]; [discriminate H|]); exact H.
  - apply (proj1 (sortTable_noop_or_toggle "author" _)). left. reflexivity.
  - apply (proj2 (sortTable_noop_or_toggle "author" st));
      [reflexivity|discriminate|left; right; right; right; left; reflexivity].
  - apply (proj2 (sortTable_noop_or_toggle "valueOf" st));
      [reflexivity|discriminate|right; left].
    repeat (try (left; reflexivity); right).
  - apply (proj2 (sortTable_noop_or_toggle "upvotes" (sortTable "author" st)));
      [reflexivity|discriminate|left].
    repeat (try (left; reflexivity); right).
Defined.

(** A column inherited from [Object.prototype] passes the [in] test: the
    order stays and the flag is negated. *)
Example sortTable_inherited_column :
  let rows := flat_sequence [T1 (sample_comment "b" 2) None;
                             T1 (sample_comment "a" 1) None] in
  sortTable "toString" {| tableData := rows; tableBuilt := true; sortAsc := true |}
  = {| tableData := rows; tableBuilt := true; sortAsc := false |}.
Proof. reflexivity. Qed.

Lemma compares_less_column_order column x y :
  orderable column x -> orderable column y ->
  compares_less column x y <-> (column_order column x y < 0)%Z.
Proof.
  intros Hx Hy. unfold compares_less.
  now rewrite comparator_column_order by assumption.
Qed.

Lemma before_two {A} (x y a b : A) : before x y [a; b] -> x = a /\ y = b.
Proof.
  intros (l1 & l2 & l3 & E).
  destruct l1 as [|u l1]; cbn in E.
  - injection E as <- E. destruct l2 as [|v l2]; cbn in E.
    + injection E as <- _. auto.
    + injection E as _ E. destruct l2; discriminate.
  - injection E as _ E. destruct l1 as [|v l1]; cbn in E.
    + injection E as _ E. destruct l2; discriminate.
    + injection E as _ E. destruct l1; discriminate.
Qed.

(** C5, as stated, fails: two records in ascending order of [level],
    sorted twice by [level] from the initial flag, end in descending
    order, so the pair has lost its original relative order. *)
Lemma sortTable_twice_not_original_order :
  let x := make_row [1] (sample_comment "a" 1) in
  let y := make_row [1; 1] (sample_comment "b" 2) in
  let st := {| tableData := [x; y]; tableBuilt := true; sortAsc := true |} in
  flat_sequence [T1 (sample_comment "a" 1) (Some [T1 (sample_comment "b" 2) None])]
  = tableData st
  /\ compares_less "level" x y
  /\ before x y (tableData st)
  /\ tableData (sortTable "level" (sortTable "level" st)) = [y; x]
  /\ ~ before x y (tableData (sortTable "level" (sortTable "level" st))).
Proof.
  intros x y st. split; [reflexivity|]. split; [reflexivity|].
  split; [now exists [], [], []|]. split; [reflexivity|].
  change (tableData (sortTable "level" (sortTable "level" st))) with [y; x].
  intros H. apply before_two in H. destruct H as [H _]. discriminate H.
Qed.

(** C5, amended.  Two sorts in a row on one column restore the direction
    flag and keep the records; a pair that compares unequal under the
    column's rule stands, after the second sort, in the order opposite
    to the one the first sort gave it: smaller first then larger first
    when the flag began ascending, the other way round otherwise.  For
    the column [score] the scores are required to be numbers. *)
Theorem sortTable_twice_reverses
  (column : string) (st : state) (x y : row)
  (Hbuilt : tableBuilt st = true)
  (Hcolumn : column_in_row column = true)
  (Hrows : Forall (orderable column) (tableData st))
  (Hx : In x (tableData st)) (Hy : In y (tableData st))
  (Hless : compares_less column x y) :
  let st1 := sortTable column st in
  let st2 := sortTable column st1 in
  sortAsc st2 = sortAsc st
  /\ Permutation (tableData st) (tableData st2)
  /\ (if sortAsc st
      then before x y (tableData st1) /\ ~ before y x (tableData st1)
           /\ before y x (tableData st2) /\ ~ before x y (tableData st2)
      else before y x (tableData st1) /\ ~ before x y (tableData st1)
           /\ before x y (tableData st2) /\ ~ before y x (tableData st2)).
Proof.
  intros st1 st2.
  assert (Hne : tableData st <> []) by (intros E; rewrite E in Hx; contradiction).
  assert (E1 : st1 = {| tableData := Array_sort (comparator column (sortAsc st)) (tableData st);
                        tableBuilt := true; sortAsc := negb (sortAsc st) |}).
  { apply sortTable_sorts; auto. }
  assert (Hne1 : tableData st1 <> []).
  { rewrite E1. cbn [tableData]. intros E.
    apply (f_equal (@List.length row)) in E. rewrite Array_sort_length in E.
    destruct (tableData st); [congruence|discriminate]. }
  assert (E2 : st2 = {| tableData := Array_sort (comparator column (sortAsc st1)) (tableData st1);
                        tableBuilt := true; sortAsc := negb (sortAsc st1) |}).
  { apply sortTable_sorts; auto. rewrite E1. reflexivity. }
  assert (Hrows1 : Forall (orderable column) (tableData st1)).
  { rewrite E1. cbn [tableData]. rewrite Forall_forall in *.
    intros r Hr. apply Hrows. now apply Array_sort_In in Hr. }
  assert (Ox : orderable column x) by (rewrite Forall_forall in Hrows; auto).
  assert (Oy : orderable column y) by (rewrite Forall_forall in Hrows; auto).
  apply compares_less_column_order in Hless; [|assumption|assumption].
  pose proof (column_order_antisym column x y) as Hanti.
  assert (Hxy : x = y -> False).
  { intros ->. lia. }
  assert (S1 : StronglySorted (cmp_le (comparator column (sortAsc st))) (tableData st1)).
  { rewrite E1. cbn [tableData]. now apply sort_by_column_sorted. }
  assert (S2 : StronglySorted (cmp_le (comparator column (negb (sortAsc st)))) (tableData st2)).
  { rewrite E2. cbn [tableData]. replace (sortAsc st1) with (negb (sortAsc st))
      by (rewrite E1; reflexivity).
    now apply sort_by_column_sorted. }
  assert (In1 : forall r, In r (tableData st) -> In r (tableData st1)).
  { intros r Hr. rewrite E1. cbn [tableData]. now apply Array_sort_In. }
  assert (In2 : forall r, In r (tableData st) -> In r (tableData st2)).
  { intros r Hr. rewrite E2. cbn [tableData]. apply Array_sort_In. auto. }
  split; [|split].
  - rewrite E2. cbn [sortAsc]. rewrite E1. cbn [sortAsc]. apply negb_involutive.
  - rewrite E2. cbn [tableData]. rewrite <- Array_sort_perm.
    rewrite E1. cbn [tableData]. apply Array_sort_perm.
  - destruct (sortAsc st) eqn:Easc; cbn [negb] in S2.
    + destruct (sorted_strict_before _ x y _ S1) as [A B]; auto.
      { rewrite cmp_le_column_order by assumption. lia. }
      destruct (sorted_strict_before _ y x _ S2) as [C D]; auto.
      rewrite cmp_le_column_order by assumption. lia.
    + destruct (sorted_strict_before _ y x _ S1) as [A B]; auto.
      { rewrite cmp_le_column_order by assumption. lia. }
      destruct (sorted_strict_before _ x y _ S2) as [C D]; auto.
      rewrite cmp_le_column_order by assumption. lia.
Qed.

Lemma sortTable_twice_reverses_witness :
  let x := make_row [1] (sample_comment "a" 1) in
  let y := make_row [1; 1] (sample_comment "b" 2) in
  let st := {| tableData := [x; y]; tableBuilt := true; sortAsc := true |} in
  tableBuilt st = true /\ column_in_row "score" = true
  /\ Forall (orderable "score") (tableData st)
  /\ In x (tableData st) /\ In y (tableData st)
  /\ compares_less "score" x y
  /\ sortAsc (sortTable "score" (sortTable "score" st)) = sortAsc st
  /\ before y x (tableData (sortTable "score" (sortTable "score" st))).
Proof.
  intros x y st.
  assert (Hb : tableBuilt st = true) by reflexivity.
  assert (Hc : column_in_row "score" = true) by reflexivity.
  assert (Hr : Forall (orderable "score") (tableData st)).
  { repeat constructor; intros _; discriminate. }
  assert (Hx : In x (tableData st)) by (left; reflexivity).
  assert (Hy : In y (tableData st)) by (right; left; reflexivity).
  assert (Hl : compares_less "score" x y) by reflexivity.
  pose proof (sortTable_twice_reverses "score" st x y Hb Hc Hr Hx Hy Hl) as T.
  cbv zeta in T. destruct T as (T1 & _ & T3). cbn [sortAsc st] in T3.
  repeat split; try assumption. apply T3.
Defined.

(** ** The Date Formatter *)

(** The calendar model on known dates. *)
Example calendar_checks :
  civil_from_days 0 = (1970%Z, 1%Z, 1%Z)
  /\ WeekDay 0 = 4%Z
  /\ civil_from_days 11016 = (2000%Z, 2%Z, 29%Z)
  /\ civil_from_days (-1) = (1969%Z, 12%Z, 31%Z)
  /\ civil_from_days 20158 = (2025%Z, 3%Z, 11%Z)
  /\ toUTCString (new_Date 1741703950000) = "Tue, 11 Mar 2025 14:39:10 GMT".
Proof. repeat split; vm_compute; reflexivity. Qed.

(** From 1900 to 2199 the model of the UTC getters agrees, day by day,
    with the definitions of ECMAScript ([DayFromYear], [DaysInYear] and
    the month tables). *)
Lemma civil_from_days_agrees_with_ECMAScript :
  forallb (fun y =>
             forallb (fun i => civil_agrees y (DayFromYear y + Z.of_nat i))
                     (seq 0 (Z.to_nat (DaysInYear y))))
          (map (fun i => (1900 + Z.of_nat i)%Z) (seq 0 300))
  = true.
Proof. vm_compute. reflexivity. Qed.

(** The day of C8 in the terms of ECMAScript: 2025 begins on day 20089,
    and day 69 of a year of 365 days is March 11. *)
Example day_20158_is_2025_03_11 :
  (1741703950 * 1000 / msPerDay = 20158)%Z
  /\ DayFromYear 2025 = 20089%Z /\ DayFromYear 2026 = 20454%Z
  /\ month_and_day (month_lengths (DaysInYear 2025)) 1 (20158 - 20089)
     = (3%Z, 11%Z)
  /\ (1741703950 mod 86400 = 14 * 3600 + 39 * 60 + 10)%Z
  /\ (1741702750 mod 86400 = 14 * 3600 + 19 * 60 + 10)%Z.
Proof. repeat split. Qed.

(** C8, as stated, fails: 1741703950 is 14:39:10 on 2025-03-11, not
    14:19:10. *)
Lemma formatDate_1741703950_not_1419 :
  formatDate "iso8601" (Some 1741703950%Z) = Returns "2025-03-11T14:39:10+00:00"
  /\ formatDate "iso8601" (Some 1741703950%Z) <> Returns "2025-03-11T14:19:10+00:00"
  /\ formatDate "utc" (Some 1741703950%Z) <> Returns "2025-03-11T14:19:10Z".
Proof.
  split; [vm_compute; reflexivity|]. split; vm_compute; discriminate.
Qed.

(** C8, amended.  Epoch seconds 1741703950 give
    "2025-03-11T14:39:10+00:00" under [iso8601] and "2025-03-11T14:39:10Z"
    under [utc] (the strings of the claim are those of 1741702750), and
    an absent timestamp gives the empty string under every selector. *)
Theorem formatDate_examples :
  formatDate "iso8601" (Some 1741703950%Z) = Returns "2025-03-11T14:39:10+00:00"
  /\ formatDate "utc" (Some 1741703950%Z) = Returns "2025-03-11T14:39:10Z"
  /\ formatDate "iso8601" (Some 1741702750%Z) = Returns "2025-03-11T14:19:10+00:00"
  /\ formatDate "utc" (Some 1741702750%Z) = Returns "2025-03-11T14:19:10Z"
  /\ (forall selectedDateFormat, formatDate selectedDateFormat None = Returns "").
Proof.
  repeat split; vm_compute; reflexivity.
Qed.

(** C10.  The timestamp 0 is falsy: under every selector it formats to
    the empty string, like an absent timestamp; a comment created at the
    epoch even loses the timestamp when its record is built. *)
Theorem formatDate_zero_is_empty (selectedDateFormat : string) :
  formatDate selectedDateFormat (Some 0%Z) = Returns ""
  /\ formatDate selectedDateFormat (Some 0%Z) = formatDate selectedDateFormat None
  /\ (forall arr c, c_created_utc c = Present 0%Z ->
        dateUtc (make_row arr c) = None
        /\ formatDate selectedDateFormat (dateUtc (make_row arr c)) = Returns "").
Proof.
  repeat split; cbn [make_row dateUtc]; rewrite H; reflexivity.
Qed.

(** ** The snippet *)

Lemma substring_prefix_length n : forall s,
  n <= String.length s -> String.length (String.substring 0 n s) = n.
Proof.
  induction n as [|n IH]; intros [|c s] H; cbn in *; try reflexivity; try lia.
  f_equal. apply IH. lia.
Qed.

Lemma string_length_append (s t : string) :
  String.length (s ++ t)%string = String.length s + String.length t.
Proof. induction s as [|c s IH]; cbn; [reflexivity|now rewrite IH]. Qed.

Lemma str_or_nonempty v d : d <> "" -> str_or v d <> "".
Proof.
  intros Hd. unfold str_or. destruct v as [s|]; [|assumption].
  destruct (String.eqb_spec s ""); assumption.
Qed.

Lemma flat_sequence_body_nonempty comments r :
  In r (flat_sequence comments) -> body r <> "".
Proof.
  unfold flat_sequence. rewrite buildTableData_eq. cbn [app]. intros H.
  destruct (preorder_row _ _ _ H) as (arr & c & -> & _).
  cbn [make_row body]. apply str_or_nonempty. discriminate.
Qed.

(** C9, as stated, fails: the body is trimmed first, so a short body
    that ends with a space is not its own snippet. *)
Lemma createSnippet_trims :
  let c := sample_comment "Nice post " 1 in
  exists r, flat_sequence [T1 c None] = [r]
            /\ body r = "Nice post "
            /\ bodySnippet (make_node r) = "Nice post"
            /\ bodySnippet (make_node r) <> snippet_as_specified (body r).
Proof.
  eexists. repeat split. vm_compute. discriminate.
Qed.

(** C9, amended.  The snippet of a record is computed from its body with
    the white space at both ends removed: that trimmed body when it has
    at most 80 characters, its first 80 characters followed by "..."
    (83 characters in all) when it is longer; the sentinel "[deleted]"
    passes through unchanged. *)
Theorem createSnippet_of_record
  (comments : list child) (r : row) (Hr : In r (flat_sequence comments)) :
  let snippet := bodySnippet (make_node r) in
  (body r = "[deleted]" -> snippet = "[deleted]")
  /\ (body r <> "[deleted]" -> String.length (trim (body r)) <= 80 ->
      snippet = trim (body r))
  /\ (body r <> "[deleted]" -> 80 < String.length (trim (body r)) ->
      snippet = (slice0 80 (trim (body r)) ++ "...")%string
      /\ String.length snippet = 83).
Proof.
  pose proof (flat_sequence_body_nonempty _ _ Hr) as Hne.
  cbn [make_node bodySnippet]. unfold createSnippet.
  apply String.eqb_neq in Hne. rewrite Hne. cbn [orb].
  split; [|split].
  - intros ->. reflexivity.
  - intros Hd Hlen. apply String.eqb_neq in Hd. rewrite Hd.
    destruct (Nat.ltb_spec 80 (String.length (trim (body r)))); [lia|reflexivity].
  - intros Hd Hlen. apply String.eqb_neq in Hd. rewrite Hd.
    destruct (Nat.ltb_spec 80 (String.length (trim (body r)))); [|lia].
    split; [reflexivity|].
    rewrite string_length_append. unfold slice0.
    rewrite substring_prefix_length by lia. reflexivity.
Qed.

Lemma createSnippet_of_record_witness :
  let c := sample_comment "  a body that is padded with spaces  " 1 in
  let r := make_row [1] c in
  In r (flat_sequence [T1 c None])
  /\ bodySnippet (make_node r) = "a body that is padded with spaces".
Proof.
  intros c r.
  assert (Hr : In r (flat_sequence [T1 c None])) by (left; reflexivity).
  split; [assumption|].
  apply (proj1 (proj2 (createSnippet_of_record [T1 c None] r Hr))).
  - discriminate.
  - vm_compute. lia.
Defined.

(** ** The dictionary *)

Lemma dict_set_keys d k v :
  map fst (dict_set d k v) = if mem_string k (map fst d) then map fst d
                             else map fst d ++ [k].
Proof.
  induction d as [|[k' v'] d IH]; cbn; [reflexivity|].
  destruct (String.eqb_spec k' k) as [->|Hne]; cbn.
  - now rewrite String.eqb_refl.
  - assert (E : (k =? k') = false) by (apply String.eqb_neq; congruence).
    rewrite E, IH. cbn. unfold mem_string.
    now destruct (existsb (String.eqb k) (map fst d)).
Qed.

Lemma dict_set_In_keys d k v x :
  In x (map fst (dict_set d k v)) <-> x = k \/ In x (map fst d).
Proof.
  rewrite dict_set_keys. destruct (mem_string k (map fst d)) eqn:E.
  - apply mem_string_In in E. split; [auto|]. intros [->|H]; assumption.
  - rewrite in_app_iff. cbn. intuition.
Qed.

Lemma dict_set_NoDup d k v : NoDup (map fst d) -> NoDup (map fst (dict_set d k v)).
Proof.
  intros H. rewrite dict_set_keys. destruct (mem_string k (map fst d)) eqn:E;
    [assumption|].
  apply NoDup_app; [assumption|repeat constructor; intros []|].
  intros x Hx [<-|[]]. apply mem_string_In in Hx. congruence.
Qed.

Lemma dict_set_values d k v kv :
  In kv (dict_set d k v) -> kv = (k, v) \/ In kv d.
Proof.
  induction d as [|[k' v'] d IH]; cbn.
  - intros [<-|[]]. now left.
  - destruct (String.eqb_spec k' k) as [->|Hne]; cbn.
    + intros [<-|H]; auto.
    + intros [<-|H]; auto. destruct (IH H); auto.
Qed.

Lemma dict_assign_own o k v :
  own (dict_assign o k v)
  = if k =? "__proto__" then own o else dict_set (own o) k v.
Proof. unfold dict_assign. now destruct (k =? "__proto__"). Qed.

Lemma dict_assign_proto o k v :
  proto (dict_assign o k v) = if k =? "__proto__" then Some v else proto o.
Proof. unfold dict_assign. now destruct (k =? "__proto__"). Qed.

(** The own properties of the dictionary: one for each numbering of the
    data but [__proto__], each the node of a record. *)
Lemma buildNodeDictionary_spec data :
  let d := own (buildNodeDictionary data) in
  NoDup (map fst d)
  /\ (forall k, In k (map fst d)
                <-> In k (map numbering data) /\ k <> "__proto__")
  /\ (forall k n, In (k, n) d -> exists r, In r data /\ k = numbering r /\ n = make_node r).
Proof.
  unfold buildNodeDictionary.
  assert (G : forall o0,
    NoDup (map fst (own o0)) ->
    let d := own (fold_left (fun d r => dict_assign d (numbering r) (make_node r))
                            data o0) in
    NoDup (map fst d)
    /\ (forall k, In k (map fst d)
                  <-> In k (map fst (own o0))
                      \/ (In k (map numbering data) /\ k <> "__proto__"))
    /\ (forall k n, In (k, n) d ->
          In (k, n) (own o0)
          \/ exists r, In r data /\ k = numbering r /\ n = make_node r)).
  { induction data as [|r data IH]; intros o0 H0; cbn [fold_left map].
    - repeat split; cbn; intuition.
    - assert (H1 : NoDup (map fst (own (dict_assign o0 (numbering r) (make_node r))))).
      { rewrite dict_assign_own. destruct (numbering r =? "__proto__");
          [assumption|now apply dict_set_NoDup]. }
      specialize (IH _ H1). cbv zeta in IH. destruct IH as (I1 & I2 & I3).
      split; [assumption|]. split.
      + intros k. rewrite I2, dict_assign_own.
        destruct (String.eqb_spec (numbering r) "__proto__") as [E|E].
        * cbn [In]. rewrite E. intuition congruence.
        * rewrite dict_set_In_keys. cbn [In]. intuition congruence.
      + intros k n H. destruct (I3 k n H) as [Hd|(r' & ? & ? & ?)].
        * rewrite dict_assign_own in Hd.
          destruct (numbering r =? "__proto__"); [now left|].
          apply dict_set_values in Hd. destruct Hd as [E|Hd]; [|now left].
          injection E as -> ->. right. exists r. cbn. auto.
        * right. exists r'. cbn. auto. }
  destruct (G {| own := []; proto := None |} (NoDup_nil _)) as (G1 & G2 & G3).
  cbv zeta. split; [assumption|]. split.
  - intros k. rewrite G2. cbn. intuition.
  - intros k n H. destruct (G3 k n H) as [[]|?]. assumption.
Qed.

(** Without a record numbered [__proto__] the prototype stays
    [Object.prototype]. *)
Lemma buildNodeDictionary_proto_None data :
  ~ In "__proto__" (map numbering data) -> proto (buildNodeDictionary data) = None.
Proof.
  unfold buildNodeDictionary.
  assert (G : forall o0, ~ In "__proto__" (map numbering data) ->
            proto (fold_left (fun d r => dict_assign d (numbering r) (make_node r))
                             data o0) = proto o0).
  { induction data as [|r data IH]; intros o0 H; [reflexivity|].
    cbn [fold_left]. rewrite IH by (intros Hin; apply H; now right).
    rewrite dict_assign_proto.
    destruct (String.eqb_spec (numbering r) "__proto__") as [E|E]; [|reflexivity].
    exfalso. apply H. now left. }
  intros H. now rewrite G.
Qed.

Lemma make_node_parent r : parentId (make_node r) = parent_of (numbering r).
Proof. reflexivity. Qed.

Lemma dict_own_In d k n : dict_own d k = Some n -> In (k, n) d.
Proof.
  induction d as [|[k' v] d IH]; cbn; [discriminate|].
  destruct (String.eqb_spec k' k) as [->|Hne].
  - intros [= ->]. now left.
  - intros H. right. auto.
Qed.

Lemma dict_own_None d k : dict_own d k = None <-> ~ In k (map fst d).
Proof.
  induction d as [|[k' v] d IH]; cbn; [intuition|].
  destruct (String.eqb_spec k' k) as [->|Hne].
  - split; [discriminate|]. intros H. exfalso. auto.
  - rewrite IH. intuition.
Qed.

Lemma dict_own_NoDup d k n :
  NoDup (map fst d) -> In (k, n) d -> dict_own d k = Some n.
Proof.
  induction d as [|[k' v] d IH]; cbn; [contradiction|].
  intros Hnd [E|H].
  - injection E as -> ->. now rewrite String.eqb_refl.
  - inversion Hnd as [|? ? Hk Hnd']; subst.
    destruct (String.eqb_spec k' k) as [->|Hne].
    + exfalso. apply Hk. apply in_map_iff. now exists (k, n).
    + auto.
Qed.

Lemma dict_own_map (f : string -> node -> node) d k :
  dict_own (map (fun kv => (fst kv, f (fst kv) (snd kv))) d) k
  = option_map (f k) (dict_own d k).
Proof.
  induction d as [|[k' v] d IH]; cbn; [reflexivity|].
  destruct (String.eqb_spec k' k) as [->|Hne]; [reflexivity|assumption].
Qed.

(** ** [Object.values] and the second [forEach] *)

Lemma Object_values_perm d : Permutation (Object_values d) (map snd d).
Proof.
  unfold Object_values.
  rewrite <- (Permutation_map snd (Array_sort_perm index_order _)).
  induction d as [|[k v] d IH]; cbn; [constructor|].
  destruct (array_index k); cbn.
  - now constructor.
  - rewrite <- Permutation_middle. now constructor.
Qed.

Lemma Object_values_In d n : In n (Object_values d) <-> In n (map snd d).
Proof.
  split; apply Permutation_in; [|symmetry]; apply Object_values_perm.
Qed.

Lemma child_keys_app l1 l2 k :
  child_keys (l1 ++ l2) k = child_keys l1 k ++ child_keys l2 k.
Proof. unfold child_keys. now rewrite filter_app, map_app. Qed.

Lemma child_keys_one n k :
  child_keys [n] k
  = match parentId n with
    | Some p => if negb (p =? "") && (p =? k) then [node_id n] else []
    | None => []
    end.
Proof.
  unfold child_keys. cbn. destruct (parentId n) as [p|]; [|reflexivity].
  now destruct (negb (p =? "") && (p =? k)).
Qed.

Lemma linked_nil d :
  linked (init_nodes d) [] = {| root_children := []; nodes := init_nodes d |}.
Proof.
  unfold linked, init_nodes. cbn [filter map child_keys]. f_equal.
  rewrite map_map. apply map_ext. intros [k v]. reflexivity.
Qed.

(** One turn of the second [forEach] takes the store past one more node,
    unless the parent id of the node reads a member of
    [Object.prototype]. *)
Lemma link_step_linked pr d done n :
  (forall p, parentId n = Some p -> p <> "" -> ~ In p (map fst d) ->
             inherited pr p = false) ->
  link_step pr (Returns (linked d done)) n = Returns (linked d (done ++ [n])).
Proof.
  intros Hn.
  assert (Hroot : root_children (linked d (done ++ [n]))
                  = root_children (linked d done)
                    ++ (if is_top n then [node_id n] else [])).
  { unfold linked. cbn [root_children]. rewrite filter_app, map_app. cbn [filter].
    now destruct (is_top n). }
  assert (Hkeys : forall k,
    child_keys (done ++ [n]) k
    = child_keys done k
      ++ match parentId n with
         | Some p => if negb (p =? "") && (p =? k) then [node_id n] else []
         | None => []
         end).
  { intros k. now rewrite child_keys_app, child_keys_one. }
  unfold link_step.
  destruct (parentId n) as [p|] eqn:Ep.
  2:{ assert (Et : is_top n = true) by (unfold is_top; now rewrite Ep).
      rewrite Et in Hroot. f_equal. unfold linked in *. cbn [root_children nodes] in *.
      rewrite Hroot. f_equal. apply map_ext. intros kv.
      now rewrite Hkeys, app_nil_r. }
  destruct (String.eqb_spec p "") as [->|Hp].
  { assert (Et : is_top n = true) by (unfold is_top; now rewrite Ep).
    rewrite Et in Hroot. f_equal. unfold linked in *. cbn [root_children nodes] in *.
    rewrite Hroot. f_equal. apply map_ext. intros kv.
    now rewrite Hkeys, app_nil_r. }
  assert (Et : is_top n = false).
  { unfold is_top. rewrite Ep. now apply String.eqb_neq. }
  rewrite Et, app_nil_r in Hroot.
  apply String.eqb_neq in Hp.
  unfold dict_get, linked in *. cbn [root_children nodes own proto] in *.
  rewrite (dict_own_map (fun k v => set_children_count v (child_keys done k) (count v))).
  destruct (dict_own d p) as [n0|] eqn:Eo; cbn [option_map].
  - f_equal. rewrite Hroot. f_equal. unfold push_child. rewrite map_map.
    apply map_ext. intros kv. cbn [fst snd]. rewrite Hkeys. cbn [negb andb].
    rewrite (String.eqb_sym (fst kv) p).
    destruct (p =? fst kv); [reflexivity|]. now rewrite app_nil_r.
  - apply dict_own_None in Eo.
    rewrite (Hn p eq_refl (proj1 (String.eqb_neq _ _) Hp) Eo).
    f_equal. rewrite Hroot. f_equal. apply map_ext_in. intros kv Hkv.
    rewrite Hkeys.
    assert (E : (p =? fst kv) = false).
    { apply String.eqb_neq. intros ->. apply Eo. now apply in_map. }
    rewrite E, andb_false_r, app_nil_r. reflexivity.
Qed.

Lemma link_loop_linked pr d l : forall done,
  (forall n p, In n l -> parentId n = Some p -> p <> "" -> ~ In p (map fst d) ->
               inherited pr p = false) ->
  fold_left (link_step pr) l (Returns (linked d done))
  = Returns (linked d (done ++ l)).
Proof.
  induction l as [|n l IH]; intros done H; cbn [fold_left].
  - now rewrite app_nil_r.
  - rewrite link_step_linked.
    + rewrite IH; [now rewrite <- app_assoc|]. intros m p Hm. apply H. now right.
    + intros p. apply H. now left.
Qed.

(** ** Parent ids *)

Lemma string_append_assoc (a b c : string) :
  ((a ++ b) ++ c)%string = (a ++ b ++ c)%string.
Proof. induction a as [|x a IH]; cbn; [reflexivity|now rewrite IH]. Qed.

Lemma join_app_last sep init (l : string) :
  init <> [] ->
  join sep (init ++ [l]) = (join sep init ++ sep ++ l)%string.
Proof.
  induction init as [|x init IH]; intros Hne; [congruence|].
  destruct init as [|y init].
  - reflexivity.
  - change (join sep ((x :: y :: init) ++ [l]))
      with (x ++ sep ++ join sep ((y :: init) ++ [l]))%string.
    rewrite IH by discriminate.
    change (join sep (x :: y :: init)) with (x ++ sep ++ join sep (y :: init))%string.
    now rewrite !string_append_assoc.
Qed.

(** A numbering with a parent id is that id, a dot and one more
    segment. *)
Lemma parent_of_Some c k :
  parent_of c = Some k ->
  exists l, split "." c = split "." k ++ [l]
            /\ String.length c = String.length k + 1 + String.length l.
Proof.
  unfold parent_of, segments, slice_init.
  destruct (Nat.ltb_spec 1 (List.length (split "." c))) as [Hlen|]; [|discriminate].
  intros [= <-].
  destruct (exists_last (split_nonempty "." c)) as (init & l & E).
  assert (Hinit : init <> []).
  { intros ->. rewrite E in Hlen. cbn in Hlen. lia. }
  pose proof (split_all_no_sep "." c) as Hall. rewrite E in *.
  rewrite removelast_last. exists l. split.
  - f_equal. symmetry. apply split_join; [assumption|].
    apply Forall_app in Hall. tauto.
  - rewrite <- (join_split "." c) at 1. rewrite E, join_app_last by assumption.
    rewrite !string_length_append. cbn. lia.
Qed.

Lemma parent_of_segments c k :
  parent_of c = Some k -> segments c = S (segments k).
Proof.
  intros H. destruct (parent_of_Some _ _ H) as (l & E & _).
  unfold segments. rewrite E, length_app. cbn. lia.
Qed.

Lemma parent_of_None c : parent_of c = None <-> segments c = 1.
Proof.
  unfold parent_of, segments. pose proof (split_nonempty "." c).
  destruct (split "." c) as [|x [|y l]]; [congruence|cbn; tauto|].
  cbn. split; [discriminate|lia].
Qed.

Lemma is_child_of_spec k c :
  is_child_of k c = true <-> parent_of c = Some k /\ k <> "".
Proof.
  unfold is_child_of. destruct (parent_of c) as [p|]; [|split; [discriminate|intros [[=] _]]].
  rewrite andb_true_iff, negb_true_iff, String.eqb_neq, String.eqb_eq.
  split.
  - intros [H ->]. auto.
  - intros [[= ->] H]. auto.
Qed.

(** Two numberings with as many segments that both begin the segments
    of a third are equal. *)
Lemma same_prefix_eq c1 c2 x s1 s2 :
  segments c1 = segments c2 ->
  split "." x = split "." c1 ++ s1 -> split "." x = split "." c2 ++ s2 ->
  c1 = c2.
Proof.
  unfold segments. intros Hlen E1 E2.
  rewrite <- (join_split "." c1), <- (join_split "." c2). f_equal.
  rewrite E1 in E2. clear E1.
  revert Hlen E2. generalize (split "." c1) as a, (split "." c2) as b.
  induction a as [|u a IH]; intros [|v b] Hlen E; try discriminate; [reflexivity|].
  cbn in *. injection E as -> E. f_equal. apply IH; [lia|assumption].
Qed.

(** ** The graph under a key *)

Lemma map_option_Forall2 {A B} (f : A -> option B) l l' :
  map_option f l = Some l' <-> Forall2 (fun x y => f x = Some y) l l'.
Proof.
  revert l'. induction l as [|x l IH]; intros l'; cbn.
  - split; [intros [= <-]; constructor|intros H; now inversion H].
  - destruct (f x) as [y|] eqn:E.
    + destruct (map_option f l) as [ys|] eqn:E'.
      * split.
        -- intros [= <-]. constructor; [assumption|]. now apply IH.
        -- intros H. inversion H as [|? ? ? ? Hy Hl]; subst.
           apply IH in Hl. congruence.
      * split; [discriminate|]. intros H. inversion H as [|? ? ? ? Hy Hl]; subst.
        apply IH in Hl. discriminate.
    + split; [discriminate|]. intros H. inversion H; subst. congruence.
Qed.

Lemma map_option_total {A B} (f : A -> option B) l :
  (forall x, In x l -> exists y, f x = Some y) -> exists l', map_option f l = Some l'.
Proof.
  induction l as [|x l IH]; intros H; cbn; [eauto|].
  destruct (H x (or_introl eq_refl)) as [y ->].
  destruct IH as [ys ->]; [intros; apply H; now right|]. eauto.
Qed.

Lemma Forall2_In_l {A B} (R : A -> B -> Prop) l l' x :
  Forall2 R l l' -> In x l -> exists y, In y l' /\ R x y.
Proof.
  induction 1 as [|a b l l' Hab _ IH]; [contradiction|].
  intros [<-|H]; [exists b; cbn; auto|].
  destruct (IH H) as (y & ? & ?). exists y. cbn. auto.
Qed.

Lemma Forall2_In_r {A B} (R : A -> B -> Prop) l l' y :
  Forall2 R l l' -> In y l' -> exists x, In x l /\ R x y.
Proof.
  induction 1 as [|a b l l' Hab _ IH]; [contradiction|].
  intros [<-|H]; [exists a; cbn; auto|].
  destruct (IH H) as (x & ? & ?). exists x. cbn. auto.
Qed.

Lemma NoDup_flat_map_Forall2 {A B C} (R : A -> B -> Prop) (f : B -> list C)
  (P : A -> C -> Prop) l l' :
  Forall2 R l l' -> NoDup l ->
  (forall a b, In a l -> R a b -> NoDup (f b) /\ forall x, In x (f b) -> P a x) ->
  (forall a1 a2 x, In a1 l -> In a2 l -> P a1 x -> P a2 x -> a1 = a2) ->
  NoDup (flat_map f l').
Proof.
  induction 1 as [|a b l l' Hab HF IH]; intros Hnd HR HP; cbn; [constructor|].
  inversion Hnd as [|? ? Ha Hnd']; subst.
  apply NoDup_app.
  - apply (HR a b); [now left|assumption].
  - apply IH; [assumption| |].
    + intros a' b' Ha'. apply HR. now right.
    + intros a1 a2 x H1 H2. apply HP; now right.
  - intros x Hx Hx'. apply in_flat_map in Hx'. destruct Hx' as (b' & Hb' & Hxb').
    destruct (Forall2_In_r _ _ _ _ HF Hb') as (a' & Ha' & Rab').
    assert (a = a').
    { apply (HP a a' x); [now left|now right| |].
      - apply (HR a b); [now left|assumption|assumption].
      - apply (HR a' b'); [now right|assumption|assumption]. }
    subst a'. contradiction.
Qed.

Section graph.
Variable N : dict.
Variable order : list string.

Hypothesis N_nodes : forall k n,
  dict_own N k = Some n ->
  node_id n = k /\ parentId n = parent_of k /\ children n = kids_of order k
  /\ In k order.
Hypothesis N_keys : forall k, In k order -> exists n, dict_own N k = Some n.
Hypothesis order_NoDup : NoDup order.

Lemma graph_of_ind (Q : string -> htree -> Prop) :
  (forall k n kids,
      dict_own N k = Some n -> Forall2 Q (kids_of order k) kids ->
      Q k (HNode (CommentNode k (parent_of k) (node_score n) (bodySnippet n)
                              (fullNumbering n)) kids (count n))) ->
  forall fuel k t, graph_of fuel N k = Some t -> Q k t.
Proof.
  intros Hstep. induction fuel as [|fuel IH]; intros k t; cbn [graph_of];
    [discriminate|].
  destruct (dict_own N k) as [n|] eqn:En; [|discriminate].
  destruct (map_option (graph_of fuel N) (children n)) as [kids|] eqn:Ek;
    [|discriminate].
  intros [= <-]. destruct (N_nodes k n En) as (-> & -> & Ec & _).
  apply Hstep; [assumption|]. rewrite <- Ec.
  apply map_option_Forall2 in Ek.
  clear Ec. induction Ek; constructor; auto.
Qed.

Lemma kids_of_In k c :
  In c (kids_of order k) <-> In c order /\ parent_of c = Some k /\ k <> "".
Proof. unfold kids_of. now rewrite filter_In, is_child_of_spec. Qed.

Lemma graph_of_total bound :
  (forall k, In k order -> String.length k < bound) ->
  forall fuel k, In k order -> bound - String.length k < fuel ->
                 exists t, graph_of fuel N k = Some t.
Proof.
  intros Hb. induction fuel as [|fuel IH]; intros k Hk Hf; [lia|].
  cbn [graph_of]. destruct (N_keys k Hk) as [n En]. rewrite En.
  destruct (N_nodes k n En) as (_ & _ & Ec & _).
  destruct (map_option_total (graph_of fuel N) (children n)) as [kids ->];
    [|eauto].
  intros c Hc. rewrite Ec in Hc. apply kids_of_In in Hc.
  destruct Hc as (Hc & Hp & _).
  destruct (parent_of_Some _ _ Hp) as (l & _ & Hlen).
  apply IH; [assumption|]. specialize (Hb c Hc). lia.
Qed.

(** The root of the graph under [k] is the node of [k], and its
    children are the nodes pushed under [k], in order. *)
Lemma graph_of_root fuel k t :
  graph_of fuel N k = Some t ->
  tree_id t = Some k
  /\ map tree_id (tree_children t) = map Some (kids_of order k).
Proof.
  revert fuel k t.
  apply (graph_of_ind (fun k t =>
    tree_id t = Some k /\ map tree_id (tree_children t) = map Some (kids_of order k))).
  intros k n kids _ H. split; [reflexivity|]. cbn [tree_children].
  induction H as [|c t l l' [Hc _] _ IH]; cbn; [reflexivity|]. now rewrite Hc, IH.
Qed.

(** Every id of the graph is a key that extends the segments of the
    root's. *)
Lemma graph_of_ids fuel k t :
  graph_of fuel N k = Some t ->
  forall x, In x (comment_ids t) ->
            In x order /\ exists s, split "." x = split "." k ++ s.
Proof.
  revert fuel k t.
  apply (graph_of_ind (fun k t => forall x, In x (comment_ids t) ->
            In x order /\ exists s, split "." x = split "." k ++ s)).
  intros k n kids En H x. cbn [comment_ids label_id app].
  intros [<-|Hx].
  - split; [apply (N_nodes _ _ En)|]. exists []. now rewrite app_nil_r.
  - apply in_flat_map in Hx. destruct Hx as (t & Ht & Hx).
    destruct (Forall2_In_r _ _ _ _ H Ht) as (c & Hc & Q).
    destruct (Q x Hx) as (Ho & s & Es). split; [assumption|].
    apply kids_of_In in Hc. destruct Hc as (_ & Hp & _).
    destruct (parent_of_Some _ _ Hp) as (l & El & _).
    exists (l :: s). rewrite Es, El, <- app_assoc. reflexivity.
Qed.

Lemma graph_of_head fuel k t :
  graph_of fuel N k = Some t -> In k (comment_ids t).
Proof.
  revert fuel k t. apply (graph_of_ind (fun k t => In k (comment_ids t))).
  intros k n kids _ _. now left.
Qed.

Lemma kids_of_NoDup k : NoDup (kids_of order k).
Proof. unfold kids_of. now apply NoDup_filter. Qed.

Lemma graph_of_NoDup fuel k t :
  graph_of fuel N k = Some t -> NoDup (comment_ids t).
Proof.
  intros H.
  enough (G : NoDup (comment_ids t)
              /\ forall x, In x (comment_ids t) ->
                           exists s, split "." x = split "." k ++ s) by apply G.
  revert fuel k t H.
  apply (graph_of_ind (fun k t => NoDup (comment_ids t)
              /\ forall x, In x (comment_ids t) ->
                           exists s, split "." x = split "." k ++ s)).
  intros k n kids En H.
  assert (Hsub : forall x, In x (flat_map comment_ids kids) ->
                   exists c l s, In c (kids_of order k)
                                 /\ split "." c = split "." k ++ [l]
                                 /\ split "." x = split "." c ++ s).
  { intros x Hx. apply in_flat_map in Hx. destruct Hx as (t & Ht & Hx).
    destruct (Forall2_In_r _ _ _ _ H Ht) as (c & Hc & _ & Q).
    destruct (Q x Hx) as (s & Es).
    pose proof Hc as Hc'. apply kids_of_In in Hc'. destruct Hc' as (_ & Hp & _).
    destruct (parent_of_Some _ _ Hp) as (l & El & _). eauto 7. }
  cbn [comment_ids label_id app]. split.
  - constructor.
    + intros Hk. destruct (Hsub k Hk) as (c & l & s & _ & El & Es).
      rewrite El, <- app_assoc in Es.
      apply (f_equal (@List.length string)) in Es.
      rewrite !length_app in Es. cbn in Es. lia.
    + apply (NoDup_flat_map_Forall2 _ comment_ids
               (fun c x => In c (kids_of order k)
                           /\ exists s, split "." x = split "." c ++ s)
               _ _ H (kids_of_NoDup k)).
      * intros c t Hc [Hnd Q]. split; [assumption|]. auto.
      * intros c1 c2 x _ _ [H1 (s1 & E1)] [H2 (s2 & E2)].
        apply kids_of_In in H1, H2.
        destruct H1 as (_ & P1 & _), H2 as (_ & P2 & _).
        apply (same_prefix_eq c1 c2 x s1 s2); [|assumption|assumption].
        now rewrite (parent_of_segments _ _ P1), (parent_of_segments _ _ P2).
  - intros x [<-|Hx].
    + exists []. now rewrite app_nil_r.
    + destruct (Hsub x Hx) as (c & l & s & _ & El & Es).
      exists (l :: s). rewrite Es, El, <- app_assoc. reflexivity.
Qed.

(** The graph holds the nodes pushed under each of its nodes. *)
Lemma graph_of_closed fuel k t :
  graph_of fuel N k = Some t ->
  forall x c, In x (comment_ids t) -> In c (kids_of order x) ->
              In c (comment_ids t).
Proof.
  intros H.
  enough (G : In k (comment_ids t)
              /\ forall x c, In x (comment_ids t) -> In c (kids_of order x) ->
                             In c (comment_ids t)) by apply G.
  revert fuel k t H.
  apply (graph_of_ind (fun k t => In k (comment_ids t)
              /\ forall x c, In x (comment_ids t) -> In c (kids_of order x) ->
                             In c (comment_ids t))).
  intros k n kids En H. cbn [comment_ids label_id app]. split; [now left|].
  intros x c [<-|Hx] Hc.
  - right. destruct (Forall2_In_l _ _ _ _ H Hc) as (t & Ht & Hh & _).
    apply in_flat_map. eauto.
  - right. apply in_flat_map in Hx. destruct Hx as (t & Ht & Hx).
    destruct (Forall2_In_r _ _ _ _ H Ht) as (c' & _ & _ & Q).
    apply in_flat_map. exists t. eauto.
Qed.

(** Every id of the graph is the root of a subtree whose children are
    the nodes pushed under it. *)
Lemma graph_of_subtrees fuel k t :
  graph_of fuel N k = Some t ->
  forall x, In x (comment_ids t) ->
    exists sub, In sub (subtrees t) /\ tree_id sub = Some x
                /\ map tree_id (tree_children sub) = map Some (kids_of order x).
Proof.
  intros H.
  enough (G : tree_id t = Some k
              /\ forall x, In x (comment_ids t) ->
                   exists sub, In sub (subtrees t) /\ tree_id sub = Some x
                     /\ map tree_id (tree_children sub)
                        = map Some (kids_of order x)) by apply G.
  revert fuel k t H.
  apply (graph_of_ind (fun k t => tree_id t = Some k
              /\ forall x, In x (comment_ids t) ->
                   exists sub, In sub (subtrees t) /\ tree_id sub = Some x
                     /\ map tree_id (tree_children sub)
                        = map Some (kids_of order x))).
  intros k n kids En H. split; [reflexivity|].
  cbn [comment_ids label_id app subtrees]. intros x [<-|Hx].
  - eexists. split; [now left|]. split; [reflexivity|]. cbn [tree_children].
    clear En. induction H as [|c t l l' [Hc _] _ IH]; cbn; [reflexivity|].
    now rewrite Hc, IH.
  - apply in_flat_map in Hx. destruct Hx as (t & Ht & Hx).
    destruct (Forall2_In_r _ _ _ _ H Ht) as (c' & _ & _ & Q).
    destruct (Q x Hx) as (sub & Hs & Hid & Hch).
    exists sub. split; [|auto]. right. apply in_flat_map. eauto.
Qed.

(** An id of the graph is its root or was pushed under another id of
    the graph. *)
Lemma graph_of_parent fuel k t :
  graph_of fuel N k = Some t ->
  forall x, In x (comment_ids t) ->
    x = k \/ exists p, In p (comment_ids t) /\ In x (kids_of order p).
Proof.
  revert fuel k t.
  apply (graph_of_ind (fun k t => forall x, In x (comment_ids t) ->
    x = k \/ exists p, In p (comment_ids t) /\ In x (kids_of order p))).
  intros k n kids En H x. cbn [comment_ids label_id app].
  intros [<-|Hx]; [now left|]. right.
  apply in_flat_map in Hx. destruct Hx as (t & Ht & Hx).
  destruct (Forall2_In_r _ _ _ _ H Ht) as (c & Hc & Q).
  destruct (Q x Hx) as [->|(p & Hp & Hxp)].
  - exists k. split; [now left|assumption].
  - exists p. split; [|assumption]. right. apply in_flat_map. eauto.
Qed.
End graph.

(** ** Well-formed numberings *)

Lemma removelast_map {A B} (f : A -> B) l :
  removelast (map f l) = map f (removelast l).
Proof.
  induction l as [|x l IH]; [reflexivity|].
  destruct l as [|y l]; [reflexivity|]. cbn [map removelast] in *.
  now rewrite <- IH.
Qed.

Lemma parent_of_numbering_of arr :
  arr <> [] ->
  parent_of (numbering_of arr)
  = if (1 <? List.length arr)%nat then Some (numbering_of (removelast arr))
    else None.
Proof.
  intros Hne. unfold parent_of, slice_init.
  rewrite segments_numbering_of, split_numbering_of by assumption.
  now rewrite removelast_map.
Qed.

Lemma removelast_length {A} (l : list A) :
  List.length (removelast l) = List.length l - 1.
Proof.
  induction l as [|x l IH]; [reflexivity|].
  destruct l as [|y l]; [reflexivity|]. cbn [removelast List.length] in *.
  rewrite IH. lia.
Qed.

Lemma Forall_removelast {A} (P : A -> Prop) l :
  Forall P l -> Forall P (removelast l).
Proof.
  induction 1 as [|x l Hx Hl IH]; [constructor|].
  destruct l as [|y l]; [constructor|]. cbn [removelast] in *.
  now constructor.
Qed.

Lemma well_formed_parent k p :
  well_formed_numbering k -> parent_of k = Some p -> well_formed_numbering p.
Proof.
  intros (arr & Hne & Hpos & ->) H. rewrite parent_of_numbering_of in H by assumption.
  destruct (Nat.ltb_spec 1 (List.length arr)) as [Hlen|]; [|discriminate].
  injection H as <-. exists (removelast arr). split; [|split].
  - intros E. apply (f_equal (@List.length nat)) in E.
    rewrite removelast_length in E. cbn in E. lia.
  - now apply Forall_removelast.
  - reflexivity.
Qed.

Lemma well_formed_not_inherited p :
  well_formed_numbering p -> mem_string p Object_prototype_keys = false.
Proof.
  intros (arr & Hne & _ & ->).
  destruct (mem_string _ _) eqn:E; [|reflexivity]. exfalso.
  apply mem_string_In in E. unfold Object_prototype_keys in E.
  repeat (destruct E as [E|E];
          [ apply (f_equal (split ".")) in E;
            rewrite split_numbering_of in E by assumption;
            destruct arr as [|a [|b arr]]; try discriminate E;
            injection E as E; apply (f_equal parseInt) in E;
            rewrite parseInt_String_of_nat in E; vm_compute in E; discriminate E
          | ]).
  contradiction.
Qed.

Lemma well_formed_nonempty p : well_formed_numbering p -> p <> "".
Proof.
  intros (arr & Hne & Hpos & ->) E.
  apply (f_equal (split ".")) in E. rewrite split_numbering_of in E by assumption.
  destruct arr as [|a [|b arr]]; try discriminate E.
  injection E as E. apply (f_equal parseInt) in E.
  rewrite parseInt_String_of_nat in E. discriminate E.
Qed.

(** ** The hierarchy of a sequence *)

Lemma htree_nested_ind (P : htree -> Prop) :
  (forall l kids c, Forall P kids -> P (HNode l kids c)) -> forall t, P t.
Proof.
  intros P_node. fix IH 1. intros [l kids c]. apply P_node.
  induction kids as [|x ts IHts]; constructor.
  - apply IH.
  - exact IHts.
Qed.

Lemma computeCounts_label t : tree_label (computeCounts t) = tree_label t.
Proof. destruct t as [l [|k kids] c]; reflexivity. Qed.

Lemma computeCounts_id t : tree_id (computeCounts t) = tree_id t.
Proof. unfold tree_id. now rewrite computeCounts_label. Qed.

Lemma computeCounts_children t :
  tree_children (computeCounts t) = map computeCounts (tree_children t).
Proof. destruct t as [l [|k kids] c]; reflexivity. Qed.

Lemma computeCounts_ids t : comment_ids (computeCounts t) = comment_ids t.
Proof.
  induction t as [l kids c IH] using htree_nested_ind.
  assert (H : flat_map comment_ids (map computeCounts kids)
              = flat_map comment_ids kids).
  { induction IH as [|t ts Ht _ IHts]; [reflexivity|].
    cbn [flat_map map]. now rewrite Ht, IHts. }
  destruct kids as [|k kids]; [reflexivity|].
  cbn [computeCounts comment_ids]. now rewrite H.
Qed.

Lemma computeCounts_subtrees t :
  subtrees (computeCounts t) = map computeCounts (subtrees t).
Proof.
  induction t as [l kids c IH] using htree_nested_ind.
  assert (H : flat_map subtrees (map computeCounts kids)
              = map computeCounts (flat_map subtrees kids)).
  { induction IH as [|t ts Ht _ IHts]; [reflexivity|].
    cbn [flat_map map]. now rewrite map_app, Ht, IHts. }
  destruct kids as [|k kids]; [reflexivity|].
  cbn [computeCounts subtrees]. rewrite H. reflexivity.
Qed.

Lemma subtrees_size t : List.length (subtrees t) = tree_size t.
Proof.
  induction t as [l kids c IH] using htree_nested_ind.
  cbn [subtrees tree_size List.length]. f_equal.
  induction IH as [|t ts Ht _ IHts]; [reflexivity|].
  cbn [flat_map map list_sum]. now rewrite length_app, Ht, IHts.
Qed.

Lemma init_nodes_keys d : map fst (init_nodes d) = map fst d.
Proof. unfold init_nodes. rewrite map_map. reflexivity. Qed.

Lemma init_nodes_In d k n :
  In (k, n) (init_nodes d) ->
  exists n0, In (k, n0) d /\ n = set_children_count n0 [] 1.
Proof.
  unfold init_nodes. intros H. apply in_map_iff in H.
  destruct H as ([k0 n0] & E & H). injection E as <- <-. eauto.
Qed.

Lemma child_keys_kids_of l k :
  Forall (fun m => parentId m = parent_of (node_id m)) l ->
  child_keys l k = kids_of (map node_id l) k.
Proof.
  unfold child_keys, kids_of, is_child_of.
  induction 1 as [|m l Hm _ IH]; [reflexivity|].
  cbn [filter map]. rewrite <- Hm.
  destruct (parentId m) as [p|]; [|assumption].
  destruct (negb (p =? "") && (p =? k)); cbn [map]; now rewrite IH.
Qed.

Lemma list_max_In x l : In x l -> x <= list_max l.
Proof.
  intros H. pose proof (proj1 (list_max_le l (list_max l)) (Nat.le_refl _)) as F.
  rewrite Forall_forall in F. auto.
Qed.

Lemma Forall2_tree_ids l l' :
  Forall2 (fun k t => tree_id t = Some k) l l' -> map tree_id l' = map Some l.
Proof.
  induction 1 as [|k t l l' H _ IH]; [reflexivity|]. cbn [map]. now rewrite H, IH.
Qed.

Lemma Forall2_impl {A B} (R R' : A -> B -> Prop) l l' :
  Forall2 R l l' -> (forall a b, R a b -> R' a b) -> Forall2 R' l l'.
Proof. induction 1; intros H'; constructor; auto. Qed.

Lemma map_Some_In {A} (f : A -> option string) l ks k :
  map f l = map Some ks -> In k ks -> exists n, In n l /\ f n = Some k.
Proof.
  revert ks. induction l as [|x l IH]; intros [|k' ks] E; try discriminate;
    [contradiction|].
  cbn in E. injection E as Ex El. intros [->|H].
  - exists x. cbn. auto.
  - destruct (IH ks El H) as (n & ? & ?). exists n. cbn. auto.
Qed.

Lemma graph_of_size N order :
  (forall k n, dict_own N k = Some n ->
     node_id n = k /\ parentId n = parent_of k /\ children n = kids_of order k
     /\ In k order) ->
  forall fuel k t, graph_of fuel N k = Some t ->
                   List.length (comment_ids t) = tree_size t.
Proof.
  intros HN.
  apply (graph_of_ind N order HN
           (fun _ t => List.length (comment_ids t) = tree_size t)).
  intros k n kids _ H. cbn [comment_ids label_id app tree_size List.length].
  f_equal. induction H as [|c t l l' Ht _ IH]; [reflexivity|].
  cbn [flat_map map list_sum]. now rewrite length_app, Ht, IH.
Qed.

Section rebuild_well_formed.
Variable data : list row.
Hypothesis data_wf : Forall (fun r => well_formed_numbering (numbering r)) data.

Let d0 := own (buildNodeDictionary data).
Let d1 := init_nodes d0.
Let OV := Object_values d1.
Let order := map node_id OV.
Let N := nodes (linked d1 OV).
Let tops := root_children (linked d1 OV).

(** No well-formed numbering is the name [__proto__]: the prototype of
    the dictionary stays [Object.prototype]. *)
Lemma data_no_proto : ~ In "__proto__" (map numbering data).
Proof.
  intros H. apply in_map_iff in H. destruct H as (r & E & Hr).
  rewrite Forall_forall in data_wf. specialize (data_wf r Hr).
  rewrite E in data_wf. apply well_formed_not_inherited in data_wf.
  discriminate data_wf.
Qed.

Lemma d0_keys k : In k (map fst d0) <-> In k (map numbering data).
Proof.
  unfold d0. rewrite (proj1 (proj2 (buildNodeDictionary_spec data)) k).
  split; [now intros [H _]|]. intros H. split; [assumption|].
  intros ->. now apply data_no_proto.
Qed.

Lemma d1_entries k n :
  In (k, n) d1 ->
  node_id n = k /\ parentId n = parent_of k
  /\ In k (map numbering data) /\ well_formed_numbering k.
Proof.
  intros H. apply init_nodes_In in H. destruct H as (n0 & H & ->).
  destruct (buildNodeDictionary_spec data) as (_ & _ & Hd).
  destruct (Hd k n0 H) as (r & Hr & -> & ->).
  repeat split; [now apply in_map|].
  rewrite Forall_forall in data_wf. auto.
Qed.

Lemma OV_nodes n : In n OV -> In (node_id n, n) d1.
Proof.
  intros H. apply Object_values_In, in_map_iff in H.
  destruct H as ([k m] & <- & H). cbn [snd].
  now rewrite (proj1 (d1_entries k m H)).
Qed.

Lemma order_perm : Permutation order (map fst d1).
Proof.
  unfold order, OV. rewrite (Permutation_map node_id (Object_values_perm d1)).
  rewrite map_map. erewrite map_ext_in; [reflexivity|].
  intros [k n] H. apply (d1_entries k n H).
Qed.

Lemma order_NoDup : NoDup order.
Proof.
  apply (Permutation_NoDup (Permutation_sym order_perm)).
  unfold d1. rewrite init_nodes_keys.
  apply (buildNodeDictionary_spec data).
Qed.

Lemma order_keys k : In k order <-> In k (map numbering data).
Proof.
  rewrite <- d0_keys. rewrite <- (init_nodes_keys d0). fold d1.
  split; apply Permutation_in; [|symmetry]; apply order_perm.
Qed.

Lemma order_well_formed k : In k order -> well_formed_numbering k.
Proof.
  intros H. apply order_keys, in_map_iff in H. destruct H as (r & <- & Hr).
  rewrite Forall_forall in data_wf. auto.
Qed.

Lemma d1_NoDup : NoDup (map fst d1).
Proof. unfold d1. rewrite init_nodes_keys. apply (buildNodeDictionary_spec data). Qed.

Lemma N_nodes k n :
  dict_own N k = Some n ->
  node_id n = k /\ parentId n = parent_of k /\ children n = kids_of order k
  /\ In k order.
Proof.
  unfold N, linked. cbn [nodes].
  rewrite (dict_own_map (fun k v => set_children_count v (child_keys OV k) (count v))).
  destruct (dict_own d1 k) as [m|] eqn:E; [|discriminate].
  intros [= <-]. apply dict_own_In in E.
  destruct (d1_entries k m E) as (H1 & H2 & H3 & _).
  cbn [node_id parentId children set_children_count].
  repeat split; try assumption.
  - apply child_keys_kids_of. apply Forall_forall. intros x Hx.
    apply OV_nodes in Hx. apply (d1_entries _ _ Hx).
  - now apply order_keys.
Qed.

Lemma N_keys k : In k order -> exists n, dict_own N k = Some n.
Proof.
  intros H. unfold N, linked. cbn [nodes].
  rewrite (dict_own_map (fun k v => set_children_count v (child_keys OV k) (count v))).
  destruct (dict_own d1 k) as [m|] eqn:E; [cbn; eauto|].
  apply dict_own_None in E. exfalso. apply E.
  apply (Permutation_in _ order_perm H).
Qed.

(** The second [forEach] throws on no record of the data. *)
Lemma link_loop_returns :
  fold_left (link_step (proto (buildNodeDictionary data))) OV
            (Returns {| root_children := []; nodes := d1 |})
  = Returns (linked d1 OV).
Proof.
  rewrite (buildNodeDictionary_proto_None data data_no_proto).
  unfold d1 at 1. rewrite <- linked_nil. fold d1.
  rewrite link_loop_linked; [reflexivity|].
  intros n p Hn Hp _ _. apply OV_nodes in Hn.
  destruct (d1_entries _ _ Hn) as (_ & E & _ & Hwf).
  cbn [inherited]. apply well_formed_not_inherited. rewrite Hp in E.
  apply (well_formed_parent (node_id n)); auto.
Qed.

Lemma tops_spec k : In k tops <-> In k order /\ parent_of k = None.
Proof.
  unfold tops, linked, order. cbn [root_children]. rewrite !in_map_iff. split.
  - intros (n & <- & Hn). apply filter_In in Hn. destruct Hn as [Hn Ht].
    split; [eauto|]. pose proof (OV_nodes n Hn) as Hd.
    destruct (d1_entries _ _ Hd) as (_ & E & _ & Hwf).
    unfold is_top in Ht. rewrite E in Ht.
    destruct (parent_of (node_id n)) as [p|] eqn:Ep; [|reflexivity].
    apply String.eqb_eq in Ht. subst p.
    exfalso. apply (well_formed_nonempty ""); [|reflexivity].
    apply (well_formed_parent (node_id n)); auto.
  - intros [(n & <- & Hn) Hp]. exists n. split; [reflexivity|].
    apply filter_In. split; [assumption|].
    pose proof (OV_nodes n Hn) as Hd.
    destruct (d1_entries _ _ Hd) as (_ & E & _). unfold is_top.
    now rewrite E, Hp.
Qed.

Lemma tops_NoDup : NoDup tops.
Proof.
  assert (E : tops = filter (fun k => match parent_of k with
                                      | None => true
                                      | Some p => p =? ""
                                      end) order).
  { unfold tops, linked, order. cbn [root_children].
    assert (F : Forall (fun m => parentId m = parent_of (node_id m)) OV).
    { apply Forall_forall. intros x Hx. apply OV_nodes in Hx.
      apply (d1_entries _ _ Hx). }
    induction F as [|m l Hm _ IH]; [reflexivity|].
    cbn [filter map]. unfold is_top at 1. rewrite Hm.
    destruct (match parent_of (node_id m) with None => true | Some p => p =? "" end);
      cbn [map]; now rewrite IH. }
  rewrite E. apply NoDup_filter, order_NoDup.
Qed.

Lemma order_bound k :
  In k order ->
  String.length k < S (list_max (map (fun kv => String.length (fst kv)) d0)).
Proof.
  intros H. apply (Permutation_in _ order_perm) in H.
  unfold d1 in H. rewrite init_nodes_keys in H.
  apply Nat.lt_succ_r, list_max_In. apply in_map_iff in H.
  destruct H as (kv & <- & H).
  now apply (in_map (fun kv => String.length (fst kv))).
Qed.

(** The rebuild of well-formed data returns: the root "Post" over the
    graphs of the top-level keys, with the counts assigned. *)
Lemma rebuild_returns :
  exists kids,
    rebuild data = Returns (computeCounts (HNode (PostRoot "Post") kids 0))
    /\ Forall2 (fun k t => graph_of (graph_depth_bound d0) N k = Some t) tops kids.
Proof.
  unfold rebuild, buildHierarchyFromDict. fold d0 d1 OV.
  rewrite link_loop_returns. fold tops N.
  destruct (map_option_total (graph_of (graph_depth_bound d0) N) tops) as [kids E].
  - intros k Hk. apply tops_spec in Hk. destruct Hk as [Hk _].
    apply (graph_of_total N order N_nodes N_keys _ order_bound); [assumption|].
    unfold graph_depth_bound. lia.
  - rewrite E. exists kids. split; [reflexivity|]. now apply map_option_Forall2.
Qed.

Section forest.
Variable kids : list htree.
Hypothesis kids_graphs :
  Forall2 (fun k t => graph_of (graph_depth_bound d0) N k = Some t) tops kids.

Lemma forest_top_ids : map tree_id kids = map Some tops.
Proof.
  apply Forall2_tree_ids.
  apply (Forall2_impl _ _ _ _ kids_graphs). intros k t H.
  apply (graph_of_root N order N_nodes _ _ _ H).
Qed.

Lemma forest_ids_keys x :
  In x (flat_map comment_ids kids) -> In x order.
Proof.
  intros Hx. apply in_flat_map in Hx. destruct Hx as (t & Ht & Hx).
  destruct (Forall2_In_r _ _ _ _ kids_graphs Ht) as (k & _ & H).
  apply (graph_of_ids N order N_nodes _ _ _ H x Hx).
Qed.

Lemma forest_ids_NoDup : NoDup (flat_map comment_ids kids).
Proof.
  apply (NoDup_flat_map_Forall2 _ comment_ids
           (fun c x => In c tops /\ exists s, split "." x = split "." c ++ s)
           _ _ kids_graphs tops_NoDup).
  - intros k t Hk H. split.
    + apply (graph_of_NoDup N order N_nodes order_NoDup _ _ _ H).
    + intros x Hx. split; [assumption|].
      apply (graph_of_ids N order N_nodes _ _ _ H x Hx).
  - intros c1 c2 x _ _ [H1 (s1 & E1)] [H2 (s2 & E2)].
    apply tops_spec in H1, H2. destruct H1 as [_ P1], H2 as [_ P2].
    apply parent_of_None in P1, P2.
    apply (same_prefix_eq c1 c2 x s1 s2); congruence.
Qed.

Lemma forest_ids_tops k : In k tops -> In k (flat_map comment_ids kids).
Proof.
  intros Hk. destruct (Forall2_In_l _ _ _ _ kids_graphs Hk) as (t & Ht & H).
  apply in_flat_map. exists t. split; [assumption|].
  apply (graph_of_head N order N_nodes _ _ _ H).
Qed.

Lemma forest_ids_closed x c :
  In x (flat_map comment_ids kids) -> In c (kids_of order x) ->
  In c (flat_map comment_ids kids).
Proof.
  intros Hx Hc. apply in_flat_map in Hx. destruct Hx as (t & Ht & Hx).
  destruct (Forall2_In_r _ _ _ _ kids_graphs Ht) as (k & _ & H).
  apply in_flat_map. exists t. split; [assumption|].
  apply (graph_of_closed N order N_nodes _ _ _ H x c Hx Hc).
Qed.

Lemma forest_ids_parent x :
  In x (flat_map comment_ids kids) ->
  In x tops \/ exists p, In p (flat_map comment_ids kids)
                         /\ In x (kids_of order p).
Proof.
  intros Hx. apply in_flat_map in Hx. destruct Hx as (t & Ht & Hx).
  destruct (Forall2_In_r _ _ _ _ kids_graphs Ht) as (k & Hk & H).
  destruct (graph_of_parent N order N_nodes _ _ _ H x Hx) as [->|(p & Hp & Hxp)].
  - now left.
  - right. exists p. split; [|assumption]. apply in_flat_map. eauto.
Qed.

Lemma forest_subtrees x :
  In x (flat_map comment_ids kids) ->
  exists sub, In sub (flat_map subtrees kids) /\ tree_id sub = Some x
              /\ map tree_id (tree_children sub) = map Some (kids_of order x).
Proof.
  intros Hx. apply in_flat_map in Hx. destruct Hx as (t & Ht & Hx).
  destruct (Forall2_In_r _ _ _ _ kids_graphs Ht) as (k & Hk & H).
  destruct (graph_of_subtrees N order N_nodes _ _ _ H x Hx) as (sub & Hs & Hi & Hc).
  exists sub. split; [|auto]. apply in_flat_map. eauto.
Qed.

(** A key whose ancestors are all keys is in the forest. *)
Lemma forest_ids_complete :
  (forall k p, In k order -> parent_of k = Some p -> In p order) ->
  forall k, In k order -> In k (flat_map comment_ids kids).
Proof.
  intros Hclosed k.
  remember (segments k) as d eqn:Ed. revert k Ed.
  induction d as [d IH] using lt_wf_ind. intros k Ed Hk.
  destruct (parent_of k) as [p|] eqn:Ep.
  - pose proof (Hclosed k p Hk Ep) as Hp.
    apply (forest_ids_closed p).
    + apply (IH (segments p)); [|reflexivity|assumption].
      rewrite Ed, (parent_of_segments _ _ Ep). lia.
    + apply kids_of_In. repeat split; try assumption.
      apply well_formed_nonempty, order_well_formed, Hp.
  - apply forest_ids_tops, tops_spec. auto.
Qed.

(** A key whose parent id is not a key is not in the forest. *)
Lemma forest_ids_orphan k p :
  parent_of k = Some p -> ~ In p order ->
  ~ In k (flat_map comment_ids kids).
Proof.
  intros Ep Hp Hk. destruct (forest_ids_parent k Hk) as [Ht|(q & Hq & Hkq)].
  - apply tops_spec in Ht. destruct Ht as [_ Ht]. congruence.
  - apply kids_of_In in Hkq. destruct Hkq as (_ & Eq & _).
    assert (q = p) by congruence. subst q.
    apply Hp. now apply forest_ids_keys.
Qed.
End forest.

(** The tree [rebuild] returns for well-formed data. *)
Lemma rebuild_tree :
  exists t,
    rebuild data = Returns t
    /\ tree_label t = PostRoot "Post"
    /\ NoDup (comment_ids t)
    /\ (forall k, In k (comment_ids t) -> In k (map numbering data))
    /\ tree_size t = S (List.length (comment_ids t))
    /\ (forall k, In k (map numbering data) -> parent_of k = None ->
          exists n, In n (tree_children t) /\ tree_id n = Some k)
    /\ (forall k p, In k (map numbering data) -> parent_of k = Some p ->
          In p (comment_ids t) ->
          exists sub n, In sub (subtrees t) /\ tree_id sub = Some p
                        /\ In n (tree_children sub) /\ tree_id n = Some k)
    /\ ((forall k p, In k (map numbering data) -> parent_of k = Some p ->
                     In p (map numbering data)) ->
        forall k, In k (map numbering data) -> In k (comment_ids t))
    /\ (forall k p, parent_of k = Some p -> ~ In p (map numbering data) ->
                    ~ In k (comment_ids t)).
Proof.
  destruct rebuild_returns as (kids & E & G).
  exists (computeCounts (HNode (PostRoot "Post") kids 0)).
  assert (Hids : comment_ids (computeCounts (HNode (PostRoot "Post") kids 0))
                 = flat_map comment_ids kids).
  { now rewrite computeCounts_ids. }
  rewrite Hids.
  split; [assumption|]. split; [apply computeCounts_label|].
  split; [now apply forest_ids_NoDup|].
  split; [intros k Hk; apply order_keys; now apply (forest_ids_keys kids G)|].
  split.
  { rewrite <- subtrees_size, computeCounts_subtrees, length_map, subtrees_size.
    cbn [tree_size]. f_equal.
    clear E Hids. induction G as [|k t l l' Ht _ IH]; [reflexivity|].
    cbn [flat_map map list_sum].
    now rewrite length_app, <- IH, (graph_of_size N order N_nodes _ _ _ Ht). }
  split.
  { intros k Hk Hp.
    assert (Ht : In k tops) by (apply tops_spec; split; [now apply order_keys|assumption]).
    destruct (map_Some_In _ _ _ _ (forest_top_ids kids G) Ht) as (n & Hn & Hid).
    exists (computeCounts n). split; [|now rewrite computeCounts_id].
    rewrite computeCounts_children. cbn [tree_children]. now apply in_map. }
  split.
  { intros k p Hk Ep Hp.
    destruct (forest_subtrees kids G p Hp) as (sub & Hs & Hid & Hch).
    assert (Hkp : In k (kids_of order p)).
    { apply kids_of_In. repeat split; [now apply order_keys|assumption|].
      apply well_formed_nonempty, order_well_formed.
      now apply (forest_ids_keys kids G). }
    destruct (map_Some_In _ _ _ _ Hch Hkp) as (n & Hn & Hnid).
    exists (computeCounts sub), (computeCounts n).
    rewrite computeCounts_subtrees, computeCounts_children, !computeCounts_id.
    repeat split; try assumption.
    - apply in_map. cbn [subtrees]. now right.
    - now apply in_map. }
  split.
  { intros Hclosed k Hk. apply (forest_ids_complete kids G).
    - intros k' p' Hk' Ep'. apply order_keys. apply (Hclosed k'); [|assumption].
      now apply order_keys.
    - now apply order_keys. }
  intros k p Ep Hp. apply (forest_ids_orphan kids G k p Ep).
  intros Hp'. apply Hp. now apply order_keys.
Qed.
End rebuild_well_formed.

(** ** The hierarchy of a flat sequence *)

Lemma flat_sequence_paths comments :
  flat_sequence comments
  = map (fun pc => make_row (fst pc) (snd pc)) (paths 1 (prune comments)).
Proof.
  unfold flat_sequence. rewrite buildTableData_eq, preorder_paths. reflexivity.
Qed.

Lemma flat_sequence_numberings comments :
  map numbering (flat_sequence comments)
  = map numbering_of (map fst (paths 1 (prune comments))).
Proof. rewrite flat_sequence_paths, !map_map. reflexivity. Qed.

Lemma NoDup_map_in {A B} (f : A -> B) l :
  (forall x y, In x l -> In y l -> f x = f y -> x = y) ->
  NoDup l -> NoDup (map f l).
Proof.
  intros Hinj. induction 1 as [|x l Hx Hnd IH]; cbn; constructor.
  - intros H. apply in_map_iff in H. destruct H as (y & E & Hy).
    apply Hx. rewrite <- (Hinj y x); cbn; auto.
  - apply IH. intros a b Ha Hb. apply Hinj; now right.
Qed.

(** Numberings are unique across a flat sequence. *)
Lemma flat_sequence_NoDup comments :
  NoDup (map numbering (flat_sequence comments)).
Proof.
  rewrite flat_sequence_numberings. apply NoDup_map_in; [|apply paths_NoDup].
  intros a b Ha Hb. apply in_map_iff in Ha, Hb.
  destruct Ha as ([a' ca] & <- & Ha), Hb as ([b' cb] & <- & Hb).
  apply paths_shape in Ha, Hb. apply numbering_of_inj; tauto.
Qed.

(** The numbering without its last segment is in the sequence too. *)
Lemma flat_sequence_parent_closed comments k p :
  In k (map numbering (flat_sequence comments)) -> parent_of k = Some p ->
  In p (map numbering (flat_sequence comments)).
Proof.
  rewrite flat_sequence_numberings. intros Hk Ep.
  apply in_map_iff in Hk. destruct Hk as (arr & <- & Harr).
  apply in_map_iff in Harr. destruct Harr as ([arr' c] & <- & Hp). cbn [fst] in *.
  pose proof (paths_shape _ _ _ _ Hp) as (Hne & _).
  rewrite parent_of_numbering_of in Ep by assumption.
  destruct (Nat.ltb_spec 1 (List.length arr')) as [Hlen|]; [|discriminate].
  injection Ep as <-. destruct (paths_closed _ _ _ _ Hp Hlen) as (c' & Hc').
  apply in_map. apply in_map_iff. now exists (removelast arr', c').
Qed.

Lemma parent_of_not_top k :
  segments k <> 1 -> parent_of k = Some (join "." (slice_init (split "." k))).
Proof.
  intros H. unfold parent_of. unfold segments in *.
  pose proof (split_nonempty "." k).
  destruct (split "." k) as [|x [|y l]]; [congruence|cbn in H; congruence|reflexivity].
Qed.

(** C2.  For the flat sequence of any listing, in the order of the
    Flattener or in any other order the Sorter left it in, the rebuild
    returns a tree under the root "Post" whose comment nodes are the
    records, one node per numbering, so that the tree has one node more
    than there are records; a record with one segment is a child of the
    root, and any other record is a child of the node whose id is its
    numbering without the last segment.  For any sequence of records
    with well-formed numberings the rebuild returns too, and a record
    whose derived parent id is the numbering of no record is not in the
    tree. *)
Theorem rebuild_hierarchy
  (comments : list child) (sequence data : list row)
  (Hsequence : Permutation (flat_sequence comments) sequence)
  (Hdata : Forall (fun r => well_formed_numbering (numbering r)) data) :
  (exists t,
     rebuild sequence = Returns t
     /\ tree_label t = PostRoot "Post"
     /\ Permutation (comment_ids t) (map numbering sequence)
     /\ tree_size t = S (List.length sequence)
     /\ forall r, In r sequence ->
          (segments (numbering r) = 1 ->
           exists n, In n (tree_children t) /\ tree_id n = Some (numbering r))
          /\ (segments (numbering r) <> 1 ->
              exists p n,
                In p (subtrees t)
                /\ tree_id p = Some (join "." (slice_init (split "." (numbering r))))
                /\ In n (tree_children p) /\ tree_id n = Some (numbering r)))
  /\ (exists t,
        rebuild data = Returns t
        /\ forall r, In r data -> segments (numbering r) <> 1 ->
             ~ In (join "." (slice_init (split "." (numbering r))))
                  (map numbering data) ->
             ~ In (numbering r) (comment_ids t)).
Proof.
  split.
  - assert (Hwf : Forall (fun r => well_formed_numbering (numbering r)) sequence).
    { apply Forall_forall. intros r Hr.
      apply (flat_sequence_well_formed comments).
      apply (Permutation_in _ (Permutation_sym Hsequence) Hr). }
    pose proof (Permutation_map numbering Hsequence) as Hnum.
    assert (Hclosed : forall k p, In k (map numbering sequence) ->
                        parent_of k = Some p -> In p (map numbering sequence)).
    { intros k p Hk Ep. apply (Permutation_in _ Hnum).
      apply (flat_sequence_parent_closed comments k p); [|assumption].
      apply (Permutation_in _ (Permutation_sym Hnum) Hk). }
    destruct (rebuild_tree _ Hwf)
      as (t & E & Hl & Hnd & Hin & Hsize & Htop & Hsub & Hall & _).
    pose proof (Hall Hclosed) as Hall'.
    assert (Hperm : Permutation (comment_ids t) (map numbering sequence)).
    { apply NoDup_Permutation; [assumption| |].
      - apply (Permutation_NoDup Hnum), flat_sequence_NoDup.
      - intros k. split; auto. }
    exists t. split; [assumption|]. split; [assumption|]. split; [assumption|].
    split.
    { rewrite Hsize, (Permutation_length Hperm), length_map. reflexivity. }
    intros r Hr. pose proof (in_map numbering _ _ Hr) as Hk. split.
    + intros Hs. apply Htop; [assumption|]. now apply parent_of_None.
    + intros Hs. apply parent_of_not_top in Hs.
      apply (Hsub _ _ Hk Hs). apply Hall'. apply (Hclosed _ _ Hk Hs).
  - destruct (rebuild_tree _ Hdata) as (t & E & _ & _ & _ & _ & _ & _ & _ & Horphan).
    exists t. split; [assumption|].
    intros r Hr Hs Hp. apply parent_of_not_top in Hs.
    apply (Horphan _ _ Hs Hp).
Qed.

Lemma rebuild_hierarchy_witness :
  let a := sample_comment "a" 1 in
  let b := sample_comment "b" 2 in
  let comments := [T1 a (Some [T1 b None])] in
  let sequence := [make_row [1; 1] b; make_row [1] a] in
  let data := [make_row [1] a; make_row [2; 1] a] in
  Permutation (flat_sequence comments) sequence
  /\ Forall (fun r => well_formed_numbering (numbering r)) data
  /\ (exists t, rebuild sequence = Returns t
                /\ Permutation (comment_ids t) ["1.1"; "1"])
  /\ (exists t, rebuild data = Returns t /\ ~ In "2.1" (comment_ids t)).
Proof.
  intros a b comments sequence data.
  assert (Hseq : Permutation (flat_sequence comments) sequence) by apply perm_swap.
  assert (Hwf : Forall (fun r => well_formed_numbering (numbering r)) data).
  { repeat constructor.
    - exists [1]. repeat split; [discriminate|repeat constructor].
    - exists [2; 1]. repeat split; [discriminate|repeat constructor]. }
  split; [assumption|]. split; [assumption|].
  destruct (rebuild_hierarchy comments sequence data Hseq Hwf) as [H1 H2].
  split.
  - destruct H1 as (t & E & _ & P & _). exists t. split; assumption.
  - destruct H2 as (t & E & H). exists t. split; [assumption|].
    apply (H (make_row [2; 1] a)).
    + right. left. reflexivity.
    + discriminate.
    + cbn. intros [H1'|[H1'|[]]]; discriminate H1'.
Defined.

(** The rebuild of the scenario of C1. *)
Example rebuild_scenario (c1 c2 c3 c4 : comment) :
  option_map comment_ids
    (match rebuild (flat_sequence
                      [T1 c1 (Some [T1 c2 None; T1 c3 (Some [T1 c4 None])]);
                       More]) with
     | Returns t => Some t
     | _ => None
     end)
  = Some ["1"; "1.1"; "1.2"; "1.2.1"].
Proof. reflexivity. Qed.

(** A parent id that names a member of [Object.prototype] makes the
    rebuild throw; no well-formed numbering does that. *)
Example rebuild_inherited_parent :
  rebuild [{| numbering := "toString.1"; level := 2; body := "text";
              author := "user"; upvotes := 1; downvotes := 0;
              score := Num 1; dateUtc := None |}]
  = Throws "TypeError".
Proof. reflexivity. Qed.

(** ** Counts *)

(** What [computeCounts] assigns: the number of leaves under the node. *)
Lemma computeCounts_leaves t :
  tree_count (computeCounts t) = tree_leaves t
  /\ tree_leaves (computeCounts t) = tree_leaves t.
Proof.
  induction t as [l kids c IH] using htree_nested_ind.
  assert (H : map tree_count (map computeCounts kids) = map tree_leaves kids
              /\ map tree_leaves (map computeCounts kids) = map tree_leaves kids).
  { induction IH as [|t ts [H1 H2] _ [I1 I2]]; [split; reflexivity|].
    cbn [map]. now rewrite H1, H2, I1, I2. }
  destruct H as [H1 H2].
  destruct kids as [|k kids]; [split; reflexivity|].
  cbn [computeCounts tree_count tree_leaves].
  change (computeCounts k :: map computeCounts kids) with (map computeCounts (k :: kids)).
  rewrite H1, H2. split; reflexivity.
Qed.

Lemma computeCounts_all_leaves t sub :
  In sub (subtrees (computeCounts t)) -> tree_count sub = tree_leaves sub.
Proof.
  revert sub. induction t as [l kids c IH] using htree_nested_ind. intros sub.
  rewrite computeCounts_subtrees. cbn [subtrees map]. intros [<-|H].
  - destruct (computeCounts_leaves (HNode l kids c)) as [H1 H2]. now rewrite H1, H2.
  - rewrite flat_map_concat_map, concat_map, map_map in H.
    apply in_concat in H. destruct H as (ss & Hss & Hsub).
    apply in_map_iff in Hss. destruct Hss as (t & <- & Ht).
    rewrite Forall_forall in IH. apply (IH t Ht).
    now rewrite computeCounts_subtrees.
Qed.

(** C4.  A comment with one reply: the node of the comment has two nodes
    in its subtree, itself included, and the root has three, but both
    are given the count 1, the number of leaves under them. *)
Theorem computeCounts_is_not_subtree_size :
  let a := sample_comment "a" 1 in
  let b := sample_comment "b" 2 in
  exists root n1 n11,
    rebuild (flat_sequence [T1 a (Some [T1 b None])]) = Returns root
    /\ tree_children root = [n1] /\ tree_id n1 = Some "1"
    /\ tree_children n1 = [n11] /\ tree_id n11 = Some "1.1"
    /\ tree_children n11 = []
    /\ tree_count n11 = 1 /\ tree_size n11 = 1
    /\ tree_count n1 = 1 /\ tree_size n1 = 2
    /\ tree_count root = 1 /\ tree_size root = 3.
Proof.
  do 3 eexists. repeat split.
Qed.

(** ** The Flattener's order is the ascending order of the numberings *)

Lemma compareArray_loop_shift x a y b n : forall i,
  compareArray_loop (x :: a) (y :: b) (S i) n = compareArray_loop a b i n.
Proof.
  induction n as [|n IH]; intros i; [reflexivity|].
  cbn [compareArray_loop]. rewrite IH. reflexivity.
Qed.

Lemma compareArray_cons x a y b :
  compareArray (Num x :: a) (Num y :: b)
  = if (x <? y)%Z then (-1)%Z else if (x >? y)%Z then 1%Z else compareArray a b.
Proof.
  unfold compareArray. cbn [List.length Nat.max compareArray_loop].
  change (elem_or_zero (Num x :: a) 0) with x.
  change (elem_or_zero (Num y :: b) 0) with y.
  now rewrite compareArray_loop_shift.
Qed.

Lemma compareArray_nil_nums q : (compareArray [] (nums q) <= 0)%Z.
Proof.
  unfold compareArray. cbn [List.length Nat.max].
  generalize (List.length (nums q)) as n. generalize 0 as i.
  intros i n. revert i. induction n as [|n IH]; intros i; cbn [compareArray_loop]; [lia|].
  assert (H : (0 <= elem_or_zero (nums q) i)%Z).
  { unfold nums. rewrite elem_or_zero_Num. lia. }
  change (elem_or_zero [] i) with (elem_or_zero (@nil jsnum) i).
  rewrite (elem_or_zero_beyond [] i) by (cbn; lia).
  destruct (Z.ltb_spec 0 (elem_or_zero (nums q) i)); [lia|].
  rewrite Z.gtb_ltb.
  destruct (Z.ltb_spec (elem_or_zero (nums q) i) 0); [lia|]. apply IH.
Qed.

Lemma StronglySorted_app {A} (R : A -> A -> Prop) l1 l2 :
  StronglySorted R l1 -> StronglySorted R l2 ->
  (forall x y, In x l1 -> In y l2 -> R x y) ->
  StronglySorted R (l1 ++ l2).
Proof.
  induction 1 as [|a l1 S1 IH H1]; intros S2 H; [assumption|].
  cbn [app]. constructor.
  - apply IH; [assumption|]. intros x y Hx. apply H. now right.
  - apply Forall_app. split; [assumption|].
    apply Forall_forall. intros y Hy. apply H; [now left|assumption].
Qed.

Lemma StronglySorted_map {A B} (f : A -> B) (R : B -> B -> Prop) l :
  StronglySorted (fun x y => R (f x) (f y)) l -> StronglySorted R (map f l).
Proof.
  induction 1 as [|a l S IH H]; cbn [map]; constructor; [assumption|].
  apply Forall_forall. intros y Hy. apply in_map_iff in Hy.
  destruct Hy as (x & <- & Hx). rewrite Forall_forall in H. auto.
Qed.

Lemma StronglySorted_impl {A} (R R' : A -> A -> Prop) l :
  (forall x y, R x y -> R' x y) -> StronglySorted R l -> StronglySorted R' l.
Proof.
  intros HR. induction 1 as [|a l S IH H]; constructor; [assumption|].
  rewrite Forall_forall in *. auto.
Qed.

(** The positions of a forest come in ascending order. *)
Lemma paths_sorted l : forall k,
  StronglySorted (fun p q => (compareArray (nums p) (nums q) <= 0)%Z)
                 (map fst (paths k l)).
Proof.
  induction l as [|c0 kids rest IHk IHr] using forest_ind; intros k.
  - constructor.
  - rewrite paths_cons. cbn [map fst]. rewrite map_app, map_map. cbn [fst].
    assert (Hrest : forall q, In q (map fst (paths (S k) rest)) ->
                      exists h t, q = h :: t /\ k < h).
    { intros q Hq. apply in_map_iff in Hq. destruct Hq as ([q' c] & <- & Hq).
      apply paths_shape in Hq. cbn [fst]. destruct Hq as (Hne & Hh & _).
      destruct q' as [|h t]; [congruence|]. exists h, t. cbn in Hh. split; [reflexivity|lia]. }
    constructor.
    + apply StronglySorted_app.
      * rewrite <- (map_map fst (cons k)). apply StronglySorted_map.
        refine (StronglySorted_impl _ _ _ _ (IHk 1)). intros p q H.
        cbn [nums map]. rewrite compareArray_cons, Z.ltb_irrefl, Z.gtb_ltb, Z.ltb_irrefl.
        exact H.
      * apply IHr.
      * intros p q Hp Hq. apply in_map_iff in Hp. destruct Hp as ([p' c] & <- & _).
        destruct (Hrest q Hq) as (h & t & -> & Hlt). cbn [fst nums map].
        rewrite compareArray_cons.
        destruct (Z.ltb_spec (Z.of_nat k) (Z.of_nat h)); lia.
    + apply Forall_app. split; apply Forall_forall.
      * intros q Hq. apply in_map_iff in Hq. destruct Hq as ([q' c] & <- & _).
        cbn [fst nums map]. rewrite compareArray_cons, Z.ltb_irrefl, Z.gtb_ltb, Z.ltb_irrefl.
        apply compareArray_nil_nums.
      * intros q Hq. destruct (Hrest q Hq) as (h & t & -> & Hlt). cbn [nums map].
        rewrite compareArray_cons.
        destruct (Z.ltb_spec (Z.of_nat k) (Z.of_nat h)); lia.
Qed.

(** A fresh flat sequence is in ascending order of its numberings. *)
Lemma flat_sequence_sorted comments :
  StronglySorted (cmp_le (comparator "numbering" true)) (flat_sequence comments).
Proof.
  rewrite flat_sequence_paths.
  pose proof (paths_sorted (prune comments) 1) as H.
  assert (Hne : forall pc, In pc (paths 1 (prune comments)) -> fst pc <> []).
  { intros [p c] Hp. now apply paths_shape in Hp. }
  induction (paths 1 (prune comments)) as [|[p c] l IH]; [constructor|].
  cbn [map fst snd] in *. inversion H as [|? ? Hs Hall]; subst.
  constructor.
  - apply IH; [assumption|]. intros pc Hpc. apply Hne. now right.
  - rewrite Forall_forall in *. intros r Hr. apply in_map_iff in Hr.
    destruct Hr as ([q c'] & <- & Hq). cbn [fst snd].
    unfold cmp_le, comparator.
    cbn [String.eqb Ascii.eqb Bool.eqb js_mul direction keeps_before make_row
         numbering].
    fold (numbering_of p) (numbering_of q). unfold compareNumbering.
    rewrite !numbering_array_numbering_of.
    + apply Z.leb_le. rewrite Z.mul_1_r. apply Hall.
      apply in_map_iff. now exists (q, c').
    + apply (Hne (q, c')). now right.
    + apply (Hne (p, c)). now left.
Qed.

(** Sorting a fresh table by [numbering] from the initial flag keeps the
    order of the Flattener. *)
Lemma sortTable_numbering_fresh comments :
  tableData (sortTable "numbering"
               {| tableData := flat_sequence comments; tableBuilt := true;
                  sortAsc := true |})
  = flat_sequence comments.
Proof.
  destruct (flat_sequence comments) as [|r l] eqn:E; [reflexivity|].
  rewrite sortTable_sorts; [|reflexivity|discriminate|left; reflexivity].
  cbn [tableData sortAsc]. apply Array_sort_sorted_id.
  rewrite <- E. apply flat_sequence_sorted.
Qed.

(* ================================================================== *)
(** * Part II (continued). Around the core: further properties         *)
(* ================================================================== *)

(** ** Patterns *)

Lemma match_chr c a s :
  match_pattern (chr c) (String a s) = if Ascii.eqb a c then Some 1 else None.
Proof. cbn. destruct (Ascii.eqb a c); reflexivity. Qed.

Lemma String_replace_chr_cons c by_ a s :
  String_replace (chr c) by_ (String a s)
  = if Ascii.eqb a c then (by_ ++ String_replace (chr c) by_ s)%string
    else String a (String_replace (chr c) by_ s).
Proof.
  unfold String_replace. cbn [replace_scan]. rewrite match_chr.
  destruct (Ascii.eqb a c); reflexivity.
Qed.

Lemma String_replace_chr_app c by_ s t :
  String_replace (chr c) by_ (s ++ t)
  = (String_replace (chr c) by_ s ++ String_replace (chr c) by_ t)%string.
Proof.
  induction s as [|a s IH]; [reflexivity|].
  cbn [String.append]. rewrite !String_replace_chr_cons, IH.
  destruct (Ascii.eqb a c); [|reflexivity].
  now rewrite string_append_assoc.
Qed.

(** Where a line break starts, and how long it is. *)
Lemma match_line_break a s :
  match_pattern line_break (String a s)
  = if Ascii.eqb a CR then
      match s with
      | String b _ => if Ascii.eqb b LF then Some 2 else Some 1
      | EmptyString => Some 1
      end
    else if Ascii.eqb a LF then Some 1
    else None.
Proof.
  cbn. destruct (Ascii.eqb_spec a CR) as [->|Hcr].
  - destruct s as [|b s]; [reflexivity|cbn]. destruct (Ascii.eqb b LF); reflexivity.
  - destruct (Ascii.eqb a LF); reflexivity.
Qed.

Lemma match_line_break_short s :
  match_pattern line_break_short s = match_pattern line_break s.
Proof.
  destruct s as [|a s]; [reflexivity|]. rewrite match_line_break. cbn.
  destruct (Ascii.eqb_spec a CR) as [->|Hcr].
  - destruct s as [|b s]; [reflexivity|cbn]. destruct (Ascii.eqb b LF); reflexivity.
  - destruct (Ascii.eqb a LF); reflexivity.
Qed.

Lemma replace_scan_short by_ s : forall skip,
  replace_scan line_break_short by_ skip s = replace_scan line_break by_ skip s.
Proof.
  induction s as [|a s IH]; intros skip; [reflexivity|].
  cbn [replace_scan]. rewrite match_line_break_short.
  destruct skip; [|apply IH].
  destruct (match_pattern line_break (String a s)) as [[|k]|]; now rewrite IH.
Qed.

Lemma split_scan_short s : forall skip,
  split_scan line_break_short skip s = split_scan line_break skip s.
Proof.
  induction s as [|a s IH]; intros skip; [reflexivity|].
  cbn [split_scan]. rewrite match_line_break_short.
  destruct skip; [|apply IH].
  destruct (match_pattern line_break (String a s)) as [[|k]|]; now rewrite IH.
Qed.

Lemma split_scan_nonempty alts s : forall skip, split_scan alts skip s <> [].
Proof.
  induction s as [|a s IH]; intros skip; [discriminate|].
  cbn [split_scan]. destruct skip; [|apply IH].
  destruct (match_pattern alts (String a s)) as [[|k]|]; try discriminate;
    destruct (split_scan alts 0 s); discriminate.
Qed.

Lemma join_cons sep x y l :
  join sep (x :: y :: l) = (x ++ sep ++ join sep (y :: l))%string.
Proof. reflexivity. Qed.

Lemma join_push sep c h t :
  join sep (String c h :: t) = String c (join sep (h :: t)).
Proof. destruct t; reflexivity. Qed.

(** Replacing the matches is joining the pieces between them. *)
Lemma join_split_scan alts by_ s : forall skip,
  join by_ (split_scan alts skip s) = replace_scan alts by_ skip s.
Proof.
  induction s as [|a s IH]; intros skip; [reflexivity|].
  cbn [split_scan replace_scan]. destruct skip; [|apply IH].
  assert (Hno : join by_ match split_scan alts 0 s with
                         | h :: t => String a h :: t
                         | [] => [String a ""]
                         end
                = String a (replace_scan alts by_ 0 s)).
  { rewrite <- IH. pose proof (split_scan_nonempty alts s 0) as Hne.
    destruct (split_scan alts 0 s) as [|h t]; [contradiction|apply join_push]. }
  destruct (match_pattern alts (String a s)) as [[|k]|]; try exact Hno.
  rewrite <- IH. pose proof (split_scan_nonempty alts s k) as Hne.
  destruct (split_scan alts k s) as [|h t]; [contradiction|reflexivity].
Qed.

Lemma occurrences_app c s t :
  occurrences c (s ++ t) = occurrences c s + occurrences c t.
Proof. induction s as [|a s IH]; cbn; [reflexivity|rewrite IH; lia]. Qed.

Lemma single_line_app s t :
  single_line (s ++ t) <-> single_line s /\ single_line t.
Proof. unfold single_line. rewrite !occurrences_app. lia. Qed.

Lemma single_line_cons a s :
  single_line (String a s)
  <-> (Ascii.eqb a LF = false /\ Ascii.eqb a CR = false) /\ single_line s.
Proof.
  unfold single_line. cbn [occurrences].
  destruct (Ascii.eqb a LF), (Ascii.eqb a CR); cbn; intuition (try lia; try discriminate).
Qed.

Lemma split_scan_single_line s : forall skip,
  Forall single_line (split_scan line_break skip s).
Proof.
  induction s as [|a s IH]; intros skip.
  - repeat constructor.
  - cbn [split_scan]. destruct skip; [|apply IH].
    rewrite match_line_break.
    assert (Hbreak : forall k, Forall single_line ("" :: split_scan line_break k s)).
    { intros k. constructor; [split; reflexivity|apply IH]. }
    destruct (Ascii.eqb a CR) eqn:Ecr.
    { destruct s as [|b s']; [apply Hbreak|]. destruct (Ascii.eqb b LF); apply Hbreak. }
    destruct (Ascii.eqb a LF) eqn:Elf; [apply Hbreak|].
    specialize (IH 0). destruct (split_scan line_break 0 s) as [|h t].
    + constructor; [|constructor]. apply single_line_cons. repeat split; assumption.
    + inversion IH; subst. constructor; [|assumption].
      apply single_line_cons. split; [split|]; assumption.
Qed.

Lemma occurrences_join c sep l :
  Forall (fun s => occurrences c s = 0) l -> occurrences c sep = 0 ->
  occurrences c (join sep l) = 0.
Proof.
  intros H Hs. induction H as [|x l Hx Hl IH]; [reflexivity|].
  destruct l as [|y l]; [assumption|].
  rewrite join_cons, !occurrences_app, IH, Hx, Hs. reflexivity.
Qed.

Lemma single_line_join sep l :
  single_line sep -> Forall single_line l -> single_line (join sep l).
Proof.
  intros Hs H. induction H as [|x l Hx Hl IH]; [split; reflexivity|].
  destruct l as [|y l]; [assumption|].
  rewrite join_cons. apply single_line_app. split; [assumption|].
  apply single_line_app. split; assumption.
Qed.

Lemma String_replace_single_line s :
  single_line (String_replace line_break " " s).
Proof.
  unfold String_replace. rewrite <- join_split_scan.
  apply single_line_join; [split; reflexivity|apply split_scan_single_line].
Qed.

Lemma String_replace_short_single_line s :
  single_line (String_replace line_break_short " " s).
Proof.
  unfold String_replace. rewrite replace_scan_short. apply String_replace_single_line.
Qed.

(** ** HTML escaping *)

Lemma escapeHtml_cons a s :
  escapeHtml (String a s) = (entity a ++ escapeHtml s)%string.
Proof.
  unfold escapeHtml, entity.
  rewrite (String_replace_chr_cons "&").
  destruct (Ascii.eqb_spec a "&") as [->|Hamp].
  { now rewrite !String_replace_chr_app. }
  rewrite (String_replace_chr_cons "<").
  destruct (Ascii.eqb_spec a "<") as [->|Hlt].
  { now rewrite !String_replace_chr_app. }
  rewrite (String_replace_chr_cons ">").
  destruct (Ascii.eqb_spec a ">") as [->|Hgt].
  { now rewrite !String_replace_chr_app. }
  rewrite (String_replace_chr_cons dquote).
  destruct (Ascii.eqb_spec a dquote) as [->|Hq]; reflexivity.
Qed.

Lemma escapeHtml_app s t :
  escapeHtml (s ++ t) = (escapeHtml s ++ escapeHtml t)%string.
Proof.
  induction s as [|a s IH]; [reflexivity|].
  cbn [String.append]. now rewrite !escapeHtml_cons, IH, string_append_assoc.
Qed.

Lemma escapeHtml_join sep l :
  escapeHtml (join sep l) = join (escapeHtml sep) (map escapeHtml l).
Proof.
  induction l as [|x l IH]; [reflexivity|].
  destruct l as [|y l]; [reflexivity|].
  cbn [map]. rewrite !join_cons, !escapeHtml_app, IH. reflexivity.
Qed.

(** A code unit [c] that no entity holds occurs in the escaped text as
    often as in the text, and the four escaped code units not at all. *)
Lemma occurrences_entity c a :
  occurrences c (entity a)
  = if existsb (Ascii.eqb a) ["&"; "<"; ">"; dquote]%char
    then occurrences c (entity a)
    else if Ascii.eqb a c then 1 else 0.
Proof.
  unfold entity. cbn [existsb].
  destruct (Ascii.eqb a "&"); [reflexivity|].
  destruct (Ascii.eqb a "<"); [reflexivity|].
  destruct (Ascii.eqb a ">"); [reflexivity|].
  destruct (Ascii.eqb a dquote); [reflexivity|].
  cbn. destruct (Ascii.eqb a c); reflexivity.
Qed.

Lemma escapeHtml_no_markup s :
  occurrences "<" (escapeHtml s) = 0
  /\ occurrences ">" (escapeHtml s) = 0
  /\ occurrences dquote (escapeHtml s) = 0.
Proof.
  induction s as [|a s (I1 & I2 & I3)]; [repeat split|].
  rewrite escapeHtml_cons, !occurrences_app, I1, I2, I3. unfold entity.
  destruct (Ascii.eqb_spec a "&") as [->|Hamp]; [repeat split|].
  destruct (Ascii.eqb_spec a "<") as [->|Hlt]; [repeat split|].
  destruct (Ascii.eqb_spec a ">") as [->|Hgt]; [repeat split|].
  destruct (Ascii.eqb_spec a dquote) as [->|Hq]; [repeat split|].
  cbn [occurrences].
  apply Ascii.eqb_neq in Hlt, Hgt, Hq. rewrite Hlt, Hgt, Hq. repeat split.
Qed.

Lemma escapeHtml_single_line s : single_line s -> single_line (escapeHtml s).
Proof.
  induction s as [|a s IH]; [trivial|].
  rewrite single_line_cons, escapeHtml_cons, single_line_app.
  intros [[Hlf Hcr] Hs]. split; [|now apply IH].
  unfold entity.
  destruct (Ascii.eqb a "&"); [split; reflexivity|].
  destruct (Ascii.eqb a "<"); [split; reflexivity|].
  destruct (Ascii.eqb a ">"); [split; reflexivity|].
  destruct (Ascii.eqb a dquote); [split; reflexivity|].
  apply single_line_cons. repeat split; assumption.
Qed.

Lemma unescapeHtml_escapeHtml s : unescapeHtml (escapeHtml s) = s.
Proof.
  induction s as [|a s IH]; [reflexivity|].
  rewrite escapeHtml_cons. unfold entity.
  destruct (Ascii.eqb_spec a "&") as [->|Hamp]; [cbn; now rewrite IH|].
  destruct (Ascii.eqb_spec a "<") as [->|Hlt]; [cbn; now rewrite IH|].
  destruct (Ascii.eqb_spec a ">") as [->|Hgt]; [cbn; now rewrite IH|].
  destruct (Ascii.eqb_spec a dquote) as [->|Hq]; [cbn; now rewrite IH|].
  cbn [String.append unescapeHtml]. apply Ascii.eqb_neq in Hamp. now rewrite Hamp, IH.
Qed.

(** X1.  [escapeHtml] loses nothing and lets no markup through: two
    different texts are escaped to two different texts, and the escaped
    text holds no [<], no [>] and no double quote.  (The ampersand is
    replaced first; replaced last, it would escape the entities of the
    other three again.) *)
Theorem escapeHtml_injective_and_safe :
  (forall s t, escapeHtml s = escapeHtml t <-> s = t)
  /\ (forall s, occurrences "<" (escapeHtml s) = 0
                /\ occurrences ">" (escapeHtml s) = 0
                /\ occurrences dquote (escapeHtml s) = 0)
  /\ (forall s t, escapeHtml (s ++ t) = (escapeHtml s ++ escapeHtml t)%string).
Proof.
  split; [|split].
  - intros s t. split; [|now intros ->].
    intros H. apply (f_equal unescapeHtml) in H.
    now rewrite !unescapeHtml_escapeHtml in H.
  - apply escapeHtml_no_markup.
  - apply escapeHtml_app.
Qed.

(** ** The body cell *)

Lemma only_br_tags_plain s t :
  occurrences "<" s = 0 -> occurrences ">" s = 0 ->
  only_br_tags (s ++ t) = only_br_tags t.
Proof.
  induction s as [|a s IH]; [reflexivity|].
  cbn [occurrences String.append only_br_tags].
  destruct (Ascii.eqb a "<"); [discriminate|].
  destruct (Ascii.eqb a ">"); [discriminate|]. exact IH.
Qed.

Lemma only_br_tags_none s :
  occurrences "<" s = 0 -> occurrences ">" s = 0 -> only_br_tags s = true.
Proof.
  induction s as [|a s IH]; [reflexivity|].
  cbn [occurrences only_br_tags].
  destruct (Ascii.eqb a "<"); [discriminate|].
  destruct (Ascii.eqb a ">"); [discriminate|]. exact IH.
Qed.

Lemma only_br_tags_join l :
  Forall (fun s => occurrences "<" s = 0 /\ occurrences ">" s = 0) l ->
  only_br_tags (join "<br>" l) = true.
Proof.
  intros H. induction H as [|x l [H1 H2] Hl IH]; [reflexivity|].
  destruct l as [|y l].
  - now apply only_br_tags_none.
  - rewrite join_cons, only_br_tags_plain by assumption. exact IH.
Qed.

(** What [formatBodyForHtml] returns, whichever the preference: the
    escaped lines of the body, joined. *)
Lemma formatBodyForHtml_lines removeNewlines str :
  str <> "" ->
  formatBodyForHtml removeNewlines str
  = join (if removeNewlines then " " else "<br>")
         (map escapeHtml (String_split line_break str)).
Proof.
  intros Hne. unfold formatBodyForHtml. apply String.eqb_neq in Hne. rewrite Hne.
  destruct removeNewlines; [|reflexivity].
  unfold String_replace, String_split. rewrite <- join_split_scan.
  now rewrite escapeHtml_join.
Qed.

(** X2.  The body cell of the table: with or without the preference
    [removeNewlines] it is the escaped lines of the body, joined by a
    space or by [<br>]; it is on one line, holds no double quote, and
    opens no tag but [<br>] (none at all when line breaks are removed). *)
Theorem formatBodyForHtml_safe (removeNewlines : bool) (str : string) :
  let cell := formatBodyForHtml removeNewlines str in
  (str = "" /\ cell = "[deleted]"
   \/ str <> ""
      /\ cell = join (if removeNewlines then " " else "<br>")
                     (map escapeHtml (String_split line_break str)))
  /\ single_line cell
  /\ occurrences dquote cell = 0
  /\ only_br_tags cell = true
  /\ (removeNewlines = true -> occurrences "<" cell = 0).
Proof.
  cbv zeta. destruct (String.eqb_spec str "") as [->|Hne].
  { split; [left; split; reflexivity|]. repeat split. }
  rewrite (formatBodyForHtml_lines _ _ Hne).
  split; [right; split; [assumption|reflexivity]|].
  pose proof (split_scan_single_line str 0) as Hl. fold (String_split line_break str) in Hl.
  set (lines := String_split line_break str) in *. clearbody lines.
  assert (Hall : Forall (fun s => single_line s /\ occurrences dquote s = 0
                                 /\ occurrences "<" s = 0 /\ occurrences ">" s = 0)
                        (map escapeHtml lines)).
  { rewrite Forall_forall in *. intros x Hx. apply in_map_iff in Hx.
    destruct Hx as (l & <- & Hin). destruct (escapeHtml_no_markup l) as (H1 & H2 & H3).
    repeat split; try assumption; now apply escapeHtml_single_line, Hl. }
  clear Hl. set (cells := map escapeHtml lines) in *. clearbody cells.
  assert (Hone : forall sep, single_line sep -> single_line (join sep cells)).
  { intros sep Hs. apply single_line_join; [assumption|].
    rewrite Forall_forall in *. intros x Hx. now apply Hall. }
  assert (Hocc : forall c sep,
             (forall x, In x cells -> occurrences c x = 0) ->
             occurrences c sep = 0 -> occurrences c (join sep cells) = 0).
  { intros c sep Hc Hs. apply occurrences_join; [|assumption].
    now apply Forall_forall. }
  rewrite Forall_forall in Hall.
  destruct removeNewlines.
  - assert (Hlt : occurrences "<" (join " " cells) = 0).
    { apply Hocc; [|reflexivity]. intros x Hx. now apply Hall. }
    assert (Hgt : occurrences ">" (join " " cells) = 0).
    { apply Hocc; [|reflexivity]. intros x Hx. now apply Hall. }
    split; [apply Hone; split; reflexivity|].
    split; [apply Hocc; [|reflexivity]; intros x Hx; now apply Hall|].
    split; [now apply only_br_tags_none|]. intros _. exact Hlt.
  - split; [apply Hone; split; reflexivity|].
    split; [apply Hocc; [|reflexivity]; intros x Hx; now apply Hall|].
    split; [|discriminate].
    apply only_br_tags_join. apply Forall_forall. intros x Hx.
    destruct (Hall x Hx) as (_ & _ & Ha & Hb). split; assumption.
Qed.

(** X3.  The two line-break patterns of the script,
    [/\r?\n|\n\r|\n|\r/] and [/\r?\n|\r/], match the same breaks (the
    alternatives [\n\r] and [\n] of the first are never reached), a
    replacement joins what a split separates, and the text with its
    breaks replaced by a space is on one line. *)
Theorem line_break_patterns_agree (s : string) :
  String_replace line_break_short " " s = String_replace line_break " " s
  /\ String_split line_break_short s = String_split line_break s
  /\ join " " (String_split line_break s) = String_replace line_break " " s
  /\ single_line (String_replace line_break " " s)
  /\ (single_line s -> String_replace line_break " " s = s).
Proof.
  split; [apply replace_scan_short|]. split; [apply split_scan_short|].
  split; [apply join_split_scan|]. split; [apply String_replace_single_line|].
  unfold String_replace. induction s as [|a s IH]; [reflexivity|].
  rewrite single_line_cons. intros [[Hlf Hcr] Hs].
  cbn [replace_scan]. rewrite match_line_break, Hcr, Hlf. f_equal. now apply IH.
Qed.

(** ** The CSV row *)

Lemma starts_with_dquote_dec s :
  {exists r, s = String dquote r} + {forall r, s <> String dquote r}.
Proof.
  destruct s as [|a s]; [right; discriminate|].
  destruct (Ascii.eqb_spec a dquote) as [->|H]; [left; now exists s|].
  right. intros r E. injection E as E _. contradiction.
Qed.

(** The closing quote of a cell is found again: what follows a cell
    does not start with a quote, the quotes within it are doubled. *)
Lemma csv_cell_end a : forall b ra rb,
  (forall r, ra <> String dquote r) -> (forall r, rb <> String dquote r) ->
  (String_replace (chr dquote) dquote2 a ++ String dquote ra)%string
  = (String_replace (chr dquote) dquote2 b ++ String dquote rb)%string ->
  a = b /\ ra = rb.
Proof.
  induction a as [|x a IH]; intros [|y b] ra rb Ha Hb.
  - cbn. intros E. injection E as E. now split.
  - rewrite String_replace_chr_cons. cbn [String_replace replace_scan String.append].
    destruct (Ascii.eqb_spec y dquote) as [->|Hy]; cbn [dquote2 String.append].
    + intros E. injection E as E. now apply Ha in E.
    + intros E. injection E as E _. now symmetry in E.
  - rewrite String_replace_chr_cons. cbn [String_replace replace_scan String.append].
    destruct (Ascii.eqb_spec x dquote) as [->|Hx]; cbn [dquote2 String.append].
    + intros E. injection E as E. symmetry in E. now apply Hb in E.
    + intros E. injection E as E _. contradiction.
  - rewrite !String_replace_chr_cons.
    destruct (Ascii.eqb_spec x dquote) as [->|Hx];
      destruct (Ascii.eqb_spec y dquote) as [->|Hy]; cbn [dquote2 String.append].
    + intros E. injection E as E. destruct (IH b ra rb Ha Hb E) as [-> ->]. now split.
    + intros E. injection E as E _. now symmetry in E.
    + intros E. injection E as E _. contradiction.
    + intros E. injection E as E1 E. destruct (IH b ra rb Ha Hb E) as [-> ->].
      subst. now split.
Qed.

Lemma convertToCsvRow_cons x l :
  convertToCsvRow (x :: l)
  = String dquote
      (String_replace (chr dquote) dquote2 x
       ++ String dquote match l with
                        | [] => ""
                        | _ => String "," (convertToCsvRow l)
                        end)%string.
Proof.
  unfold convertToCsvRow. destruct l as [|y l]; cbn [map].
  - reflexivity.
  - rewrite join_cons. unfold csv_cell at 1. cbn [String.append]. f_equal.
    rewrite string_append_assoc. reflexivity.
Qed.

Lemma convertToCsvRow_inj l1 : forall l2,
  convertToCsvRow l1 = convertToCsvRow l2 -> l1 = l2.
Proof.
  induction l1 as [|x l1 IH]; intros [|y l2].
  - reflexivity.
  - rewrite convertToCsvRow_cons. discriminate.
  - rewrite convertToCsvRow_cons. discriminate.
  - rewrite !convertToCsvRow_cons. intros E. injection E as E.
    apply csv_cell_end in E.
    + destruct E as [-> E]. f_equal. destruct l1, l2; try discriminate; [reflexivity|].
      injection E as E. now apply IH.
    + destruct l1; discriminate.
    + destruct l2; discriminate.
Qed.

(** X4.  A CSV row can be read back: two different lists of cells are
    written as two different rows, whatever commas, quotes and line
    breaks the cells hold. *)
Theorem convertToCsvRow_unambiguous (arr1 arr2 : list string) :
  arr1 <> arr2 -> convertToCsvRow arr1 <> convertToCsvRow arr2.
Proof. intros H E. apply H. now apply convertToCsvRow_inj. Qed.

Lemma convertToCsvRow_unambiguous_witness :
  ["a,b"] <> ["a"; "b"]
  /\ convertToCsvRow ["a,b"] <> convertToCsvRow ["a"; "b"].
Proof.
  split; [discriminate|].
  apply (convertToCsvRow_unambiguous ["a,b"] ["a"; "b"]). discriminate.
Defined.

(** ** The scores *)

(** X5.  The score of a record, and of the post, is not a number exactly
    when the listing gives no number as [score] and [ups] or [downs] is
    absent; a vote that is [null] counts as 0 in the subtraction.  With
    a number as [score] the score is that number, and without one, when
    neither vote is absent, it is the difference of the two votes the
    record shows. *)
Theorem score_is_NaN_iff (numberingArray : list nat) (c : comment) (p : post) :
  let r := make_row numberingArray c in
  let info := extractPostInfo p in
  (score r = NaN
   <-> value_of (c_score c) = None /\ (c_ups c = Absent \/ c_downs c = Absent))
  /\ (post_score info = NaN
      <-> value_of (p_score p) = None /\ (p_ups p = Absent \/ p_downs p = Absent))
  /\ (forall s, c_score c = Present s -> score r = Num s)
  /\ (forall s, p_score p = Present s -> post_score info = Num s)
  /\ (value_of (c_score c) = None -> c_ups c <> Absent -> c_downs c <> Absent ->
      score r = Num (upvotes r - downvotes r))
  /\ (value_of (p_score p) = None -> p_ups p <> Absent -> p_downs p <> Absent ->
      post_score info = Num (post_ups info - post_downs info)).
Proof.
  cbv zeta. unfold make_row, extractPostInfo.
  cbn [score upvotes downvotes post_score post_ups post_downs].
  assert (Hz : forall z, (if (z =? 0)%Z then 0%Z else z) = z).
  { intros z. destruct (Z.eqb_spec z 0); congruence. }
  split; [|split; [|split; [|split; [|split]]]].
  - destruct (c_score c) as [| |s], (c_ups c) as [| |u], (c_downs c) as [| |d];
      cbn; intuition congruence.
  - destruct (p_score p) as [| |s], (p_ups p) as [| |u], (p_downs p) as [| |d];
      cbn; intuition congruence.
  - now intros s ->.
  - now intros s ->.
  - destruct (c_score c) as [| |s], (c_ups c) as [| |u], (c_downs c) as [| |d];
      cbn; rewrite ?Hz; intros; try contradiction; try discriminate; reflexivity.
  - destruct (p_score p) as [| |s], (p_ups p) as [| |u], (p_downs p) as [| |d];
      cbn; rewrite ?Hz; intros; try contradiction; try discriminate; reflexivity.
Qed.

(** ** The CSV file *)

Lemma formatDate_returns format utcSeconds :
  In format ["iso8601"; "rfc1123"; "utc"] ->
  exists d, formatDate format utcSeconds = Returns d.
Proof.
  intros H. unfold formatDate. destruct (num_or_null utcSeconds); [|eauto].
  destruct H as [<-|[<-|[<-|[]]]]; cbn; eauto.
Qed.

Lemma string_of_uint_single_line d : single_line (NilEmpty.string_of_uint d).
Proof.
  induction d; cbn [NilEmpty.string_of_uint]; try (split; reflexivity);
    apply single_line_cons; (split; [split; reflexivity|assumption]).
Qed.

Lemma String_of_nat_single_line n : single_line (String_of_nat n).
Proof. apply string_of_uint_single_line. Qed.

Lemma String_of_Z_single_line z : single_line (String_of_Z z).
Proof.
  unfold String_of_Z. destruct (Z.to_int z); cbn [NilEmpty.string_of_int].
  - apply string_of_uint_single_line.
  - apply single_line_cons. split; [split; reflexivity|].
    apply string_of_uint_single_line.
Qed.

Lemma numbering_of_single_line arr : single_line (numbering_of arr).
Proof.
  unfold numbering_of. apply single_line_join; [split; reflexivity|].
  apply Forall_forall. intros x Hx. apply in_map_iff in Hx.
  destruct Hx as (n & <- & _). apply String_of_nat_single_line.
Qed.

Lemma csv_cell_single_line x : single_line x -> single_line (csv_cell x).
Proof.
  intros Hx. unfold csv_cell. apply single_line_cons. split; [split; reflexivity|].
  apply single_line_app. split; [|split; reflexivity].
  induction x as [|a x IH]; [split; reflexivity|].
  apply single_line_cons in Hx. destruct Hx as [[Hlf Hcr] Hx].
  rewrite String_replace_chr_cons. destruct (Ascii.eqb a dquote).
  - apply single_line_app. split; [split; reflexivity|now apply IH].
  - apply single_line_cons. split; [split; assumption|now apply IH].
Qed.

Lemma convertToCsvRow_single_line arr :
  Forall single_line arr -> single_line (convertToCsvRow arr).
Proof.
  intros H. unfold convertToCsvRow. apply single_line_join; [split; reflexivity|].
  apply Forall_forall. intros x Hx. apply in_map_iff in Hx.
  destruct Hx as (y & <- & Hy). apply csv_cell_single_line.
  rewrite Forall_forall in H. now apply H.
Qed.

Lemma one_line_row arr :
  Forall single_line arr -> one_line (convertToCsvRow arr ++ String LF "").
Proof.
  intros H. destruct (convertToCsvRow_single_line arr H) as [H1 H2].
  unfold one_line. rewrite !occurrences_app, H1, H2. split; reflexivity.
Qed.

Lemma csv_content_lines line data :
  (forall r, In r data -> exists l, line r = Returns l /\ one_line l) ->
  forall header,
  exists content,
    csv_content line header data = Returns content
    /\ occurrences LF content = occurrences LF header + List.length data
    /\ occurrences CR content = occurrences CR header.
Proof.
  unfold csv_content. induction data as [|r data IH]; intros H header.
  - exists header. cbn. repeat split. lia.
  - destruct (H r (or_introl eq_refl)) as (l & El & Hl1 & Hl2).
    cbn [fold_left and_then]. rewrite El. cbn [and_then].
    destruct (IH (fun x Hx => H x (or_intror Hx)) (header ++ l)%string)
      as (content & Ec & H1 & H2).
    exists content. split; [exact Ec|].
    rewrite H1, H2, !occurrences_app, Hl1, Hl2. cbn [List.length]. split; lia.
Qed.

Lemma csv_compact_line_one format newlines r :
  In format ["iso8601"; "rfc1123"; "utc"] -> single_line (numbering r) ->
  exists l, csv_compact_line format newlines r = Returns l /\ one_line l.
Proof.
  intros Hf Hn. unfold csv_compact_line.
  destruct (formatDate_returns format (dateUtc r) Hf) as (d & ->).
  cbn [and_then]. eexists. split; [reflexivity|].
  apply one_line_row.
  constructor; [assumption|].
  constructor; [apply String_replace_short_single_line|constructor].
Qed.

Lemma csv_full_line_one format newlines r :
  In format ["iso8601"; "rfc1123"; "utc"] -> single_line (numbering r) ->
  single_line (author r) -> (newlines = false -> single_line (body r)) ->
  exists l, csv_full_line format newlines r = Returns l /\ one_line l.
Proof.
  intros Hf Hn Ha Hb. unfold csv_full_line.
  destruct (formatDate_returns format (dateUtc r) Hf) as (d & ->).
  cbn [and_then]. eexists. split; [reflexivity|].
  apply one_line_row.
  constructor; [assumption|].
  constructor; [apply String_of_nat_single_line|].
  constructor; [destruct newlines; [apply String_replace_single_line|now apply Hb]|].
  constructor; [assumption|].
  constructor; [apply String_replace_short_single_line|].
  constructor; [apply String_of_Z_single_line|].
  constructor; [apply String_of_Z_single_line|constructor].
Qed.

(** X6.  The file [downloadCSV] writes for an export, sorted or not, in
    one of the three named date formats: in compact mode it has one line
    for the header and one line for each record, whatever line breaks
    the bodies and the authors hold; with seven columns it has as many
    when no author holds a line break and the bodies have theirs removed
    or hold none. *)
Theorem downloadCSV_one_line_per_record (comments : list child) (s : session) :
  tableBuilt (table s) = true ->
  tableData (table s) <> [] ->
  Permutation (flat_sequence comments) (tableData (table s)) ->
  In (selectedDateFormat s) ["iso8601"; "rfc1123"; "utc"] ->
  (isCompactMode s = false ->
   Forall (fun r => single_line (author r)
                    /\ (removeNewlines s = false -> single_line (body r)))
          (tableData (table s))) ->
  exists content,
    downloadCSV s = Returns (File "reddit_comments.csv" content)
    /\ occurrences LF content = S (List.length (tableData (table s)))
    /\ occurrences CR content = 0.
Proof.
  intros Hb Hne Hp Hf Hfull. unfold downloadCSV. rewrite Hb.
  assert (Hlen : (List.length (tableData (table s)) =? 0)%nat = false).
  { destruct (tableData (table s)); [contradiction|reflexivity]. }
  rewrite Hlen. cbn [negb orb]. clear Hne Hlen.
  assert (Hnum : forall r, In r (tableData (table s)) -> single_line (numbering r)).
  { intros r Hr. apply (Permutation_in _ (Permutation_sym Hp)) in Hr.
    destruct (flat_sequence_numbering _ _ Hr) as (arr & _ & _ & -> & _).
    apply numbering_of_single_line. }
  destruct (isCompactMode s) eqn:Ec.
  - destruct (csv_content_lines
                (csv_compact_line (selectedDateFormat s) (removeNewlines s))
                (tableData (table s))
                (fun r Hr => csv_compact_line_one _ _ r Hf (Hnum r Hr))
                ("Number,Body (Compact)" ++ String LF ""))
      as (content & -> & H1 & H2).
    exists content. cbn [and_then]. split; [reflexivity|].
    rewrite H1, H2. split; reflexivity.
  - specialize (Hfull eq_refl). rewrite Forall_forall in Hfull.
    destruct (csv_content_lines
                (csv_full_line (selectedDateFormat s) (removeNewlines s))
                (tableData (table s))
                (fun r Hr => csv_full_line_one _ _ r Hf (Hnum r Hr)
                               (proj1 (Hfull r Hr)) (proj2 (Hfull r Hr)))
                ("Number,Level,Body,Author,Date(UTC),Upvotes,Downvotes"
                 ++ String LF ""))
      as (content & -> & H1 & H2).
    exists content. cbn [and_then]. split; [reflexivity|].
    rewrite H1, H2. split; reflexivity.
Qed.

Lemma downloadCSV_one_line_per_record_witness :
  let comments := [T1 (sample_comment (String "a" (String LF "b")) 1)
                      (Some [T1 (sample_comment "c" 2) None])] in
  let s := {| table := {| tableData := flat_sequence comments;
                          tableBuilt := true; sortAsc := true |};
              selectedDateFormat := "utc"; isCompactMode := true;
              removeNewlines := false; postInfo := None |} in
  exists content,
    downloadCSV s = Returns (File "reddit_comments.csv" content)
    /\ occurrences LF content = 3
    /\ occurrences CR content = 0.
Proof.
  intros comments s.
  apply (downloadCSV_one_line_per_record comments s).
  - reflexivity.
  - discriminate.
  - apply Permutation_refl.
  - right; right; left; reflexivity.
  - discriminate.
Defined.

(** ** What a sort leaves *)

Lemma orderable_numbering r : orderable "numbering" r.
Proof. intros H. discriminate H. Qed.

Lemma cmp_tie_column_order column asc a b :
  orderable column a -> orderable column b ->
  cmp_tie (comparator column asc) a b = (column_order column a b =? 0)%Z.
Proof.
  intros Ha Hb. unfold cmp_tie.
  rewrite !comparator_column_order by assumption. cbn [keeps_before].
  pose proof (column_order_antisym column a b).
  destruct asc;
    destruct (Z.eqb_spec (column_order column a b) 0);
    destruct (Z.leb_spec (column_order column a b) 0);
    destruct (Z.leb_spec (column_order column b a) 0);
    destruct (Z.leb_spec (- column_order column a b) 0);
    destruct (Z.leb_spec (- column_order column b a) 0);
    cbn; try reflexivity; lia.
Qed.

Lemma sort_by_column_ordered column (asc : bool) l :
  Forall (orderable column) l ->
  StronglySorted (fun a b => if asc then (column_order column a b <= 0)%Z
                             else (column_order column b a <= 0)%Z)
                 (Array_sort (comparator column asc) l).
Proof.
  intros Ho. pose proof (sort_by_column_sorted column asc _ Ho) as Hs.
  assert (Ho' : Forall (orderable column) (Array_sort (comparator column asc) l)).
  { rewrite Forall_forall in *. intros r Hr. apply Ho. now apply Array_sort_In in Hr. }
  induction Hs as [|a s Hs' IH Hall]; [constructor|].
  inversion Ho' as [|? ? Ha Hl]; subst.
  constructor; [now apply IH|].
  rewrite Forall_forall in *. intros b Hb. apply cmp_le_column_order; auto.
Qed.

Lemma sort_by_column_stable column asc l k :
  Forall (orderable column) l -> orderable column k ->
  filter (fun r => (column_order column k r =? 0)%Z)
         (Array_sort (comparator column asc) l)
  = filter (fun r => (column_order column k r =? 0)%Z) l.
Proof.
  intros Ho Hk.
  pose proof (Array_sort_stable (comparator column asc) (orderable column)
                (comparator_trans column asc) l k Ho Hk) as Hst.
  assert (Hf : forall s, Forall (orderable column) s ->
                filter (cmp_tie (comparator column asc) k) s
                = filter (fun r => (column_order column k r =? 0)%Z) s).
  { intros s Hs. induction Hs as [|x s Hx Hs IH]; [reflexivity|].
    cbn [filter]. rewrite cmp_tie_column_order, IH by assumption. reflexivity. }
  rewrite <- !Hf; [exact Hst|assumption|].
  rewrite Forall_forall in *. intros r Hr. apply Ho. now apply Array_sort_In in Hr.
Qed.

(** X7.  A sort that takes place leaves the records in the order of the
    column: ascending when the flag was set, descending otherwise; it
    keeps every record, and the records that tie under the column stay
    in the order they had.  For the column [score] this assumes every
    score is a number. *)
Theorem sortTable_orders_the_table (column : string) (st : state) :
  tableBuilt st = true ->
  tableData st <> [] ->
  column_in_row column = true \/ column = "body" ->
  Forall (orderable column) (tableData st) ->
  let sorted := tableData (sortTable column st) in
  StronglySorted (fun a b => if sortAsc st
                             then (column_order column a b <= 0)%Z
                             else (column_order column b a <= 0)%Z) sorted
  /\ Permutation (tableData st) sorted
  /\ (forall k, orderable column k ->
        filter (fun r => (column_order column k r =? 0)%Z) sorted
        = filter (fun r => (column_order column k r =? 0)%Z) (tableData st)).
Proof.
  intros Hb Hne Hc Ho. cbv zeta. rewrite sortTable_sorts by assumption.
  cbn [tableData]. split; [|split].
  - now apply sort_by_column_ordered.
  - apply Array_sort_perm.
  - intros k Hk. now apply sort_by_column_stable.
Qed.

Lemma sortTable_orders_the_table_witness :
  let rows := flat_sequence [T1 (sample_comment "b" 1) None;
                             T1 (sample_comment "a" 2) None;
                             T1 (sample_comment "c" 1) None] in
  let st := {| tableData := rows; tableBuilt := true; sortAsc := false |} in
  let sorted := tableData (sortTable "upvotes" st) in
  StronglySorted (fun a b => (column_order "upvotes" b a <= 0)%Z) sorted
  /\ Permutation rows sorted
  /\ (forall k, orderable "upvotes" k ->
        filter (fun r => (column_order "upvotes" k r =? 0)%Z) sorted
        = filter (fun r => (column_order "upvotes" k r =? 0)%Z) rows).
Proof.
  intros rows st.
  apply (sortTable_orders_the_table "upvotes" st).
  - reflexivity.
  - discriminate.
  - left. reflexivity.
  - repeat constructor; discriminate.
Defined.

(** ** Back to the order of the Flattener *)

Lemma sorted_perm_unique {A} (le : A -> A -> Prop) l1 : forall l2,
  Permutation l1 l2 ->
  StronglySorted le l1 -> StronglySorted le l2 ->
  (forall x y, In x l1 -> In y l1 -> le x y -> le y x -> x = y) ->
  l1 = l2.
Proof.
  induction l1 as [|a l1 IH]; intros l2 Hp H1 H2 Hanti.
  - now apply Permutation_nil in Hp.
  - destruct l2 as [|b l2].
    { apply Permutation_sym, Permutation_nil in Hp. discriminate. }
    inversion H1 as [|? ? S1 F1]; inversion H2 as [|? ? S2 F2]; subst.
    rewrite Forall_forall in F1, F2.
    assert (E : a = b).
    { assert (Ha : In a (b :: l2)) by (apply (Permutation_in _ Hp); now left).
      assert (Hb : In b (a :: l1))
        by (apply (Permutation_in _ (Permutation_sym Hp)); now left).
      destruct Ha as [Ha|Ha]; [now symmetry|].
      destruct Hb as [Hb|Hb]; [assumption|].
      apply Hanti; [now left|now right|now apply F1|now apply F2]. }
    subst b. f_equal. apply IH; try assumption.
    + now apply Permutation_cons_inv in Hp.
    + intros x y Hx Hy. apply Hanti; now right.
Qed.

Lemma StronglySorted_rev {A} (R : A -> A -> Prop) l :
  StronglySorted R l -> StronglySorted (fun a b => R b a) (rev l).
Proof.
  induction 1 as [|a l Hs IH Hall]; [constructor|].
  cbn [rev]. apply StronglySorted_app.
  - exact IH.
  - repeat constructor.
  - intros x y Hx Hy. destruct Hy as [<-|[]].
    rewrite Forall_forall in Hall. apply Hall. now apply in_rev.
Qed.

Lemma NoDup_map_same {A B} (f : A -> B) l x y :
  NoDup (map f l) -> In x l -> In y l -> f x = f y -> x = y.
Proof.
  induction l as [|a l IH]; [contradiction|].
  cbn [map]. intros Hnd Hx Hy E. inversion Hnd as [|? ? Hna Hnd']; subst.
  destruct Hx as [->|Hx], Hy as [->|Hy].
  - reflexivity.
  - exfalso. apply Hna. rewrite E. now apply in_map.
  - exfalso. apply Hna. rewrite <- E. now apply in_map.
  - now apply IH.
Qed.

(** Two records of a flat sequence that the comparator of [numbering]
    ties are the same record. *)
Lemma flat_sequence_tie comments x y :
  In x (flat_sequence comments) -> In y (flat_sequence comments) ->
  column_order "numbering" x y = 0%Z -> x = y.
Proof.
  intros Hx Hy E.
  apply (NoDup_map_same numbering (flat_sequence comments));
    [apply flat_sequence_NoDup|assumption|assumption|].
  destruct (flat_sequence_numbering _ _ Hx) as (a & Ha & Pa & Ea & _).
  destruct (flat_sequence_numbering _ _ Hy) as (b & Hb & Pb & Eb & _).
  unfold column_order in E. cbn [String.eqb Ascii.eqb Bool.eqb] in E.
  rewrite Ea, Eb in *. f_equal. now apply compareNumbering_zero_eq.
Qed.

Lemma sort_numbering_restores comments asc l :
  Permutation (flat_sequence comments) l ->
  Array_sort (comparator "numbering" asc) l
  = if asc then flat_sequence comments else rev (flat_sequence comments).
Proof.
  intros Hp. symmetry.
  assert (Hall : forall l' : list row, Forall (orderable "numbering") l').
  { intros l'. apply Forall_forall. intros r _. apply orderable_numbering. }
  pose proof (flat_sequence_sorted comments) as Hs.
  apply (sorted_perm_unique (cmp_le (comparator "numbering" asc))).
  - destruct asc.
    + rewrite Hp. apply Array_sort_perm.
    + rewrite <- Permutation_rev, Hp. apply Array_sort_perm.
  - destruct asc; [exact Hs|].
    apply StronglySorted_rev in Hs.
    eapply StronglySorted_impl; [|exact Hs].
    intros a b H. apply cmp_le_column_order; try apply orderable_numbering.
    apply cmp_le_column_order in H; try apply orderable_numbering. exact H.
  - apply sort_by_column_sorted, Hall.
  - intros x y Hx Hy Hxy Hyx.
    assert (Hx' : In x (flat_sequence comments))
      by (destruct asc; [assumption|now apply in_rev]).
    assert (Hy' : In y (flat_sequence comments))
      by (destruct asc; [assumption|now apply in_rev]).
    apply (flat_sequence_tie comments); try assumption.
    apply cmp_le_column_order in Hxy, Hyx; try apply orderable_numbering.
    pose proof (column_order_antisym "numbering" x y). destruct asc; lia.
Qed.

(** X8.  Sorting by the column [numbering] brings an export back to the
    order of the Flattener, however it was sorted before: the records
    are exactly those of the flat sequence in its order when the flag is
    set, in the reverse of its order when it is not. *)
Theorem sortTable_numbering_restores_preorder (comments : list child) (st : state) :
  tableBuilt st = true ->
  Permutation (flat_sequence comments) (tableData st) ->
  tableData (sortTable "numbering" st)
  = if sortAsc st then flat_sequence comments else rev (flat_sequence comments).
Proof.
  intros Hb Hp. destruct (tableData st) as [|r l] eqn:Ed.
  - apply Permutation_sym, Permutation_nil in Hp. rewrite Hp.
    rewrite sortTable_guard by (right; left; exact Ed). rewrite Ed.
    now destruct (sortAsc st).
  - rewrite sortTable_sorts; [|assumption|congruence|left; reflexivity].
    cbn [tableData]. apply sort_numbering_restores. now rewrite Ed.
Qed.

Lemma sortTable_numbering_restores_preorder_witness :
  let comments := [T1 (sample_comment "b" 1) (Some [T1 (sample_comment "a" 5) None]);
                   T1 (sample_comment "c" 3) None] in
  let st := sortTable "upvotes"
              {| tableData := flat_sequence comments; tableBuilt := true;
                 sortAsc := true |} in
  tableData (sortTable "numbering" st) = rev (flat_sequence comments).
Proof.
  intros comments st.
  apply (sortTable_numbering_restores_preorder comments st).
  - reflexivity.
  - vm_compute. apply perm_skip, perm_swap.
Defined.

(** ** An export from start to table *)

Lemma renderPostInfo_returns format info :
  In format ["iso8601"; "rfc1123"; "utc"] ->
  renderPostInfo format info = Returns tt.
Proof.
  intros Hf. unfold renderPostInfo.
  now destruct (formatDate_returns format (post_dateUtc info) Hf) as (d & ->).
Qed.

Lemma renderTable_returns format st :
  In format ["iso8601"; "rfc1123"; "utc"] ->
  renderTable format st
  = ({| tableData := tableData st; tableBuilt := true; sortAsc := sortAsc st |},
     Returns tt).
Proof.
  intros Hf. unfold renderTable.
  assert (E : fold_left (fun acc r =>
                           and_then acc (fun _ =>
                           and_then (formatDate format (dateUtc r))
                                    (fun _ => Returns tt)))
                        (tableData st) (Returns tt) = Returns tt).
  { induction (tableData st) as [|r l IH]; [reflexivity|].
    cbn [fold_left and_then].
    now destruct (formatDate_returns format (dateUtc r) Hf) as (d & ->). }
  now rewrite E.
Qed.

(** X9.  An export that succeeds, in one of the three named date
    formats: [startExport] requests the trimmed address followed by
    [.json], and when the listings arrive the table is the flat sequence
    of the new listing alone, whatever the table held before, and is
    marked as built.  The direction flag is not reset: the first click
    on [Number] leaves the order of the Flattener when the flag was set
    before the export, and reverses it when it was not. *)
Theorem export_replaces_the_table
  (field format : string) (compactMode escapeNewLine : bool) (s : session)
  (p : post) (comments : list child) :
  trim field <> "" ->
  In format ["iso8601"; "rfc1123"; "utc"] ->
  let started := startExport field format compactMode escapeNewLine s in
  let loaded := onload (Listings p comments) (fst started) in
  let s' := fst loaded in
  snd started = Some (trim field ++ ".json")%string
  /\ snd loaded = Returns tt
  /\ tableData (table s') = flat_sequence comments
  /\ tableBuilt (table s') = true
  /\ sortAsc (table s') = sortAsc (table s)
  /\ postInfo s' = Some (extractPostInfo p)
  /\ (selectedDateFormat s', isCompactMode s', removeNewlines s')
     = (format, compactMode, escapeNewLine)
  /\ tableData (table (sort_click "numbering" s'))
     = if sortAsc (table s) then flat_sequence comments
       else rev (flat_sequence comments).
Proof.
  intros Hurl Hf. cbv zeta. unfold startExport.
  apply String.eqb_neq in Hurl. rewrite Hurl. cbn [fst snd].
  unfold onload.
  cbn [table selectedDateFormat isCompactMode removeNewlines postInfo tableData
       tableBuilt sortAsc].
  rewrite renderPostInfo_returns, renderTable_returns by assumption.
  cbn [fst snd table selectedDateFormat isCompactMode removeNewlines postInfo tableData
       tableBuilt sortAsc sort_click].
  fold (flat_sequence comments).
  repeat (split; [reflexivity|]).
  destruct (flat_sequence comments) as [|r l] eqn:E.
  - now destruct (sortAsc (table s)).
  - rewrite sortTable_sorts; [|reflexivity|discriminate|left; reflexivity].
    cbn [tableData sortAsc]. rewrite <- E. now apply sort_numbering_restores.
Qed.

Lemma export_replaces_the_table_witness :
  let comments := [T1 (sample_comment "b" 1) (Some [T1 (sample_comment "a" 5) None]);
                   T1 (sample_comment "c" 3) None] in
  let old := {| table := {| tableData := flat_sequence [T1 (sample_comment "x" 0) None];
                            tableBuilt := true; sortAsc := false |};
                selectedDateFormat := "utc"; isCompactMode := false;
                removeNewlines := false; postInfo := None |} in
  let p := {| p_title := Present "t"; p_selftext := Null; p_author := Absent;
              p_permalink := Absent; p_ups := Present 1%Z; p_downs := Null;
              p_score := Absent; p_created_utc := Absent |} in
  let started := startExport " https://www.reddit.com/r/a/comments/b/c/ "
                             "iso8601" true false old in
  let loaded := onload (Listings p comments) (fst started) in
  let s' := fst loaded in
  snd started = Some "https://www.reddit.com/r/a/comments/b/c/.json"
  /\ snd loaded = Returns tt
  /\ tableData (table s') = flat_sequence comments
  /\ tableBuilt (table s') = true
  /\ sortAsc (table s') = false
  /\ postInfo s' = Some (extractPostInfo p)
  /\ (selectedDateFormat s', isCompactMode s', removeNewlines s') = ("iso8601", true, false)
  /\ tableData (table (sort_click "numbering" s')) = rev (flat_sequence comments).
Proof.
  intros comments old p.
  apply (export_replaces_the_table
           " https://www.reddit.com/r/a/comments/b/c/ " "iso8601" true false
           old p comments).
  - discriminate.
  - left. reflexivity.
Defined.

(** X10.  An export that fails: with a blank address [startExport]
    changes nothing and requests nothing; with an address, the table of
    the export before is cleared at once, so when the answer is missing
    or reports an error the session is left with no record, no post and
    a table that is not built: a click on a column changes nothing and
    [downloadCSV] only alerts. *)
Theorem failed_export_leaves_no_table
  (field format : string) (compactMode escapeNewLine : bool) (s : session) :
  let started := startExport field format compactMode escapeNewLine s in
  (trim field = "" -> started = (s, None))
  /\ (trim field <> "" ->
      let loaded := onload Failed (fst started) in
      let s' := fst loaded in
      snd loaded = Returns tt
      /\ tableData (table s') = []
      /\ tableBuilt (table s') = false
      /\ postInfo s' = None
      /\ (forall column, sort_click column s' = s')
      /\ downloadCSV s'
         = Returns (Alert "No table data to download. Please export first.")).
Proof.
  cbv zeta. unfold startExport. split.
  - intros ->. reflexivity.
  - intros Hurl. apply String.eqb_neq in Hurl. rewrite Hurl. cbn [fst snd onload].
    repeat (split; [reflexivity|]). reflexivity.
Qed.

(** ** The width of a date *)

Lemma all_from_spec check count : forall start,
  all_from check start count = true ->
  forall z, (start <= z < start + Z.of_nat count)%Z -> check z = true.
Proof.
  induction count as [|n IH]; intros start H z Hz; [lia|].
  cbn [all_from] in H. apply andb_true_iff in H. destruct H as [H0 H].
  destruct (Z.eq_dec z start) as [->|Hne]; [assumption|].
  apply (IH (start + 1)%Z H). lia.
Qed.

(** From the year 1000 to the year 9999. *)
Lemma civil_from_days_bounds days :
  (-354285 <= days <= 2932896)%Z ->
  let '(y, m, d) := civil_from_days days in
  (1000 <= y <= 9999 /\ 1 <= m <= 12 /\ 1 <= d <= 31)%Z.
Proof.
  intros H. unfold civil_from_days. cbv zeta.
  set (z := (days + 719468)%Z).
  set (era := (z / 146097)%Z).
  set (doe := (z - era * 146097)%Z).
  set (yoe := ((doe - doe / 1460 + doe / 36524 - doe / 146096) / 365)%Z).
  set (doy := (doe - (365 * yoe + yoe / 4 - yoe / 100))%Z).
  set (mp := ((5 * doy + 2) / 153)%Z).
  set (m := (if mp <? 10 then mp + 3 else mp - 9)%Z).
  assert (Hera : (2 <= era <= 24)%Z)
    by (subst era z; Z.to_euclidean_division_equations; lia).
  assert (Hdoe : (0 <= doe <= 146096)%Z)
    by (subst doe era; Z.to_euclidean_division_equations; lia).
  assert (Hlo : (era = 2 -> 72989 <= doe)%Z) by (subst doe era z; lia).
  assert (Hhi : (era = 24 -> doe <= 146036)%Z) by (subst doe era z; lia).
  assert (Hy : (0 <= yoe <= 399 /\ 0 <= doy <= 365)%Z)
    by (subst doy yoe; Z.to_euclidean_division_equations; lia).
  assert (Hmp : (0 <= mp <= 11)%Z)
    by (subst mp; Z.to_euclidean_division_equations; lia).
  assert (Hd : (1 <= doy - (153 * mp + 2) / 5 + 1 <= 31)%Z)
    by (subst mp; Z.to_euclidean_division_equations; lia).
  assert (Hm : (1 <= m <= 12 /\ (m <= 2 <-> 10 <= mp))%Z)
    by (subst m; destruct (Z.ltb_spec mp 10); lia).
  assert (Hylo : (72989 <= doe -> 200 <= yoe + (if m <=? 2 then 1 else 0))%Z).
  { intros Hd0. destruct (Z.leb_spec m 2); 
      subst mp doy yoe; Z.to_euclidean_division_equations; lia. }
  assert (Hyhi : (doe <= 146036 -> yoe + (if m <=? 2 then 1 else 0) <= 399)%Z).
  { intros Hd0. destruct (Z.leb_spec m 2);
      subst mp doy yoe; Z.to_euclidean_division_equations; lia. }
  clearbody m mp doy yoe doe era z.
  destruct (Z.leb_spec m 2); repeat split; try lia.
Qed.

Lemma String_of_Z_width :
  (forall z, (0 <= z <= 9)%Z -> String.length (String_of_Z z) = 1)
  /\ (forall z, (10 <= z <= 99)%Z -> String.length (String_of_Z z) = 2)
  /\ (forall z, (100 <= z <= 999)%Z -> String.length (String_of_Z z) = 3)
  /\ (forall z, (1000 <= z <= 9999)%Z -> String.length (String_of_Z z) = 4).
Proof.
  assert (H : forall w start count,
             all_from (fun z => (String.length (String_of_Z z) =? w)%nat) start count
             = true ->
             forall z, (start <= z < start + Z.of_nat count)%Z ->
                       String.length (String_of_Z z) = w).
  { intros w start count Hc z Hz. apply Nat.eqb_eq.
    exact (all_from_spec _ _ _ Hc z Hz). }
  repeat split; intros z Hz.
  - apply (H 1 0%Z 10); [vm_compute; reflexivity|lia].
  - apply (H 2 10%Z 90); [vm_compute; reflexivity|lia].
  - apply (H 3 100%Z 900); [vm_compute; reflexivity|lia].
  - apply (H 4 1000%Z (Z.to_nat 9000)); [vm_compute; reflexivity|lia].
Qed.

Lemma replicate_length n c : String.length (replicate n c) = n.
Proof. induction n as [|n IH]; cbn; [reflexivity|now rewrite IH]. Qed.

Lemma padStart_length n c s :
  String.length (padStart n c s) = Nat.max n (String.length s).
Proof.
  unfold padStart. rewrite string_length_append, replicate_length. lia.
Qed.

Lemma pad2_width z :
  (0 <= z <= 99)%Z -> String.length (padStart 2 "0" (String_of_Z z)) = 2.
Proof.
  intros H. rewrite padStart_length.
  destruct String_of_Z_width as (W1 & W2 & _).
  destruct (Z.le_gt_cases z 9); [rewrite W1|rewrite W2]; lia.
Qed.

Lemma pad4_width z :
  (1000 <= z <= 9999)%Z -> String.length (pad_Z 4 z) = 4.
Proof.
  intros H. unfold pad_Z. rewrite padStart_length.
  destruct String_of_Z_width as (_ & _ & _ & W4). rewrite W4; lia.
Qed.

Lemma pad3_width z :
  (0 <= z <= 999)%Z -> String.length (pad_Z 3 z) = 3.
Proof.
  intros H. unfold pad_Z. rewrite padStart_length.
  destruct String_of_Z_width as (W1 & W2 & W3 & _).
  destruct (Z.le_gt_cases z 9); [rewrite W1; lia|].
  destruct (Z.le_gt_cases z 99); [rewrite W2|rewrite W3]; lia.
Qed.

Lemma day_name_width w : (0 <= w <= 6)%Z -> String.length (day_name w) = 3.
Proof.
  intros H. unfold day_name.
  assert (E : In (Z.to_nat w) (seq 0 7)) by (apply in_seq; lia).
  cbn in E. repeat (destruct E as [<-|E]; [reflexivity|]). contradiction.
Qed.

Lemma month_name_width m : (0 <= m <= 11)%Z -> String.length (month_name m) = 3.
Proof.
  intros H. unfold month_name.
  assert (E : In (Z.to_nat m) (seq 0 12)) by (apply in_seq; lia).
  cbn in E. repeat (destruct E as [<-|E]; [reflexivity|]). contradiction.
Qed.

(** X11.  From the year 1000 to the year 9999 a date has a fixed width:
    25 characters in the format [iso8601], 20 in [utc], 29 in [rfc1123]
    and 24 in any other (the form of [toISOString]); the year takes four
    characters and every other number is padded to its width. *)
Theorem formatDate_fixed_width (format : string) (secs : Z) :
  (-30610224000 <= secs <= 253402300799)%Z ->
  secs <> 0%Z ->
  exists text,
    formatDate format (Some secs) = Returns text
    /\ String.length text
       = if format =? "iso8601" then 25
         else if format =? "rfc1123" then 29
         else if format =? "utc" then 20
         else 24.
Proof.
  intros Hr Hz. unfold formatDate, num_or_null.
  apply Z.eqb_neq in Hz. rewrite Hz. cbv zeta.
  unfold new_Date.
  assert (Ha : (Z.abs (secs * 1000) <=? 8640000000000000)%Z = true)
    by (apply Z.leb_le; lia).
  rewrite Ha. set (t := (secs * 1000)%Z).
  assert (Hd : (-354285 <= t / msPerDay <= 2932896)%Z).
  { unfold msPerDay. subst t. split.
    - apply Z.div_le_lower_bound; lia.
    - apply Z.lt_succ_r. apply Z.div_lt_upper_bound; lia. }
  pose proof (civil_from_days_bounds _ Hd) as B.
  assert (Hy : (1000 <= YearFromTime t <= 9999)%Z).
  { unfold YearFromTime. destruct (civil_from_days (t / msPerDay)) as [[y m] d].
    cbn [fst snd]. lia. }
  assert (Hm : (0 <= MonthFromTime t <= 11)%Z).
  { unfold MonthFromTime. destruct (civil_from_days (t / msPerDay)) as [[y m] d].
    cbn [fst snd]. lia. }
  assert (Hday : (1 <= DateFromTime t <= 31)%Z).
  { unfold DateFromTime. destruct (civil_from_days (t / msPerDay)) as [[y m] d].
    cbn [fst snd]. lia. }
  clear B.
  assert (Hmod : forall a b, (0 < b -> 0 <= a mod b <= b - 1)%Z).
  { intros a b Hb. pose proof (Z.mod_pos_bound a b Hb). lia. }
  assert (Hh : (0 <= HourFromTime t <= 23)%Z) by (apply (Hmod _ 24%Z); lia).
  assert (Hmi : (0 <= MinFromTime t <= 59)%Z) by (apply (Hmod _ 60%Z); lia).
  assert (Hs : (0 <= SecFromTime t <= 59)%Z) by (apply (Hmod _ 60%Z); lia).
  assert (Hms : (0 <= msFromTime t <= 999)%Z) by (apply (Hmod _ 1000%Z); lia).
  assert (Hw : (0 <= WeekDay t <= 6)%Z) by (apply (Hmod _ 7%Z); lia).
  clear Hmod.
  destruct String_of_Z_width as (_ & _ & _ & W4).
  destruct (format =? "iso8601"); [|destruct (format =? "rfc1123");
                                     [|destruct (format =? "utc")]].
  - eexists. split; [reflexivity|].
    unfold formatUTCAsISO8601, getUTCFullYear, getUTCMonth, getUTCDate,
      getUTCHours, getUTCMinutes, getUTCSeconds, getUTC.
    cbn [js_add String_of_jsnum]. cbv zeta.
    rewrite !string_length_append, !pad2_width, W4 by lia. reflexivity.
  - eexists. split; [reflexivity|].
    unfold toUTCString. cbv zeta.
    assert (Hneg : (YearFromTime t <? 0)%Z = false) by (apply Z.ltb_ge; lia).
    rewrite Hneg, Z.abs_eq by lia. fold (pad_Z 2 (DateFromTime t)).
    unfold pad_Z at 1 3 4 5.
    rewrite !string_length_append, !pad2_width, pad4_width, day_name_width,
      month_name_width by lia.
    reflexivity.
  - eexists. split; [reflexivity|].
    unfold formatUTCAsSimple, getUTCFullYear, getUTCMonth, getUTCDate,
      getUTCHours, getUTCMinutes, getUTCSeconds, getUTC.
    cbn [js_add String_of_jsnum]. cbv zeta.
    rewrite !string_length_append, !pad2_width, W4 by lia. reflexivity.
  - unfold toISOString. cbv zeta.
    assert (Hin : ((0 <=? YearFromTime t) && (YearFromTime t <=? 9999))%Z = true).
    { apply andb_true_iff. split; apply Z.leb_le; lia. }
    rewrite Hin. eexists. split; [reflexivity|].
    unfold pad_Z at 2 3 4 5 6.
    rewrite !string_length_append, !pad2_width, pad4_width, pad3_width by lia.
    reflexivity.
Qed.

Lemma formatDate_fixed_width_witness :
  exists text,
    formatDate "rfc1123" (Some 1741703950%Z) = Returns text
    /\ String.length text = 29.
Proof.
  apply (formatDate_fixed_width "rfc1123" 1741703950%Z); [lia|discriminate].
Defined.

(** X12.  A timestamp beyond the range of [Date] (more than 8.64e15 ms
    from the epoch) is not refused: the formats [iso8601] and [utc]
    spell every field [NaN], [rfc1123] gives [Invalid Date], and only
    with another selector does [formatDate] throw, a [RangeError]. *)
Theorem formatDate_out_of_range (format : string) (secs : Z) :
  (8640000000000000 < Z.abs (secs * 1000))%Z ->
  formatDate format (Some secs)
  = if format =? "iso8601" then Returns "NaN-NaN-NaNTNaN:NaN:NaN+00:00"
    else if format =? "rfc1123" then Returns "Invalid Date"
    else if format =? "utc" then Returns "NaN-NaN-NaNTNaN:NaN:NaNZ"
    else Throws "RangeError".
Proof.
  intros H. unfold formatDate, num_or_null.
  assert (Hz : (secs =? 0)%Z = false) by (apply Z.eqb_neq; lia).
  rewrite Hz. cbv zeta. unfold new_Date.
  assert (Ha : (Z.abs (secs * 1000) <=? 8640000000000000)%Z = false)
    by (apply Z.leb_gt; lia).
  rewrite Ha.
  destruct (format =? "iso8601"); [reflexivity|].
  destruct (format =? "rfc1123"); [reflexivity|].
  destruct (format =? "utc"); reflexivity.
Qed.

Lemma formatDate_out_of_range_witness :
  formatDate "iso8601" (Some 8640000000001%Z)
  = Returns "NaN-NaN-NaNTNaN:NaN:NaN+00:00".
Proof.
  apply (formatDate_out_of_range "iso8601" 8640000000001%Z). reflexivity.
Defined.

(** ** The snippet, bounded *)

(** X13.  A snippet is never longer than 83 characters, and it is empty
    exactly when the body is white space only: such a body is not shown
    as [[deleted]]. *)
Theorem createSnippet_bounded (text : string) :
  String.length (createSnippet text) <= 83
  /\ (createSnippet text = "" <-> text <> "" /\ trim text = "").
Proof.
  unfold createSnippet.
  destruct (String.eqb_spec text "") as [->|Hne].
  { cbn. split; [lia|]. split; [discriminate|]. intros [H _]. now contradiction H. }
  destruct (String.eqb_spec text "[deleted]") as [->|Hnd].
  { cbn. split; [lia|]. split; [discriminate|]. intros [_ H]. discriminate H. }
  cbn [orb]. cbv zeta.
  destruct (Nat.ltb_spec 80 (String.length (trim text))) as [Hlong|Hshort].
  - split.
    + rewrite string_length_append. unfold slice0.
      rewrite substring_prefix_length by lia. cbn. lia.
    + split.
      * intros E. apply (f_equal String.length) in E.
        rewrite string_length_append in E. cbn in E. lia.
      * intros [_ E]. rewrite E in Hlong. cbn in Hlong. lia.
  - split; [lia|]. split; [now split|now intros [_ E]].
Qed.

(** ** The dictionary *)

Lemma dict_own_set d k v k' :
  dict_own (dict_set d k v) k' = if k =? k' then Some v else dict_own d k'.
Proof.
  induction d as [|[k0 v0] d IH]; cbn [dict_set dict_own]; [reflexivity|].
  destruct (String.eqb_spec k0 k) as [->|Hne]; cbn [dict_own].
  - destruct (k =? k'); reflexivity.
  - rewrite IH. destruct (String.eqb_spec k0 k') as [->|Hne'].
    + apply String.eqb_neq in Hne. rewrite String.eqb_sym in Hne. now rewrite Hne.
    + reflexivity.
Qed.

(** X14.  The dictionary holds one own node for each numbering but
    [__proto__], made of the last record with that numbering: a later
    record replaces the node of an earlier one with the same numbering.
    A record numbered [__proto__] creates no property: the node of the
    last such record becomes the prototype of the dictionary, which
    otherwise stays [Object.prototype]. *)
Theorem buildNodeDictionary_last_wins (data : list row) (k : string) :
  let d := buildNodeDictionary data in
  dict_own (own d) k
  = (if k =? "__proto__" then None
     else option_map make_node (last_with_numbering k data))
  /\ proto d = option_map make_node (last_with_numbering "__proto__" data)
  /\ NoDup (map fst (own d)).
Proof.
  cbv zeta. split; [|split; [|apply (buildNodeDictionary_spec data)]].
  - unfold buildNodeDictionary, last_with_numbering.
    induction data as [|r data IH] using rev_ind;
      [cbn; now destruct (k =? "__proto__")|].
    rewrite fold_left_app, rev_unit. cbn [fold_left find].
    rewrite dict_assign_own.
    destruct (String.eqb_spec (numbering r) "__proto__") as [Er|Er].
    + rewrite IH. destruct (String.eqb_spec k "__proto__") as [Ek|Ek];
        [reflexivity|].
      destruct (String.eqb_spec (numbering r) k) as [E|E]; [congruence|reflexivity].
    + rewrite dict_own_set, IH.
      destruct (String.eqb_spec (numbering r) k) as [E|E].
      * destruct (String.eqb_spec k "__proto__") as [Ek|Ek]; [congruence|reflexivity].
      * reflexivity.
  - unfold buildNodeDictionary, last_with_numbering.
    induction data as [|r data IH] using rev_ind; [reflexivity|].
    rewrite fold_left_app, rev_unit. cbn [fold_left find].
    rewrite dict_assign_proto, IH.
    destruct (numbering r =? "__proto__"); reflexivity.
Qed.

(** A record numbered [__proto__] is in no tree.  A parent id that
    names no record is passed over, unless the node that replaced the
    prototype has a truthy member of that name: then the rebuild
    throws. *)
Example rebuild_with_proto_record :
  let record k := {| numbering := k; level := 1; body := "a"; author := "user";
                     upvotes := 1; downvotes := 0; score := Num 1;
                     dateUtc := None |} in
  rebuild [record "1"; record "__proto__"]
  = Returns (HNode (PostRoot "Post")
                   [HNode (CommentNode "1" None (Num 1) "a" "1") [] 1] 1)
  /\ rebuild [record "score.1"] = Returns (HNode (PostRoot "Post") [] 1)
  /\ rebuild [record "__proto__"; record "score.1"] = Throws "TypeError".
Proof. repeat split. Qed.

(** ** The counts of a rebuilt tree *)

Lemma tree_leaves_bounds t :
  1 <= tree_leaves t <= tree_size t
  /\ (tree_children t <> [] -> tree_leaves t < tree_size t).
Proof.
  induction t as [l kids c IH] using htree_nested_ind.
  assert (H : list_sum (map tree_leaves kids) <= list_sum (map tree_size kids)
              /\ (kids <> [] -> 1 <= list_sum (map tree_leaves kids))).
  { induction IH as [|t ts [Ht _] _ [I1 I2]]; [split; [reflexivity|congruence]|].
    change (list_sum (map tree_leaves (t :: ts)))
      with (tree_leaves t + list_sum (map tree_leaves ts)).
    change (list_sum (map tree_size (t :: ts)))
      with (tree_size t + list_sum (map tree_size ts)).
    split; [lia|]. intros _. lia. }
  destruct H as [H1 H2]. cbn [tree_children].
  destruct kids as [|k kids]; cbn [tree_leaves tree_size] in *.
  - split; [cbn; lia|congruence].
  - specialize (H2 ltac:(discriminate)). split; [lia|intros _; lia].
Qed.

Lemma subtrees_self t : In t (subtrees t).
Proof. destruct t. now left. Qed.

Lemma subtrees_children t : forall sub k,
  In sub (subtrees t) -> In k (tree_children sub) -> In k (subtrees t).
Proof.
  induction t as [l ts c IH] using htree_nested_ind. intros sub k.
  cbn [subtrees]. intros [<-|Hin] Hk; right; apply in_flat_map.
  - exists k. split; [assumption|apply subtrees_self].
  - apply in_flat_map in Hin. destruct Hin as (t' & Ht' & Hin).
    exists t'. split; [assumption|].
    rewrite Forall_forall in IH. now apply (IH t' Ht' sub k).
Qed.

(** X15.  In the tree rebuilt from an export, sorted or not, the count
    of every node is the number of leaves under it: 1 for a comment
    without reply, the sum of the counts of its children otherwise, and
    so less than the size of its subtree as soon as it has a child. *)
Theorem rebuild_counts_the_leaves (comments : list child) (data : list row) :
  Permutation (flat_sequence comments) data ->
  exists t,
    rebuild data = Returns t
    /\ forall sub, In sub (subtrees t) ->
         tree_count sub = tree_leaves sub
         /\ (tree_children sub = [] -> tree_count sub = 1)
         /\ (tree_children sub <> [] ->
             tree_count sub = list_sum (map tree_count (tree_children sub))
             /\ tree_count sub < tree_size sub).
Proof.
  intros Hp.
  assert (Hwf : Forall (fun r => well_formed_numbering (numbering r)) data).
  { apply Forall_forall. intros r Hr.
    apply (flat_sequence_well_formed comments).
    now apply (Permutation_in _ (Permutation_sym Hp)). }
  destruct (rebuild_returns data Hwf) as (kids & E & _).
  eexists. split; [exact E|].
  intros sub Hsub. pose proof (computeCounts_all_leaves _ _ Hsub) as Hc.
  split; [assumption|].
  assert (Hkids : forall k, In k (tree_children sub) -> tree_count k = tree_leaves k).
  { intros k Hk. apply (computeCounts_all_leaves (HNode (PostRoot "Post") kids 0)).
    now apply (subtrees_children _ sub). }
  destruct (tree_leaves_bounds sub) as [Hb Hlt].
  destruct sub as [l ks c]. cbn [tree_children tree_count tree_leaves] in *.
  destruct ks as [|k ks].
  - split; [intros _; assumption|congruence].
  - split; [discriminate|]. intros _. split; [|specialize (Hlt ltac:(discriminate)); lia].
    rewrite Hc. f_equal. symmetry. apply map_ext_in. exact Hkids.
Qed.

Lemma rebuild_counts_the_leaves_witness :
  let comments := [T1 (sample_comment "b" 1)
                      (Some [T1 (sample_comment "a" 5) None;
                             T1 (sample_comment "d" 2) None]);
                   T1 (sample_comment "c" 3) None] in
  exists t,
    rebuild (rev (flat_sequence comments)) = Returns t
    /\ forall sub, In sub (subtrees t) ->
         tree_count sub = tree_leaves sub
         /\ (tree_children sub = [] -> tree_count sub = 1)
         /\ (tree_children sub <> [] ->
             tree_count sub = list_sum (map tree_count (tree_children sub))
             /\ tree_count sub < tree_size sub).
Proof.
  intros comments.
  apply (rebuild_counts_the_leaves comments (rev (flat_sequence comments))).
  apply Permutation_rev.
Defined.

(** ** Parents come first *)

Lemma compareArray_parent arr :
  Forall (fun n => 0 < n) arr -> 1 < List.length arr ->
  compareArray (nums arr) (nums (removelast arr)) = 1%Z.
Proof.
  induction arr as [|x arr IH]; [cbn; lia|].
  intros Hpos Hlen. inversion Hpos as [|? ? Hx Hpos']; subst.
  destruct arr as [|y arr]; [cbn in Hlen; lia|].
  change (removelast (x :: y :: arr)) with (x :: removelast (y :: arr)).
  cbn [nums map]. rewrite compareArray_cons.
  rewrite Z.ltb_irrefl. replace (Z.of_nat x >? Z.of_nat x)%Z with false
    by (symmetry; rewrite Z.gtb_ltb; apply Z.ltb_irrefl).
  destruct arr as [|z arr].
  - cbn [removelast map].
    rewrite (compareArray_first_diff [Num (Z.of_nat y)] [] 0).
    + cbn. inversion Hpos' as [|? ? Hy _]; subst.
      destruct (Z.ltb_spec (Z.of_nat y) 0); [lia|reflexivity].
    + intros j Hj. lia.
    + cbn. inversion Hpos' as [|? ? Hy _]; subst. lia.
  - apply IH; [assumption|cbn; lia].
Qed.

(** X16.  In a flat sequence no two records share a numbering, and every
    reply comes after the record it replies to: the record of a
    numbering with more than one segment is preceded by the record of
    that numbering without its last segment, one level up. *)
Theorem flat_sequence_parents_first (comments : list child) :
  NoDup (map numbering (flat_sequence comments))
  /\ forall r, In r (flat_sequence comments) -> 1 < level r ->
       exists p, parent_of (numbering r) = Some (numbering p)
                 /\ S (level p) = level r
                 /\ before p r (flat_sequence comments).
Proof.
  split; [apply flat_sequence_NoDup|].
  intros r Hr Hlev.
  destruct (flat_sequence_numbering _ _ Hr) as (arr & Hne & Hpos & En & El).
  assert (Ep : parent_of (numbering r) = Some (numbering_of (removelast arr))).
  { rewrite En, parent_of_numbering_of by assumption.
    destruct (Nat.ltb_spec 1 (List.length arr)); [reflexivity|lia]. }
  assert (Hin : In (numbering_of (removelast arr))
                   (map numbering (flat_sequence comments))).
  { apply (flat_sequence_parent_closed comments (numbering r)); [|assumption].
    now apply in_map. }
  apply in_map_iff in Hin. destruct Hin as (p & Enp & Hp).
  exists p. split; [now rewrite Enp|].
  destruct (flat_sequence_numbering _ _ Hp) as (parr & Hpne & Hppos & Epn & Epl).
  assert (Eparr : parr = removelast arr).
  { apply numbering_of_inj; [assumption| |now rewrite <- Epn].
    intros E. apply (f_equal (@List.length nat)) in E.
    rewrite removelast_length in E. cbn in E. lia. }
  split; [rewrite Epl, Eparr, removelast_length; lia|].
  apply (sorted_strict_before (cmp_le (comparator "numbering" true))).
  - apply flat_sequence_sorted.
  - assumption.
  - assumption.
  - unfold cmp_le, comparator.
    cbn [String.eqb Ascii.eqb Bool.eqb js_mul direction keeps_before].
    rewrite En, Epn, Eparr. unfold compareNumbering.
    rewrite !numbering_array_numbering_of.
    + fold (nums arr) (nums (removelast arr)).
      rewrite compareArray_parent by (assumption || lia). discriminate.
    + rewrite <- Eparr. assumption.
    + assumption.
  - intros E. subst p. rewrite El, Eparr, removelast_length in Epl. lia.
Qed.

(** ** The comparator on any two arrays *)

Lemma elem_or_zero_app_zero a v i :
  v = NaN \/ v = Num 0 -> elem_or_zero (a ++ [v]) i = elem_or_zero a i.
Proof.
  intros Hv. unfold elem_or_zero.
  destruct (Nat.lt_ge_cases i (List.length a)) as [Hlt|Hge].
  - now rewrite nth_error_app1.
  - rewrite nth_error_app2 by assumption.
    rewrite (proj2 (nth_error_None a i)) by assumption.
    destruct (i - List.length a) as [|n]; cbn.
    + destruct Hv as [->| ->]; reflexivity.
    + now destruct n.
Qed.

(** X17.  [compareArray] is a consistent comparator on any two arrays,
    of any lengths and with segments that are not numbers: its result is
    -1, 0 or 1, swapping the arguments negates it, and it is transitive
    on [<= 0]; it is not an order on the arrays themselves, since a
    trailing segment that is 0 or not a number is ignored. *)
Theorem compareArray_consistent (a b c : list jsnum) :
  (compareArray a b = -1 \/ compareArray a b = 0 \/ compareArray a b = 1)%Z
  /\ compareArray a b = (- compareArray b a)%Z
  /\ compareArray a a = 0%Z
  /\ ((compareArray a b <= 0)%Z -> (compareArray b c <= 0)%Z ->
      (compareArray a c <= 0)%Z)
  /\ compareArray a (a ++ [NaN]) = 0%Z
  /\ compareArray a (a ++ [Num 0]) = 0%Z.
Proof.
  split; [apply compareArray_range|]. split; [apply compareArray_antisym|].
  split; [apply compareArray_refl|]. split; [apply compareArray_trans|].
  assert (H : forall v, v = NaN \/ v = Num 0 -> compareArray a (a ++ [v]) = 0%Z).
  { intros v Hv.
    pose proof (compareArray_range a (a ++ [v])) as Hr.
    destruct (Z.eq_dec (compareArray a (a ++ [v])) 0) as [E|Hn]; [assumption|].
    exfalso. apply Hn. clear Hr Hn. unfold compareArray.
    generalize (Nat.max (List.length a) (List.length (a ++ [v]))) as n.
    generalize 0 as i. intros i n. revert i.
    induction n as [|n IH]; intros i; [reflexivity|].
    cbn [compareArray_loop]. rewrite elem_or_zero_app_zero by assumption.
    rewrite Z.ltb_irrefl, Z.gtb_ltb, Z.ltb_irrefl. apply IH. }
  split; apply H; auto.
Qed.

(** ** The tree view *)

Lemma d3_hierarchy_children l kids c :
  kids <> [] ->
  d3_hierarchy (HNode l kids c)
  = VNode (HNode l kids c) (Some (map d3_hierarchy kids)) None.
Proof. destruct kids; [congruence|reflexivity]. Qed.

Lemma collapseDeep_view t : forall depth,
  held (collapseDeep (d3_hierarchy t) depth) = t
  /\ shown (collapseDeep (d3_hierarchy t) depth)
     = cut match depth with O => 1 | S _ => 0 end t
  /\ tidy (collapseDeep (d3_hierarchy t) depth) = true.
Proof.
  induction t as [l kids c IH] using htree_nested_ind. intros depth.
  assert (Hk : forall d,
             map held (map (fun x => collapseDeep x d) (map d3_hierarchy kids)) = kids
             /\ map shown (map (fun x => collapseDeep x (S d)) (map d3_hierarchy kids))
                = map (cut 0) kids
             /\ forallb tidy (map (fun x => collapseDeep x d) (map d3_hierarchy kids))
                = true).
  { intros d. induction IH as [|k ks Hk _ (I1 & I2 & I3)]; [repeat split|].
    cbn [map forallb]. destruct (Hk d) as (H1 & _ & H3).
    destruct (Hk (S d)) as (_ & H2 & _).
    rewrite H1, H2, H3, I1, I2, I3. repeat split. }
  destruct kids as [|k ks].
  - destruct depth; repeat split.
  - rewrite d3_hierarchy_children by discriminate.
    set (kids := k :: ks) in *. clearbody kids.
    cbn [collapseDeep].
    destruct depth as [|n].
    + cbn [held shown tidy tree_label tree_count cut].
      destruct (Hk 1) as (H1 & _ & H3). destruct (Hk 0) as (_ & H2 & _).
      rewrite H1, H2, H3, app_nil_r. repeat split.
    + cbn [held shown tidy tree_label tree_count cut].
      destruct (Hk (S (S n))) as (H1 & _ & H3).
      rewrite H1, H3. repeat split.
Qed.

Lemma initial_view_spec t :
  shown (initial_view t) = cut 2 t
  /\ held (initial_view t) = t
  /\ tidy (initial_view t) = true.
Proof.
  destruct t as [l kids c]. unfold initial_view.
  destruct kids as [|k ks]; [repeat split|].
  rewrite d3_hierarchy_children by discriminate.
  set (kids := k :: ks). clearbody kids.
  assert (Hk : map shown (map (fun x => collapseDeep x 0) (map d3_hierarchy kids))
               = map (cut 1) kids
               /\ map held (map (fun x => collapseDeep x 0) (map d3_hierarchy kids))
                  = kids
               /\ forallb tidy (map (fun x => collapseDeep x 0) (map d3_hierarchy kids))
                  = true).
  { induction kids as [|x xs (I1 & I2 & I3)]; [repeat split|].
    cbn [map forallb]. destruct (collapseDeep_view x 0) as (H1 & H2 & H3).
    rewrite H1, H2, H3, I1, I2, I3. repeat split. }
  destruct Hk as (H1 & H2 & H3).
  cbn [shown held tidy tree_label tree_count cut].
  rewrite H1, H2, H3, app_nil_r. repeat split.
Qed.

(** X18.  The tree first drawn shows the post, the top-level comments
    and their direct replies, and nothing deeper; every node of the
    hierarchy is still held, shown or hidden, in its place. *)
Theorem initial_view_two_levels (data : htree) :
  shown (initial_view data) = cut 2 data
  /\ held (initial_view data) = data.
Proof.
  destruct (initial_view_spec data) as (H1 & H2 & _). now split.
Qed.

Lemma update_nth_map {A B} (g : A -> B) (f : A -> A) l : forall i,
  (forall x, In x l -> g (f x) = g x) ->
  map g (update_nth f i l) = map g l.
Proof.
  induction l as [|x l IH]; intros i H; [reflexivity|].
  destruct i; cbn [update_nth map].
  - now rewrite H by (now left).
  - rewrite IH; [reflexivity|]. intros y Hy. apply H. now right.
Qed.

Lemma update_nth_twice {A} (f : A -> A) l : forall i,
  (forall x, In x l -> f (f x) = x) ->
  update_nth f i (update_nth f i l) = l.
Proof.
  induction l as [|x l IH]; intros i H; [reflexivity|].
  destruct i; cbn [update_nth].
  - now rewrite H by (now left).
  - rewrite IH; [reflexivity|]. intros y Hy. apply H. now right.
Qed.

Lemma update_nth_forallb {A} (p : A -> bool) (f : A -> A) l : forall i,
  forallb p l = true ->
  (forall x, In x l -> p (f x) = true) ->
  forallb p (update_nth f i l) = true.
Proof.
  induction l as [|x l IH]; intros i Hl H; [reflexivity|].
  cbn [forallb] in Hl. apply andb_true_iff in Hl. destruct Hl as [Hx Hl].
  destruct i; cbn [update_nth forallb].
  - rewrite H by (now left). exact Hl.
  - rewrite Hx, IH; [reflexivity|assumption|]. intros y Hy. apply H. now right.
Qed.

Lemma click_tidy v :
  tidy v = true ->
  tidy (click v) = true /\ held (click v) = held v /\ click (click v) = v.
Proof.
  destruct v as [data [ch|] [hid|]]; cbn [tidy click held andb]; intros H;
    try discriminate.
  - rewrite andb_true_r in H. rewrite H, app_nil_r. repeat split.
  - rewrite H, app_nil_r. repeat split.
  - repeat split.
Qed.

Lemma click_at_tidy path : forall v,
  tidy v = true ->
  tidy (click_at path v) = true
  /\ held (click_at path v) = held v
  /\ click_at path (click_at path v) = v.
Proof.
  induction path as [|i path IH]; intros v Hv; [now apply click_tidy|].
  destruct v as [data [ch|] hid]; cbn [click_at]; [|now repeat split].
  assert (Hch : forallb tidy ch = true /\ hid = None).
  { cbn [tidy] in Hv. destruct hid; [discriminate|].
    cbn [andb] in Hv. rewrite andb_true_r in Hv. now split. }
  destruct Hch as [Hch ->].
  assert (Hall : forall x, In x ch -> tidy x = true)
    by (now apply forallb_forall).
  split; [|split].
  - cbn [tidy andb]. rewrite andb_true_r.
    apply update_nth_forallb; [assumption|]. intros x Hx. now apply IH, Hall.
  - cbn [held]. f_equal. f_equal.
    apply update_nth_map. intros x Hx. now apply IH, Hall.
  - f_equal. f_equal. apply update_nth_twice. intros x Hx. now apply IH, Hall.
Qed.

(** X19.  Whatever nodes are clicked, in whatever order, the view keeps
    every node of the hierarchy, each in its place, shown or hidden, and
    a second click on a node undoes the first. *)
Theorem clicks_keep_the_tree (data : htree) (clicks : list (list nat)) :
  let view := fold_left (fun v path => click_at path v) clicks (initial_view data) in
  held view = data
  /\ forall path, click_at path (click_at path view) = view.
Proof.
  cbv zeta.
  assert (H : forall v, tidy v = true ->
              tidy (fold_left (fun v path => click_at path v) clicks v) = true
              /\ held (fold_left (fun v path => click_at path v) clicks v) = held v).
  { induction clicks as [|p clicks IH]; intros v Hv; [now split|].
    cbn [fold_left]. destruct (click_at_tidy p v Hv) as (H1 & H2 & _).
    destruct (IH _ H1) as [I1 I2]. split; [assumption|congruence]. }
  destruct (initial_view_spec data) as (_ & Hheld & Htidy).
  destruct (H _ Htidy) as [H1 H2]. split; [congruence|].
  intros path. now apply click_at_tidy.
Qed.

(** ** The order of the children *)

Lemma Pos_of_uint_acc_nat d : forall acc,
  Pos.to_nat (Pos.of_uint_acc d acc) = Nat.of_uint_acc d (Pos.to_nat acc).
Proof.
  induction d; intros acc; cbn [Pos.of_uint_acc Nat.of_uint_acc];
    [reflexivity|..]; rewrite IHd; f_equal; rewrite Nat.tail_mul_spec; lia.
Qed.

Lemma N_of_uint_nat d : N.to_nat (N.of_uint d) = Nat.of_uint d.
Proof.
  unfold N.of_uint, Nat.of_uint.
  induction d; cbn [Pos.of_uint Nat.of_uint_acc N.to_nat];
    try (rewrite Pos_of_uint_acc_nat; reflexivity).
  - reflexivity.
  - exact IHd.
Qed.

Lemma N_to_uint_of_nat n : N.to_uint (N.of_nat n) = Nat.to_uint n.
Proof.
  set (d := N.to_uint (N.of_nat n)).
  assert (Hn : Nat.of_uint d = n).
  { rewrite <- N_of_uint_nat. subst d. rewrite DecimalN.Unsigned.of_to. lia. }
  assert (Hd : Decimal.unorm d = d).
  { subst d. rewrite <- DecimalN.Unsigned.to_of.
    now rewrite DecimalN.Unsigned.of_to. }
  rewrite <- Hn, DecimalNat.Unsigned.to_of. now symmetry.
Qed.

Lemma String_of_N_of_nat n : String_of_N (N.of_nat n) = String_of_nat n.
Proof. unfold String_of_N, String_of_nat. now rewrite N_to_uint_of_nat. Qed.

Lemma array_index_String_of_nat n :
  (N.of_nat n < 4294967295)%N ->
  array_index (String_of_nat n) = Some (N.of_nat n).
Proof.
  intros H. unfold array_index. rewrite parse_digits_String_of_nat.
  rewrite String_of_N_of_nat, String.eqb_refl.
  apply N.ltb_lt in H. now rewrite H.
Qed.

Lemma string_of_uint_no_dot d : no_sep "." (NilEmpty.string_of_uint d).
Proof.
  unfold no_sep.
  induction d; simpl; intros c H; try (destruct H as [<-|H]; [discriminate|auto]).
  contradiction.
Qed.

(** An array index is the decimal form of its number, in one segment. *)
Lemma array_index_Some k i :
  array_index k = Some i -> k = String_of_N i /\ parent_of k = None.
Proof.
  unfold array_index. destruct (parse_digits 10 k None) as [n|]; [|discriminate].
  destruct (String.eqb_spec (String_of_N n) k) as [E|]; [|discriminate].
  destruct (n <? 4294967295)%N; [|discriminate]. intros [= <-].
  split; [now symmetry|]. apply parent_of_None. unfold segments.
  rewrite <- E. unfold String_of_N.
  now rewrite split_no_sep by apply string_of_uint_no_dot.
Qed.

Lemma filter_all {A} (p : A -> bool) l :
  (forall x, In x l -> p x = true) -> filter p l = l.
Proof.
  induction l as [|x l IH]; intros H; [reflexivity|].
  cbn [filter]. rewrite H by (now left). f_equal. apply IH.
  intros y Hy. apply H. now right.
Qed.

Lemma filter_none {A} (p : A -> bool) l :
  (forall x, In x l -> p x = false) -> filter p l = [].
Proof.
  induction l as [|x l IH]; intros H; [reflexivity|].
  cbn [filter]. rewrite H by (now left). apply IH.
  intros y Hy. apply H. now right.
Qed.

Lemma filter_filter_implied {A} (p q : A -> bool) l :
  (forall x, In x l -> p x = true -> q x = true) ->
  filter p (filter q l) = filter p l.
Proof.
  induction l as [|x l IH]; intros H; [reflexivity|].
  cbn [filter]. destruct (q x) eqn:Eq; cbn [filter].
  - destruct (p x); [f_equal|]; apply IH; intros y Hy; apply H; now right.
  - destruct (p x) eqn:Ep.
    + rewrite (H x (or_introl eq_refl) Ep) in Eq. discriminate.
    + apply IH. intros y Hy. apply H. now right.
Qed.

Lemma buildNodeDictionary_keys data :
  NoDup (map numbering data) -> ~ In "__proto__" (map numbering data) ->
  map fst (own (buildNodeDictionary data)) = map numbering data.
Proof.
  unfold buildNodeDictionary. intros Hnd Hno.
  enough (G : forall o0, NoDup (map fst (own o0) ++ map numbering data) ->
               map fst (own (fold_left
                               (fun d r => dict_assign d (numbering r) (make_node r))
                               data o0))
               = map fst (own o0) ++ map numbering data)
    by (apply (G {| own := []; proto := None |}); exact Hnd).
  clear Hnd. induction data as [|r data IH]; intros o0 Hnd; cbn [fold_left map].
  - now rewrite app_nil_r.
  - assert (Hk : map fst (own (dict_assign o0 (numbering r) (make_node r)))
                 = map fst (own o0) ++ [numbering r]).
    { rewrite dict_assign_own.
      destruct (String.eqb_spec (numbering r) "__proto__") as [E|E].
      { exfalso. apply Hno. now left. }
      rewrite dict_set_keys.
      destruct (mem_string (numbering r) (map fst (own o0))) eqn:E'; [|reflexivity].
      apply mem_string_In in E'. exfalso. cbn [map] in Hnd.
      apply NoDup_remove_2 in Hnd. apply Hnd. apply in_or_app. now left. }
    rewrite IH; [now rewrite Hk, <- app_assoc| |].
    + intros H. apply Hno. now right.
    + rewrite Hk, <- app_assoc. exact Hnd.
Qed.

Lemma seq_sorted_N n : forall start,
  StronglySorted N.le (map N.of_nat (seq start n)).
Proof.
  induction n as [|n IH]; intros start; cbn [seq map]; constructor.
  - apply IH.
  - apply Forall_forall. intros x Hx. apply in_map_iff in Hx.
    destruct Hx as (m & <- & Hm). apply in_seq in Hm. lia.
Qed.

(** Every node of the graph under a key has the nodes pushed under its
    own key as children, in the order of the second [forEach]. *)
Lemma graph_of_children N order :
  (forall k n, dict_own N k = Some n ->
     node_id n = k /\ parentId n = parent_of k /\ children n = kids_of order k
     /\ In k order) ->
  forall fuel k t, graph_of fuel N k = Some t ->
  forall sub, In sub (subtrees t) ->
    exists x, tree_id sub = Some x
              /\ map tree_id (tree_children sub) = map Some (kids_of order x).
Proof.
  intros HN.
  apply (graph_of_ind N order HN
           (fun k t => tree_id t = Some k
              /\ forall sub, In sub (subtrees t) ->
                   exists x, tree_id sub = Some x
                     /\ map tree_id (tree_children sub)
                        = map Some (kids_of order x))).
  intros k n kids En H. split; [reflexivity|].
  cbn [subtrees]. intros sub [<-|Hs].
  - exists k. split; [reflexivity|]. cbn [tree_children].
    clear En. induction H as [|c t l l' [Hc _] _ IH]; cbn; [reflexivity|].
    now rewrite Hc, IH.
  - apply in_flat_map in Hs. destruct Hs as (t & Ht & Hs).
    destruct (Forall2_In_r _ _ _ _ H Ht) as (c' & _ & _ & Q). now apply Q.
Qed.

Section child_order.
Variable data : list row.
Variable top_count : nat.
Hypothesis data_wf : Forall (fun r => well_formed_numbering (numbering r)) data.
Hypothesis data_NoDup : NoDup (map numbering data).
Hypothesis tops_are : forall k,
  In k (map numbering data) /\ parent_of k = None
  <-> In k (map String_of_nat (seq 1 top_count)).
Hypothesis tops_small : (N.of_nat top_count < 4294967295)%N.

Let d1 := init_nodes (own (buildNodeDictionary data)).
Let indexed :=
  flat_map (fun kv : string * node =>
              match array_index (fst kv) with
              | Some i => [(i, snd kv)]
              | None => []
              end) d1.
Let named :=
  filter (fun kv : string * node =>
            match array_index (fst kv) with
            | Some _ => false
            | None => true
            end) d1.
Let sorted := Array_sort index_order indexed.
Let OV := Object_values d1.
Let order := map node_id OV.

Lemma OV_parts : OV = map snd sorted ++ map snd named.
Proof. reflexivity. Qed.

Lemma d1_keys : map fst d1 = map numbering data.
Proof.
  unfold d1. rewrite init_nodes_keys.
  apply buildNodeDictionary_keys; [assumption|now apply data_no_proto].
Qed.

Lemma d1_key_id kv : In kv d1 -> node_id (snd kv) = fst kv.
Proof.
  destruct kv as [k n]. intros H. now destruct (d1_entries data data_wf k n H).
Qed.

Lemma top_key_index k :
  In k (map numbering data) -> parent_of k = None ->
  exists m, k = String_of_nat m /\ array_index k = Some (N.of_nat m)
            /\ In m (seq 1 top_count).
Proof.
  intros Hk Hp. pose proof (proj1 (tops_are k) (conj Hk Hp)) as Hin.
  apply in_map_iff in Hin. destruct Hin as (m & <- & Hm).
  exists m. split; [reflexivity|]. split; [|assumption].
  apply array_index_String_of_nat. apply in_seq in Hm. lia.
Qed.

Lemma indexed_In i n :
  In (i, n) indexed <-> exists k, In (k, n) d1 /\ array_index k = Some i.
Proof.
  unfold indexed. rewrite in_flat_map. split.
  - intros ([k n'] & Hd & H). cbn [fst snd] in H.
    destruct (array_index k) as [j|] eqn:E; [|contradiction].
    destruct H as [[= <- <-]|[]]. now exists k.
  - intros (k & Hd & E). exists (k, n). split; [assumption|].
    cbn [fst snd]. rewrite E. now left.
Qed.

Lemma sorted_In x : In x sorted <-> In x indexed.
Proof. apply Array_sort_In. Qed.

Lemma sorted_entry i n :
  In (i, n) sorted ->
  node_id n = String_of_N i /\ parent_of (node_id n) = None /\ is_top n = true.
Proof.
  intros H. apply sorted_In, indexed_In in H. destruct H as (k & Hd & E).
  destruct (d1_entries data data_wf k n Hd) as (Hid & Hp & _).
  destruct (array_index_Some k i E) as [Ek Hnone].
  rewrite Hid. split; [assumption|]. split; [assumption|].
  unfold is_top. now rewrite Hp, Hnone.
Qed.

Lemma named_entry kv :
  In kv named ->
  In kv d1 /\ array_index (fst kv) = None /\ is_top (snd kv) = false.
Proof.
  unfold named. rewrite filter_In. intros [Hd E]. split; [assumption|].
  destruct (array_index (fst kv)) as [i|] eqn:Ei; [discriminate|].
  split; [reflexivity|]. destruct kv as [k n]. cbn [fst snd] in *.
  destruct (d1_entries data data_wf k n Hd) as (Hid & Hp & Hk & Hwf).
  unfold is_top. rewrite Hp.
  destruct (parent_of k) as [p|] eqn:Ep.
  - apply String.eqb_neq. apply well_formed_nonempty.
    now apply (well_formed_parent k).
  - destruct (top_key_index k Hk Ep) as (m & _ & E' & _). congruence.
Qed.

Lemma tops_sorted :
  root_children (linked d1 OV) = map String_of_N (map fst sorted).
Proof.
  unfold linked. cbn [root_children]. rewrite OV_parts, filter_app, map_app.
  rewrite (filter_none is_top (map snd named)).
  - rewrite app_nil_r, filter_all.
    + rewrite !map_map. apply map_ext_in. intros [i n] H. cbn [fst snd].
      now destruct (sorted_entry i n H).
    + intros n Hn. apply in_map_iff in Hn. destruct Hn as ([i n'] & <- & H).
      now destruct (sorted_entry i n' H) as (_ & _ & Ht).
  - intros n Hn. apply in_map_iff in Hn. destruct Hn as (kv & <- & H).
    now destruct (named_entry kv H) as (_ & _ & Ht).
Qed.

Lemma sorted_indices_ascending : StronglySorted N.le (map fst sorted).
Proof.
  apply StronglySorted_map. unfold sorted.
  eapply StronglySorted_impl;
    [|apply (Array_sort_sorted index_order (fun _ => True))].
  - intros x y H. unfold cmp_le, index_order in H. cbn [keeps_before] in H.
    apply Z.leb_le in H. lia.
  - intros a b _ _. unfold cmp_le, index_order. cbn [keeps_before].
    rewrite !Z.leb_le. lia.
  - intros a b c _ _ _. unfold cmp_le, index_order. cbn [keeps_before].
    rewrite !Z.leb_le. lia.
  - apply Forall_forall. intros x _. exact I.
Qed.

Lemma indexed_keys :
  map String_of_N (map fst indexed)
  = filter (fun k => match array_index k with Some _ => true | None => false end)
           (map fst d1).
Proof.
  unfold indexed. induction d1 as [|[k n] d IH]; [reflexivity|].
  cbn [flat_map map filter fst snd].
  destruct (array_index k) as [i|] eqn:E; cbn [app map fst].
  - rewrite IH. f_equal. now destruct (array_index_Some k i E) as [-> _].
  - exact IH.
Qed.

Lemma indices_are :
  map fst sorted = map N.of_nat (seq 1 top_count).
Proof.
  symmetry. apply (sorted_perm_unique N.le).
  - transitivity (map fst indexed);
      [|apply Permutation_map, Array_sort_perm].
    apply NoDup_Permutation.
    + apply Injective_map_NoDup; [|apply seq_NoDup].
      intros a b E. lia.
    + apply (NoDup_map_inv String_of_N). rewrite indexed_keys.
      apply NoDup_filter. rewrite d1_keys. exact data_NoDup.
    + intros i. rewrite !in_map_iff. split.
      * intros (m & <- & Hm).
        assert (Hk : In (String_of_nat m) (map numbering data)
                     /\ parent_of (String_of_nat m) = None).
        { apply tops_are. now apply in_map. }
        destruct Hk as [Hk Hp]. rewrite <- d1_keys in Hk.
        apply in_map_iff in Hk. destruct Hk as ([k n] & Ek & Hd).
        cbn [fst] in Ek. subst k. exists (N.of_nat m, n). split; [reflexivity|].
        apply indexed_In. exists (String_of_nat m). split; [assumption|].
        apply array_index_String_of_nat. apply in_seq in Hm. lia.
      * intros ([j n] & <- & H). cbn [fst]. apply indexed_In in H.
        destruct H as (k & Hd & E).
        destruct (d1_entries data data_wf k n Hd) as (_ & _ & Hk & _).
        destruct (array_index_Some k j E) as [_ Hp].
        destruct (top_key_index k Hk Hp) as (m & _ & E' & Hm).
        exists m. split; [congruence|assumption].
  - apply seq_sorted_N.
  - apply sorted_indices_ascending.
  - intros x y _ _. lia.
Qed.

(** The children of the root: the top-level comments by ascending
    number. *)
Lemma tops_ascending :
  root_children (linked d1 OV) = map String_of_nat (seq 1 top_count).
Proof.
  rewrite tops_sorted, indices_are, map_map. apply map_ext.
  apply String_of_N_of_nat.
Qed.

(** The children of a comment: its replies in the order of the records. *)
Lemma kids_in_record_order k :
  kids_of order k = filter (is_child_of k) (map numbering data).
Proof.
  unfold kids_of, order. rewrite OV_parts, !map_app, filter_app.
  rewrite filter_none.
  - cbn [app]. rewrite <- d1_keys.
    assert (E : map node_id (map snd named)
                = filter (fun c => match array_index c with
                                   | Some _ => false
                                   | None => true
                                   end) (map fst d1)).
    { unfold named.
      assert (H : forall kv, In kv d1 -> node_id (snd kv) = fst kv)
        by apply d1_key_id.
      induction d1 as [|kv d IH]; [reflexivity|].
      cbn [filter map]. destruct (array_index (fst kv)); cbn [map].
      - apply IH. intros x Hx. apply H. now right.
      - rewrite H by (now left). f_equal. apply IH. intros x Hx. apply H. now right. }
    rewrite E. apply filter_filter_implied. intros c _ Hc.
    apply is_child_of_spec in Hc. destruct Hc as [Hp _].
    destruct (array_index c) as [i|] eqn:Ei; [|reflexivity].
    destruct (array_index_Some c i Ei) as [_ Hn]. congruence.
  - intros c Hc. apply in_map_iff in Hc. destruct Hc as (n & <- & Hn).
    apply in_map_iff in Hn. destruct Hn as ([i n'] & <- & H). cbn [snd].
    destruct (sorted_entry i n' H) as (_ & Hp & _).
    unfold is_child_of. now rewrite Hp.
Qed.

Lemma rebuild_children :
  exists t,
    rebuild data = Returns t
    /\ map tree_id (tree_children t)
       = map (fun i => Some (String_of_nat i)) (seq 1 top_count)
    /\ forall sub k, In sub (subtrees t) -> tree_id sub = Some k ->
         map tree_id (tree_children sub)
         = map Some (filter (is_child_of k) (map numbering data)).
Proof.
  destruct (rebuild_returns data data_wf) as (kids & E & Hk).
  fold d1 OV in Hk. eexists. split; [exact E|]. split.
  - rewrite computeCounts_children. cbn [tree_children].
    rewrite map_map.
    rewrite (map_ext _ tree_id) by (intros; apply computeCounts_id).
    rewrite (forest_top_ids data data_wf kids Hk). fold d1 OV.
    rewrite tops_ascending, map_map. reflexivity.
  - intros sub k Hs Hid. rewrite computeCounts_subtrees in Hs.
    apply in_map_iff in Hs. destruct Hs as (sub0 & <- & Hs).
    rewrite computeCounts_id in Hid. rewrite computeCounts_children, map_map.
    rewrite (map_ext _ tree_id) by (intros; apply computeCounts_id).
    cbn [subtrees] in Hs. destruct Hs as [<-|Hs]; [discriminate Hid|].
    apply in_flat_map in Hs. destruct Hs as (kid & Hkid & Hs).
    destruct (Forall2_In_r _ _ _ _ Hk Hkid) as (k0 & _ & Hg).
    destruct (graph_of_children _ order (N_nodes data data_wf) _ _ _ Hg sub0 Hs)
      as (x & Hx & Hc).
    rewrite Hc. assert (x = k) by congruence. subst x.
    now rewrite kids_in_record_order.
Qed.

End child_order.

(** The positions of one segment in a forest are the ranks of its
    trees. *)
Lemma paths_tops l : forall k p,
  (exists c, In (p, c) (paths k l)) /\ List.length p = 1
  <-> exists i, p = [i] /\ k <= i < k + List.length l.
Proof.
  induction l as [|c0 kids rest IHk IHr] using forest_ind; intros k p.
  - split; [intros [[c []] _]|intros (i & _ & H); cbn in H; lia].
  - rewrite paths_cons. split.
    + intros [[c H] Hlen]. destruct H as [H|H].
      * injection H as <- _. exists k. split; [reflexivity|]. cbn [List.length]. lia.
      * apply in_app_or in H. destruct H as [H|H].
        -- apply in_map_iff in H. destruct H as ([q c'] & [= <- _] & Hq).
           cbn [fst List.length] in Hlen. apply paths_shape in Hq.
           destruct Hq as (Hne & _). destruct q; [congruence|cbn in Hlen; lia].
        -- destruct (proj1 (IHr (S k) p) (conj (ex_intro _ c H) Hlen))
             as (i & -> & Hi).
           exists i. split; [reflexivity|]. cbn [List.length]. lia.
    + intros (i & -> & Hi). split; [|reflexivity].
      destruct (Nat.eq_dec i k) as [->|Hne].
      * exists c0. now left.
      * destruct (proj2 (IHr (S k) [i])) as [[c H] _].
        { exists i. split; [reflexivity|]. cbn [List.length] in Hi. lia. }
        exists c. right. apply in_or_app. now right.
Qed.

(** X20.  The children of the tree rebuilt from an export, sorted or
    not: under the root the top-level comments stand in ascending order
    of their number, whatever the order of the records (the keys of the
    dictionary that read as integers are enumerated first, in ascending
    order); under a comment its replies stand in the order of the
    records.  The first part needs fewer than 4294967295 top-level
    comments. *)
Theorem rebuild_child_order (comments : list child) (data : list row) :
  Permutation (flat_sequence comments) data ->
  (N.of_nat (List.length (prune comments)) < 4294967295)%N ->
  exists t,
    rebuild data = Returns t
    /\ map tree_id (tree_children t)
       = map (fun i => Some (String_of_nat i))
             (seq 1 (List.length (prune comments)))
    /\ forall sub k, In sub (subtrees t) -> tree_id sub = Some k ->
         map tree_id (tree_children sub)
         = map Some (filter (is_child_of k) (map numbering data)).
Proof.
  intros Hp Hsmall.
  assert (Hin : forall k, In k (map numbering data)
                          <-> In k (map numbering (flat_sequence comments))).
  { intros k. split; apply Permutation_in;
      [apply Permutation_sym|]; now apply Permutation_map. }
  apply rebuild_children.
  - apply Forall_forall. intros r Hr.
    apply (flat_sequence_well_formed comments).
    now apply (Permutation_in _ (Permutation_sym Hp)).
  - apply (Permutation_NoDup (Permutation_map numbering Hp)).
    apply flat_sequence_NoDup.
  - intros k. rewrite Hin, flat_sequence_numberings, !in_map_iff. split.
    + intros [(p & <- & Hp') Hnone]. apply in_map_iff in Hp'.
      destruct Hp' as ([p' c] & <- & Hpc). cbn [fst] in *.
      pose proof (paths_shape _ _ _ _ Hpc) as (Hne & _).
      rewrite parent_of_numbering_of in Hnone by assumption.
      destruct (Nat.ltb_spec 1 (List.length p')) as [|Hlen]; [discriminate|].
      assert (Hone : List.length p' = 1) by (destruct p'; [congruence|cbn in *; lia]).
      destruct (proj1 (paths_tops (prune comments) 1 p')
                      (conj (ex_intro _ c Hpc) Hone)) as (i & -> & Hi).
      exists i. split; [reflexivity|]. apply in_seq. lia.
    + intros (i & <- & Hi). apply in_seq in Hi.
      destruct (proj2 (paths_tops (prune comments) 1 [i])) as [[c Hc] _].
      { exists i. split; [reflexivity|lia]. }
      split.
      * exists [i]. split; [reflexivity|]. apply in_map_iff. now exists ([i], c).
      * change (String_of_nat i) with (numbering_of [i]).
        now rewrite parent_of_numbering_of by discriminate.
  - assumption.
Qed.

Lemma rebuild_child_order_witness :
  let comments := [T1 (sample_comment "b" 1)
                      (Some [T1 (sample_comment "a" 5) None;
                             T1 (sample_comment "d" 2) None]);
                   T1 (sample_comment "c" 3) None] in
  let data := rev (flat_sequence comments) in
  exists t,
    rebuild data = Returns t
    /\ map tree_id (tree_children t) = [Some "1"; Some "2"]
    /\ forall sub k, In sub (subtrees t) -> tree_id sub = Some k ->
         map tree_id (tree_children sub)
         = map Some (filter (is_child_of k) (map numbering data)).
Proof.
  intros comments data.
  apply (rebuild_child_order comments data).
  - apply Permutation_rev.
  - reflexivity.
Defined.

(** ** Names inherited from [Object.prototype] *)

Lemma comparator_prototype_column column asc a b :
  mem_string column Object_prototype_keys = true ->
  comparator column asc a b = Num 0.
Proof.
  intros H. apply mem_string_In in H.
  repeat (destruct H as [<-|H]; [reflexivity|]). contradiction.
Qed.

(** X21.  A column named like a member of [Object.prototype] (such as
    [toString]) passes the test [column in tableData[0]]: every record
    reads the same inherited value, so the sort leaves the records in
    their order, and the direction flag is negated all the same. *)
Theorem sortTable_prototype_column (column : string) (st : state) :
  mem_string column Object_prototype_keys = true ->
  tableBuilt st = true ->
  tableData st <> [] ->
  sortTable column st
  = {| tableData := tableData st; tableBuilt := true;
       sortAsc := negb (sortAsc st) |}.
Proof.
  intros Hc Hb Hne. rewrite sortTable_sorts; try assumption.
  - f_equal. apply Array_sort_sorted_id.
    clear Hne. induction (tableData st) as [|r l IH]; [constructor|].
    constructor; [exact IH|].
    apply Forall_forall. intros x _. unfold cmp_le.
    now rewrite comparator_prototype_column.
  - left. unfold column_in_row. rewrite Hc. apply orb_true_r.
Qed.

Lemma sortTable_prototype_column_witness :
  let rows := flat_sequence [T1 (sample_comment "b" 2) None;
                             T1 (sample_comment "a" 1) None] in
  sortTable "valueOf" {| tableData := rows; tableBuilt := true; sortAsc := true |}
  = {| tableData := rows; tableBuilt := true; sortAsc := false |}.
Proof.
  intros rows.
  apply (sortTable_prototype_column
           "valueOf" {| tableData := rows; tableBuilt := true; sortAsc := true |}).
  - reflexivity.
  - reflexivity.
  - discriminate.
Defined.

Lemma fold_link_step_Throws pr l e :
  fold_left (link_step pr) l (Throws e) = Throws e.
Proof. induction l as [|n l IH]; [reflexivity|exact IH]. Qed.

Lemma push_child_keys d p c : map fst (push_child d p c) = map fst d.
Proof.
  unfold push_child. rewrite map_map. apply map_ext.
  intros kv. now destruct (fst kv =? p).
Qed.

Lemma link_step_keys pr s n :
  link_step pr (Returns s) n = Throws "TypeError"
  \/ exists s', link_step pr (Returns s) n = Returns s'
                /\ map fst (nodes s') = map fst (nodes s).
Proof.
  unfold link_step. destruct (parentId n) as [p|]; [|right; eexists; now split].
  destruct (p =? ""); [right; eexists; now split|].
  destruct (dict_get _ p).
  - right. eexists. split; [reflexivity|]. apply push_child_keys.
  - now left.
  - right. eexists. now split.
Qed.

(** A member of [Object.prototype] is read through any node object that
    replaced the prototype: none of the five members of such an object
    has the name of one. *)
Lemma inherited_prototype_key pr p :
  mem_string p Object_prototype_keys = true -> inherited pr p = true.
Proof.
  intros H. apply mem_string_In in H. unfold Object_prototype_keys in H.
  repeat (destruct H as [<-|H]; [destruct pr; reflexivity|]).
  contradiction.
Qed.

Lemma link_loop_throws pr l : forall s,
  (exists n p, In n l /\ parentId n = Some p /\ p <> ""
               /\ ~ In p (map fst (nodes s))
               /\ mem_string p Object_prototype_keys = true) ->
  fold_left (link_step pr) l (Returns s) = Throws "TypeError".
Proof.
  induction l as [|a l IH]; intros s (n & p & Hn & Hp & Hne & Hk & Hm).
  { contradiction. }
  cbn [fold_left]. destruct Hn as [->|Hn].
  - assert (E : link_step pr (Returns s) n = Throws "TypeError").
    { unfold link_step. rewrite Hp. apply String.eqb_neq in Hne. rewrite Hne.
      unfold dict_get. cbn [own proto].
      rewrite (proj2 (dict_own_None _ _) Hk).
      now rewrite (inherited_prototype_key pr p Hm). }
    rewrite E. apply fold_link_step_Throws.
  - destruct (link_step_keys pr s a) as [E|(s' & E & Hs')]; rewrite E.
    + apply fold_link_step_Throws.
    + apply IH. exists n, p. rewrite Hs'. auto.
Qed.

(** X22.  A record whose numbering, without its last segment, names a
    member of [Object.prototype] that is not a numbering of the data
    (such as [toString.1]) makes the rebuild throw a [TypeError]: the
    lookup of the parent reads the inherited member, which has no
    [children] to push to. *)
Theorem rebuild_throws_on_prototype_parent (data : list row) (r : row) (p : string) :
  In r data ->
  parent_of (numbering r) = Some p ->
  mem_string p Object_prototype_keys = true ->
  ~ In p (map numbering data) ->
  rebuild data = Throws "TypeError".
Proof.
  intros Hr Hp Hm Hnot. unfold rebuild, buildHierarchyFromDict. cbv zeta.
  rewrite link_loop_throws; [reflexivity|].
  destruct (buildNodeDictionary_spec data) as (_ & Hkeys & Hent). cbv zeta in *.
  assert (Hk : In (numbering r) (map fst (own (buildNodeDictionary data)))).
  { apply Hkeys. split; [now apply in_map|].
    intros E. rewrite E in Hp. discriminate Hp. }
  apply in_map_iff in Hk. destruct Hk as ([k n0] & Ek & Hd). cbn [fst] in Ek. subst k.
  destruct (Hent _ _ Hd) as (r' & _ & Er' & ->).
  exists (set_children_count (make_node r') [] 1), p.
  split; [|split; [|split; [|split]]].
  - apply Object_values_In. apply in_map_iff.
    exists (numbering r, set_children_count (make_node r') [] 1).
    split; [reflexivity|]. unfold init_nodes. apply in_map_iff.
    now exists (numbering r, make_node r').
  - cbn [parentId set_children_count]. rewrite make_node_parent, <- Er'. exact Hp.
  - intros ->. discriminate Hm.
  - cbn [nodes]. rewrite init_nodes_keys. intros H. apply Hnot. now apply Hkeys.
  - exact Hm.
Qed.

Lemma rebuild_throws_on_prototype_parent_witness :
  rebuild [{| numbering := "1"; level := 1; body := "a"; author := "user";
              upvotes := 1; downvotes := 0; score := Num 1; dateUtc := None |};
           {| numbering := "valueOf.1"; level := 2; body := "b"; author := "user";
              upvotes := 1; downvotes := 0; score := Num 1; dateUtc := None |}]
  = Throws "TypeError".
Proof.
  apply (rebuild_throws_on_prototype_parent
           _ {| numbering := "valueOf.1"; level := 2; body := "b"; author := "user";
                upvotes := 1; downvotes := 0; score := Num 1; dateUtc := None |}
           "valueOf").
  - right. left. reflexivity.
  - reflexivity.
  - reflexivity.
  - intros [H|[H|[]]]; discriminate H.
Defined.

(** ** The compact cell *)

Lemma escapeHtml_length s :
  String.length (escapeHtml s)
  = String.length s + 4 * occurrences "&" s + 3 * occurrences "<" s
    + 3 * occurrences ">" s + 5 * occurrences dquote s.
Proof.
  induction s as [|a s IH]; [reflexivity|].
  rewrite escapeHtml_cons, string_length_append, IH. unfold entity.
  cbn [occurrences String.length].
  destruct (Ascii.eqb_spec a "&") as [->|Hamp]; [cbn; lia|].
  destruct (Ascii.eqb_spec a "<") as [->|Hlt]; [cbn; lia|].
  destruct (Ascii.eqb_spec a ">") as [->|Hgt]; [cbn; lia|].
  destruct (Ascii.eqb_spec a dquote) as [->|Hq]; [cbn; lia|].
  cbn. lia.
Qed.

(** Escaping changes a text exactly when the text holds one of the four
    characters. *)
Lemma escapeHtml_fixed s :
  escapeHtml s = s
  <-> occurrences "&" s = 0 /\ occurrences "<" s = 0
      /\ occurrences ">" s = 0 /\ occurrences dquote s = 0.
Proof.
  split.
  - intros E. apply (f_equal String.length) in E. rewrite escapeHtml_length in E. lia.
  - induction s as [|a s IH]; [reflexivity|].
    cbn [occurrences]. rewrite escapeHtml_cons. unfold entity.
    destruct (Ascii.eqb a "&"); [cbn; lia|].
    destruct (Ascii.eqb a "<"); [cbn; lia|].
    destruct (Ascii.eqb a ">"); [cbn; lia|].
    destruct (Ascii.eqb a dquote); [cbn; lia|].
    cbn [plus String.append]. intros H. f_equal. now apply IH.
Qed.

Lemma escapeHtml_uint d :
  escapeHtml (NilEmpty.string_of_uint d) = NilEmpty.string_of_uint d.
Proof.
  induction d; cbn [NilEmpty.string_of_uint]; [reflexivity|..];
    rewrite escapeHtml_cons, IHd; reflexivity.
Qed.

Lemma escapeHtml_String_of_jsnum v :
  escapeHtml (String_of_jsnum v) = String_of_jsnum v.
Proof.
  destruct v as [z|]; [|reflexivity]. cbn [String_of_jsnum]. unfold String_of_Z.
  destruct (Z.to_int z); cbn [NilEmpty.string_of_int].
  - apply escapeHtml_uint.
  - now rewrite escapeHtml_cons, escapeHtml_uint.
Qed.

Lemma only_br_tags_join_app l t :
  Forall (fun s => occurrences "<" s = 0 /\ occurrences ">" s = 0) l ->
  only_br_tags (join "<br>" l ++ t) = only_br_tags t.
Proof.
  intros H. induction H as [|x l [H1 H2] Hl IH]; [reflexivity|].
  destruct l as [|y l].
  - now apply only_br_tags_plain.
  - rewrite join_cons, string_append_assoc, only_br_tags_plain by assumption.
    rewrite string_append_assoc. exact IH.
Qed.

(** What follows a body cell is read as if the cell were not there. *)
Lemma formatBodyForHtml_markup removeNewlines str t :
  only_br_tags (formatBodyForHtml removeNewlines str ++ t) = only_br_tags t
  /\ occurrences dquote (formatBodyForHtml removeNewlines str) = 0.
Proof.
  destruct (String.eqb_spec str "") as [->|Hne]; [split; reflexivity|].
  rewrite (formatBodyForHtml_lines _ _ Hne).
  set (cells := map escapeHtml (String_split line_break str)).
  assert (Hall : forall c, Forall (fun s => occurrences c s = 0) cells
                           \/ ~ In c ["<"; ">"; dquote]%char).
  { intros c. destruct (in_dec Ascii.ascii_dec c ["<"; ">"; dquote]%char) as [Hc|Hc];
      [left|now right].
    apply Forall_forall. intros x Hx. apply in_map_iff in Hx.
    destruct Hx as (l & <- & _). destruct (escapeHtml_no_markup l) as (H1 & H2 & H3).
    destruct Hc as [<-|[<-|[<-|[]]]]; assumption. }
  assert (Hc : forall c, In c ["<"; ">"; dquote]%char ->
                         Forall (fun s => occurrences c s = 0) cells).
  { intros c Hin. destruct (Hall c) as [H|H]; [assumption|contradiction]. }
  clear Hall. split.
  - destruct removeNewlines.
    + apply only_br_tags_plain; apply occurrences_join;
        try reflexivity; apply Hc; cbn; auto.
    + apply only_br_tags_join_app. apply Forall_forall. intros x Hx.
      pose proof (Hc "<"%char) as H1. pose proof (Hc ">"%char) as H2.
      rewrite Forall_forall in H1, H2. split; [apply H1|apply H2]; cbn; auto.
  - destruct removeNewlines; apply occurrences_join;
      try reflexivity; apply Hc; cbn; auto.
Qed.

(** X23.  The second cell of a row of the compact table: the body cell,
    then the author, the date and the score in brackets.  The author is
    escaped twice (once on its own, once with the whole bracket), so an
    author is shown as written only if it holds none of [&], [<], [>]
    and the double quote; whatever the record holds, the cell opens no
    tag but [<br>] and holds no double quote. *)
Theorem compact_cell_escapes_author_twice
  (format : string) (removeNewlines : bool) (r : row) :
  In format ["iso8601"; "rfc1123"; "utc"] ->
  exists dateString cell,
    formatDate format (dateUtc r) = Returns dateString
    /\ compact_cell format removeNewlines r = Returns cell
    /\ cell = (formatBodyForHtml removeNewlines (body r) ++ " (by "
               ++ escapeHtml (escapeHtml (author r)) ++ ", "
               ++ escapeHtml dateString ++ ", " ++ arrows ++ " "
               ++ String_of_jsnum (score r) ++ ")")%string
    /\ (escapeHtml (escapeHtml (author r)) = escapeHtml (author r)
        <-> occurrences "&" (author r) = 0 /\ occurrences "<" (author r) = 0
            /\ occurrences ">" (author r) = 0
            /\ occurrences dquote (author r) = 0)
    /\ only_br_tags cell = true
    /\ occurrences dquote cell = 0.
Proof.
  intros Hf. destruct (formatDate_returns format (dateUtc r) Hf) as (d & Ed).
  exists d. eexists. split; [exact Ed|].
  unfold compact_cell. rewrite Ed. cbn [and_then]. split; [reflexivity|].
  split; [|split; [|split]].
  - f_equal. rewrite !escapeHtml_app, escapeHtml_String_of_jsnum. reflexivity.
  - rewrite <- escapeHtml_fixed. split; [|intros E; rewrite E; exact E].
    intros E. apply (f_equal unescapeHtml) in E.
    now rewrite !unescapeHtml_escapeHtml in E.
  - rewrite (proj1 (formatBodyForHtml_markup _ _ _)).
    destruct (escapeHtml_no_markup
                ("(by " ++ escapeHtml (author r) ++ ", " ++ d ++ ", " ++ arrows
                 ++ " " ++ String_of_jsnum (score r) ++ ")")) as (H1 & H2 & _).
    apply only_br_tags_none; cbn [String.append occurrences Ascii.eqb Bool.eqb];
      cbn; assumption.
  - rewrite occurrences_app, (proj2 (formatBodyForHtml_markup _ _ "")).
    destruct (escapeHtml_no_markup
                ("(by " ++ escapeHtml (author r) ++ ", " ++ d ++ ", " ++ arrows
                 ++ " " ++ String_of_jsnum (score r) ++ ")")) as (_ & _ & H3).
    rewrite occurrences_app, H3. reflexivity.
Qed.

Lemma compact_cell_escapes_author_twice_witness :
  exists dateString cell,
    formatDate "utc" None = Returns dateString
    /\ compact_cell "utc" true
         {| numbering := "1"; level := 1; body := "a<b"; author := "Tom&Jerry";
            upvotes := 1; downvotes := 0; score := Num 1; dateUtc := None |}
       = Returns cell
    /\ cell = ("a&lt;b" ++ " (by " ++ "Tom&amp;amp;Jerry" ++ ", " ++ escapeHtml dateString
               ++ ", " ++ arrows ++ " " ++ "1" ++ ")")%string
    /\ (escapeHtml (escapeHtml "Tom&Jerry") = escapeHtml "Tom&Jerry"
        <-> occurrences "&" "Tom&Jerry" = 0 /\ occurrences "<" "Tom&Jerry" = 0
            /\ occurrences ">" "Tom&Jerry" = 0
            /\ occurrences dquote "Tom&Jerry" = 0)
    /\ only_br_tags cell = true
    /\ occurrences dquote cell = 0.
Proof.
  apply (compact_cell_escapes_author_twice
           "utc" true
           {| numbering := "1"; level := 1; body := "a<b"; author := "Tom&Jerry";
              upvotes := 1; downvotes := 0; score := Num 1; dateUtc := None |}).
  right; right; left; reflexivity.
Defined.

(** ** Two sorts in a row *)

Lemma StronglySorted_filter {A} (R : A -> A -> Prop) (p : A -> bool) l :
  StronglySorted R l -> StronglySorted R (filter p l).
Proof.
  induction 1 as [|a l Hs IH Hall]; [constructor|].
  cbn [filter]. destruct (p a); [|exact IH].
  constructor; [exact IH|]. rewrite Forall_forall in *.
  intros x Hx. apply Hall. now apply filter_In in Hx.
Qed.

(** X24.  Two sorts in a row, on a first column and then on a second:
    the table keeps its records, and the records that tie under the
    second column are left in the order the first sort gave them, that
    of the first column (ascending or descending as the flag stood
    before the first sort).  For the column [score] this assumes every
    score is a number. *)
Theorem sortTable_keeps_the_earlier_order (column1 column2 : string) (st : state) :
  tableBuilt st = true ->
  tableData st <> [] ->
  column_in_row column1 = true \/ column1 = "body" ->
  column_in_row column2 = true \/ column2 = "body" ->
  Forall (orderable column1) (tableData st) ->
  Forall (orderable column2) (tableData st) ->
  let twice := tableData (sortTable column2 (sortTable column1 st)) in
  Permutation (tableData st) twice
  /\ forall k, orderable column2 k ->
       StronglySorted (fun a b => if sortAsc st
                                  then (column_order column1 a b <= 0)%Z
                                  else (column_order column1 b a <= 0)%Z)
                      (filter (fun r => (column_order column2 k r =? 0)%Z) twice).
Proof.
  intros Hb Hne Hc1 Hc2 Ho1 Ho2. cbv zeta.
  rewrite (sortTable_sorts column1 st) by assumption.
  set (first := Array_sort (comparator column1 (sortAsc st)) (tableData st)).
  assert (Hp : Permutation (tableData st) first) by apply Array_sort_perm.
  assert (Hne1 : first <> []).
  { intros E. rewrite E in Hp. apply Permutation_sym, Permutation_nil in Hp.
    contradiction. }
  assert (Ho2' : Forall (orderable column2) first).
  { rewrite Forall_forall in *. intros r Hr. apply Ho2.
    now apply (Permutation_in _ (Permutation_sym Hp)). }
  rewrite sortTable_sorts; [|reflexivity|exact Hne1|exact Hc2].
  cbn [tableData sortAsc]. split.
  - rewrite Hp. apply Array_sort_perm.
  - intros k Hk. rewrite sort_by_column_stable by assumption.
    apply StronglySorted_filter. now apply sort_by_column_ordered.
Qed.

Lemma sortTable_keeps_the_earlier_order_witness :
  let rows := flat_sequence [T1 (sample_comment "b" 1) None;
                             T1 (sample_comment "a" 2) None;
                             T1 (sample_comment "c" 1) None] in
  let st := {| tableData := rows; tableBuilt := true; sortAsc := true |} in
  let twice := tableData (sortTable "upvotes" (sortTable "body" st)) in
  Permutation rows twice
  /\ forall k, orderable "upvotes" k ->
       StronglySorted (fun a b => (column_order "body" a b <= 0)%Z)
                      (filter (fun r => (column_order "upvotes" k r =? 0)%Z) twice).
Proof.
  intros rows st.
  apply (sortTable_keeps_the_earlier_order "body" "upvotes" st).
  - reflexivity.
  - discriminate.
  - right. reflexivity.
  - left. reflexivity.
  - repeat constructor; discriminate.
  - repeat constructor; discriminate.
Defined.
